(** * Maze generator and A-star solver: embedding and verified properties

    The JavaScript sources (createMaze.js, solveMaze.js, the grid set-up of
    the main script and the parent walk of render.js) are embedded as Rocq
    functions.  JavaScript objects used as dictionaries are keyed by the
    strings the program itself builds ("x,y"); the frontier keeps its
    insertion order because the selection of the next node depends on it. *)

From Stdlib Require Import ZArith Lia String Ascii Decimal DecimalString DecimalZ DecimalPos.
From stdpp Require Import gmap strings list fin_maps.

Local Open Scope string_scope.
Local Open Scope list_scope.
Local Open Scope Z_scope.

(** ** JavaScript primitives on numbers and strings *)

Module Js.

(** [String(n)] for an integer [n]: decimal digits, a leading "-" when
    negative.  The code's numbers are doubles: this is what [String] prints
    for the integers a double holds exactly (up to 2^53 in size; from 1e21
    on [String] prints an exponent instead). *)
Definition String_of (n : Z) : string := NilZero.string_of_int (Z.to_int n).

Definition is_digit (c : ascii) : bool :=
  match NilEmpty.uint_of_string (String c EmptyString) with
  | Some _ => true
  | None => false
  end.

Definition is_space (c : ascii) : bool :=
  (Ascii.eqb c " " || Ascii.eqb c "009" || Ascii.eqb c "010"
   || Ascii.eqb c "011" || Ascii.eqb c "012" || Ascii.eqb c "013")%bool.

Fixpoint skip_spaces (s : string) : string :=
  match s with
  | String c r => if is_space c then skip_spaces r else s
  | EmptyString => s
  end.

Fixpoint digits_prefix (s : string) : string :=
  match s with
  | String c r => if is_digit c then String c (digits_prefix r) else EmptyString
  | EmptyString => EmptyString
  end.

(** [parseInt(s)] in radix 10: leading white space is skipped, an optional
    sign is read, then the longest run of digits; [None] stands for NaN.
    (The hexadecimal "0x" prefix is left out: no key of the program has
    one.  The value is the integer read; the code rounds it to a double,
    which changes nothing up to 2^53 in size.) *)
Definition parseInt (s : string) : option Z :=
  let t := skip_spaces s in
  let '(neg, body) :=
    match t with
    | String c r =>
        if Ascii.eqb c "-" then (true, r)
        else if Ascii.eqb c "+" then (false, r) else (false, t)
    | EmptyString => (false, t)
    end in
  match NilZero.uint_of_string (digits_prefix body) with
  | Some u => Some (if neg then - Z.of_uint u else Z.of_uint u)
  | None => None
  end.

(** [s.split(sep)] for a one-character separator. *)
Fixpoint split (sep : ascii) (s : string) : list string :=
  match s with
  | EmptyString => [EmptyString]
  | String c r =>
      if Ascii.eqb c sep then EmptyString :: split sep r
      else match split sep r with
           | h :: t => String c h :: t
           | [] => [String c EmptyString]
           end
  end.

(** [new Set(s)] for a string [s]: a string is iterated character by
    character, so the set holds the one-character strings of [s]. *)
Definition Set_of_string (s : string) : gset string :=
  list_to_set ((λ c, String c EmptyString) <$> list_ascii_of_string s).

(** [l.splice(i, 1)]: drop the element at index [i]. *)
Definition splice1 {A : Type} (i : nat) (l : list A) : list A :=
  (take i l ++ drop (S i) l)%list.

End Js.

(** How a run of a loop of the program ends: it returns, it throws (a
    TypeError on [undefined], or a NaN coordinate, which leaves the integer
    fragment modelled here), or the fuel of the model runs out. *)
Inductive Run (A : Type) : Type :=
| Done (a : A)
| Throws
| OutOfFuel.
Arguments Done {A} a.
Arguments Throws {A}.
Arguments OutOfFuel {A}.

(** ** Objects whose key order matters

    [Object.keys] and [Object.entries] list string keys in insertion order;
    assigning to a key that is present keeps its place. *)

Module Obj.
Section Obj.
Context {V : Type}.

(** [o[k]], [None] for [undefined] *)
Fixpoint get (k : string) (o : list (string * V)) : option V :=
  match o with
  | [] => None
  | (k', v) :: o' => if String.eqb k' k then Some v else get k o'
  end.

(** [o.hasOwnProperty(k)] *)
Definition has (k : string) (o : list (string * V)) : bool :=
  match get k o with Some _ => true | None => false end.

(** [o[k] = v] *)
Fixpoint set (k : string) (v : V) (o : list (string * V)) : list (string * V) :=
  match o with
  | [] => [(k, v)]
  | (k', v') :: o' =>
      if String.eqb k' k then (k', v) :: o' else (k', v') :: set k v o'
  end.

(** [delete o[k]] *)
Fixpoint del (k : string) (o : list (string * V)) : list (string * V) :=
  match o with
  | [] => []
  | (k', v') :: o' => if String.eqb k' k then o' else (k', v') :: del k o'
  end.

(** [Object.keys(o)] *)
Definition keys (o : list (string * V)) : list string := fst <$> o.

End Obj.
End Obj.

(** ** Cells and keys *)

(** A cell is the two-element array [[x, y]] of the source. *)
Definition Cell : Type := (Z * Z)%type.

(** The property key of a cell: an array used as a key, and the template
    [`${x},${y}`], both give [String(x) + "," + String(y)]. *)
Definition key_of (c : Cell) : string :=
  Js.String_of (fst c) +:+ "," +:+ Js.String_of (snd c).

(** [getNumericalCoordinates(cordsStr)]: split at the commas and parse the
    first two parts.  [None] when either part is NaN (a missing part is
    [undefined], which parses to NaN). *)
Definition getNumericalCoordinates (cordsStr : string) : option Cell :=
  let splitCurrent := Js.split "," cordsStr in
  match splitCurrent with
  | p0 :: p1 :: _ =>
      match Js.parseInt p0, Js.parseInt p1 with
      | Some x, Some y => Some (x, y)
      | _, _ => None
      end
  | _ => None
  end.

(** ** The grid *)

(** The wall object of a cell, [{ top, bottom, left, right }]; [true] is a
    closed wall. *)
Module W.
Record Walls : Type := mk { top : bool; bottom : bool; left : bool; right : bool }.
End W.
Abbreviation Walls := W.Walls.

(** The four property names of a wall object. *)
Inductive Side : Type := Top | Bottom | Left | Right.

Definition wall (s : Side) (w : Walls) : bool :=
  match s with
  | Top => W.top w
  | Bottom => W.bottom w
  | Left => W.left w
  | Right => W.right w
  end.

(** [w[s] = b] *)
Definition set_wall (s : Side) (b : bool) (w : Walls) : Walls :=
  match s with
  | Top => W.mk b (W.bottom w) (W.left w) (W.right w)
  | Bottom => W.mk (W.top w) b (W.left w) (W.right w)
  | Left => W.mk (W.top w) (W.bottom w) b (W.right w)
  | Right => W.mk (W.top w) (W.bottom w) (W.left w) b
  end.

Abbreviation Grid := (gmap string Walls).

Definition closedWalls : Walls := W.mk true true true true.

(** [populateGrid(_gridHeight, _gridWidth)] of the main script; the global
    [grid] it assigns is the result here.  The columns [i] run in the outer
    loop, the rows [j] in the inner one; a bound that is not positive gives
    no iteration. *)
Definition populateGrid (_gridHeight _gridWidth : Z) : Grid :=
  foldl (λ grid i,
           foldl (λ grid j, <[key_of (i, j) := closedWalls]> grid)
                 grid (seqZ 0 _gridHeight))
        ∅ (seqZ 0 _gridWidth).

(** ** createMaze.js *)

Definition directionDictionary (k : string) : option (Side * Side) :=
  if String.eqb k "0,-1" then Some (Top, Bottom)
  else if String.eqb k "0,1" then Some (Bottom, Top)
  else if String.eqb k "1,0" then Some (Right, Left)
  else if String.eqb k "-1,0" then Some (Left, Right)
  else None.

(** [removeWall(_grid, cellFrom, cellTo)]; [None] is the TypeError raised
    when the direction is not in the dictionary or a cell is not in the
    grid.  [None] does not keep the grid a throwing call leaves behind:
    when only [cellTo] is missing the code has opened the wall of
    [cellFrom] before it throws. *)
Definition removeWall (_grid : Grid) (cellFrom cellTo : Cell) : option Grid :=
  let directionResult : Cell :=
    (fst cellTo - fst cellFrom, snd cellTo - snd cellFrom) in
  match directionDictionary (key_of directionResult) with
  | None => None
  | Some (w0, w1) =>
      match _grid !! key_of cellFrom with
      | None => None
      | Some wf =>
          let g1 := <[key_of cellFrom := set_wall w0 false wf]> _grid in
          match g1 !! key_of cellTo with
          | None => None
          | Some wt => Some (<[key_of cellTo := set_wall w1 false wt]> g1)
          end
      end
  end.

(** One of the four tests of [getRandomNeighbour]: the cell is in the grid
    and its key is not in [visited]. *)
Definition unvisitedInGrid (_grid : Grid) (visited : gset string) (c : Cell) : bool :=
  match _grid !! key_of c with
  | Some _ => negb (bool_decide (key_of c ∈ visited))
  | None => false
  end.

Definition validNeighbours (current : Cell) (_grid : Grid) (visited : gset string)
  : list Cell :=
  let '(x, y) := current in
  let push (l : list Cell) (c : Cell) : list Cell :=
    if unvisitedInGrid _grid visited c then (l ++ [c])%list else l in
  let l := [] in
  let l := push l (x + 1, y) in
  let l := push l (x - 1, y) in
  let l := push l (x, y + 1) in
  let l := push l (x, y - 1) in
  l.

(** [getRandomNeighbour(current, _grid, visited)].  [rnd] stands for the
    value of [Math.random()] of this call: the index
    [Math.floor(Math.random() * length)] ranges over [0 .. length - 1], and
    is taken here as [rnd mod length].  [None] is [null]. *)
Definition getRandomNeighbour (rnd : nat) (current : Cell) (_grid : Grid)
    (visited : gset string) : option Cell :=
  let l := validNeighbours current _grid visited in
  match l with
  | [] => None
  | _ => l !! (rnd mod length l)%nat
  end.

(** The [while] loop of [generateMaze].  The head of [stack] is the last
    element of the array (the one [pop] takes).  [random n] is the value
    of the [n]-th call of [Math.random], [calls] counts the calls made. *)
Fixpoint generateMaze_loop (fuel : nat) (random : nat → nat) (calls : nat)
    (_grid : Grid) (stack : list Cell) (visited : gset string) : Run Grid :=
  match stack with
  | [] => Done _grid
  | current :: stack' =>
      match fuel with
      | O => OutOfFuel
      | S fuel' =>
          match getRandomNeighbour (random calls) current _grid visited with
          | Some chosenNeighbour =>
              match removeWall _grid current chosenNeighbour with
              | None => Throws
              | Some g' =>
                  generateMaze_loop fuel' random (S calls) g'
                    (chosenNeighbour :: current :: stack')
                    ({[key_of chosenNeighbour]} ∪ visited)
              end
          | None => generateMaze_loop fuel' random calls _grid stack' visited
          end
      end
  end.

(** [generateMaze(_grid)]; the grid after the call is the result.
    [visited] starts as [new Set("0,0")]. *)
Definition generateMaze (fuel : nat) (random : nat → nat) (_grid : Grid) : Run Grid :=
  let current : Cell := (0, 0) in
  generateMaze_loop fuel random 0 _grid [current]
    (Js.Set_of_string (key_of current)).

(** Fuel that is enough for [generateMaze] on a grid (see
    [generateMaze_terminates]). *)
Definition generateMaze_fuel (_grid : Grid) : nat := (2 * size _grid + 2)%nat.

(** ** solveMaze.js *)

(** A search node, [{ parent, moveCost, distCost, totalCost }]. *)
Record Node : Type := mkNode {
  parent : string;
  moveCost : Z;
  distCost : Z;
  totalCost : Z
}.

(** What [findPath] returns: the array [[closedNodes, finishCell]], or
    [undefined]. *)
Inductive Result : Type :=
| Found (closedNodes : gmap string Node) (finishCell : string)
| NotFound.

(** The callback of the [reduce] in [getLowestCostNodeKey]: the key held
    so far is given up only for an entry of strictly smaller [totalCost]. *)
Definition lowerOf (openNodes : list (string * Node)) (minEntry : string)
    (entry : string * Node) : string :=
  let '(key, value) := entry in
  match Obj.get minEntry openNodes with
  | Some m => if (totalCost value <? totalCost m)%Z then key else minEntry
  | None => minEntry
  end.

(** [getLowestCostNodeKey(openNodes)]: a [reduce] over the entries, started
    at the first key.  [None] is [undefined], the answer on an object
    without keys. *)
Definition getLowestCostNodeKey (openNodes : list (string * Node)) : option string :=
  match Obj.keys openNodes with
  | [] => None
  | k0 :: _ => Some (foldl (lowerOf openNodes) k0 openNodes)
  end.

(** The test of each of the four [if]s of [getViableNeighbours], for a
    candidate [nb] and the wall [s] of the candidate that is looked at:
    [!grid.hasOwnProperty(nb) || grid[nb][s] || closedNodes[nb]]. *)
Definition isBlocked (grid : Grid) (closedNodes : gmap string Node) (s : Side)
    (nb : Cell) : bool :=
  match grid !! key_of nb with
  | None => true
  | Some w =>
      wall s w
      || (match closedNodes !! key_of nb with Some _ => true | None => false end)
  end.

(** One of the four [if]s: when the candidate at index [i] fails the test
    it is spliced out. *)
Definition pruneAt (i : nat) (s : Side) (grid : Grid) (closedNodes : gmap string Node)
    (possibleNeighbours : list Cell) : list Cell :=
  match possibleNeighbours !! i with
  | Some nb =>
      if isBlocked grid closedNodes s nb
      then Js.splice1 i possibleNeighbours
      else possibleNeighbours
  | None => possibleNeighbours
  end.

(** [getViableNeighbours(grid, currentNode, closedNodes)].  [None] when
    [currentNode] does not parse to two numbers: the code would go on with
    NaN coordinates and keep no neighbour; [findPath] only passes keys
    that parse. *)
Definition getViableNeighbours (grid : Grid) (currentNode : string)
    (closedNodes : gmap string Node) : option (list Cell) :=
  match getNumericalCoordinates currentNode with
  | None => None
  | Some cords =>
      let possibleNeighbours : list Cell :=
        [ (fst cords, snd cords - 1);   (* Up *)
          (fst cords, snd cords + 1);   (* Down *)
          (fst cords - 1, snd cords);   (* Left *)
          (fst cords + 1, snd cords) ]  (* Right *) in
      let possibleNeighbours := pruneAt 3 Left grid closedNodes possibleNeighbours in
      let possibleNeighbours := pruneAt 2 Right grid closedNodes possibleNeighbours in
      let possibleNeighbours := pruneAt 1 Top grid closedNodes possibleNeighbours in
      let possibleNeighbours := pruneAt 0 Bottom grid closedNodes possibleNeighbours in
      Some possibleNeighbours
  end.

(** [getHeuristicMeasure(currentCell, targetCell)] *)
Definition getHeuristicMeasure (currentCell : Cell) (targetCell : string) : option Z :=
  match getNumericalCoordinates targetCell with
  | None => None
  | Some targetCords =>
      Some (Z.abs (fst targetCords - fst currentCell)
            + Z.abs (snd targetCords - snd currentCell))
  end.

(** The body of the [for] loop of [findPath] for one neighbour. *)
Definition visitNeighbour (current : string * Node) (finishCell : string)
    (openNodes : list (string * Node)) (nb : Cell) : option (list (string * Node)) :=
  match getHeuristicMeasure nb finishCell with
  | None => None
  | Some d =>
      let neighbourNode :=
        {| parent := fst current;
           moveCost := moveCost (snd current) + 1;
           distCost := d;
           totalCost := 0 |} in
      let neighbourNode :=
        {| parent := parent neighbourNode;
           moveCost := moveCost neighbourNode;
           distCost := distCost neighbourNode;
           totalCost := moveCost neighbourNode + distCost neighbourNode |} in
      if negb (Obj.has (key_of nb) openNodes) then
        Some (Obj.set (key_of nb) neighbourNode openNodes)
      else
        match Obj.get (key_of nb) openNodes with
        | Some old =>
            if (totalCost old >? totalCost neighbourNode)%Z
            then Some (Obj.set (key_of nb) neighbourNode openNodes)
            else Some openNodes
        | None => Some openNodes
        end
  end.

(** The whole [for] loop. *)
Fixpoint visitNeighbours (current : string * Node) (finishCell : string)
    (openNodes : list (string * Node)) (possibleNeighbours : list Cell)
  : option (list (string * Node)) :=
  match possibleNeighbours with
  | [] => Some openNodes
  | nb :: rest =>
      match visitNeighbour current finishCell openNodes nb with
      | None => None
      | Some openNodes' => visitNeighbours current finishCell openNodes' rest
      end
  end.

(** The objects [findPath] works on: the grid it is given and its two
    dictionaries. *)
Record Store : Type := mkStore {
  st_grid : Grid;
  st_open : list (string * Node);
  st_closed : gmap string Node
}.

(** One turn of the [while] loop of [findPath], for a non-empty frontier:
    either the search ends ([inr]), or it goes on with a new store
    ([inl]). *)
Definition findPath_step (finishCell : string) (σ : Store)
  : option (Store + (Store * Result)) :=
  match getLowestCostNodeKey (st_open σ) with
  | None => None
  | Some minKey =>
      match Obj.get minKey (st_open σ) with
      | None => None
      | Some node =>
          let current := (minKey, node) in
          if String.eqb (fst current) finishCell then
            let closedNodes := <[fst current := snd current]> (st_closed σ) in
            Some (inr (mkStore (st_grid σ) (st_open σ) closedNodes,
                       Found closedNodes finishCell))
          else
            match getViableNeighbours (st_grid σ) (fst current) (st_closed σ) with
            | None => None
            | Some possibleNeighbours =>
                match visitNeighbours current finishCell (st_open σ) possibleNeighbours with
                | None => None
                | Some openNodes =>
                    Some (inl (mkStore (st_grid σ)
                                 (Obj.del (fst current) openNodes)
                                 (<[fst current := snd current]> (st_closed σ))))
                end
            end
      end
  end.

Fixpoint findPath_loop (fuel : nat) (finishCell : string) (σ : Store)
  : Run (Store * Result) :=
  match st_open σ with
  | [] => Done (σ, NotFound)
  | _ :: _ =>
      match fuel with
      | O => OutOfFuel
      | S fuel' =>
          match findPath_step finishCell σ with
          | None => Throws
          | Some (inr r) => Done r
          | Some (inl σ') => findPath_loop fuel' finishCell σ'
          end
      end
  end.

Definition startNode : Node :=
  {| parent := "0,0"; moveCost := 0; distCost := 0; totalCost := 0 |}.

Definition finishCell_of (gridWidth gridHeight : Z) : string :=
  Js.String_of (gridWidth - 1) +:+ "," +:+ Js.String_of (gridHeight - 1).

Definition initialStore (grid : Grid) : Store :=
  mkStore grid [("0,0", startNode)] ∅.

(** [findPath(grid, gridWidth, gridHeight)], with the store at the end of
    the call next to the value returned. *)
Definition findPath_run (fuel : nat) (grid : Grid) (gridWidth gridHeight : Z)
  : Run (Store * Result) :=
  findPath_loop fuel (finishCell_of gridWidth gridHeight) (initialStore grid).

(** Fuel that is enough for [findPath] on a grid: every turn of the loop
    closes a cell that was not closed, and only the start and the cells of
    the grid are ever closed. *)
Definition findPath_fuel (grid : Grid) : nat := (size grid + 2)%nat.

Definition findPath (grid : Grid) (gridWidth gridHeight : Z) : Run Result :=
  match findPath_run (findPath_fuel grid) grid gridWidth gridHeight with
  | Done (_, r) => Done r
  | Throws => Throws
  | OutOfFuel => OutOfFuel
  end.

(** ** render.js: the walk along the parent links

    [drawFoundPath(ctx, closed, goal, cellWidth, bounds)] without the
    drawing: the keys of the cells it shades, from the goal back to "0,0".
    [Throws] is the TypeError on a key that is not in [closed]. *)
Fixpoint drawFoundPath (fuel : nat) (closed : gmap string Node) (current : string)
  : Run (list string) :=
  match fuel with
  | O => OutOfFuel
  | S fuel' =>
      if String.eqb current "0,0" then Done [current]
      else
        match closed !! current with
        | None => Throws
        | Some n =>
            match drawFoundPath fuel' closed (parent n) with
            | Done l => Done (current :: l)
            | Throws => Throws
            | OutOfFuel => OutOfFuel
            end
        end
  end.

(** ** Vocabulary of the properties *)

(** The neighbour of a cell on one side: up is [(0,-1)], down [(0,+1)],
    left [(-1,0)], right [(+1,0)]. *)
Definition toward (s : Side) (c : Cell) : Cell :=
  match s with
  | Top => (fst c, snd c - 1)
  | Bottom => (fst c, snd c + 1)
  | Left => (fst c - 1, snd c)
  | Right => (fst c + 1, snd c)
  end.

(** The wall of the neighbour that faces back. *)
Definition opposite (s : Side) : Side :=
  match s with
  | Top => Bottom
  | Bottom => Top
  | Left => Right
  | Right => Left
  end.

Definition manhattan (a b : Cell) : Z :=
  Z.abs (fst b - fst a) + Z.abs (snd b - snd a).

(** Two cells are 4-adjacent when their Manhattan distance is 1. *)
Definition adjacent (a b : Cell) : Prop := manhattan a b = 1.

Definition present (g : Grid) (c : Cell) : Prop := is_Some (g !! key_of c).

(** Wall symmetry: for two neighbouring cells of the grid, the wall of the
    first facing the second is closed exactly when the wall of the second
    facing the first is. *)
Definition wall_symmetric (g : Grid) : Prop :=
  ∀ (a : Cell) (s : Side) (wa wb : Walls),
    g !! key_of a = Some wa →
    g !! key_of (toward s a) = Some wb →
    wall s wa = wall (opposite s) wb.

(** [is_open(grid, from, direction)] as the spec words it, to compare with
    the test the source makes in [getViableNeighbours]: true when the wall
    of [from] on that side is open and the neighbouring cell on that side
    is in the grid. *)
Definition is_open (g : Grid) (from : Cell) (s : Side) : bool :=
  match g !! key_of from with
  | Some w =>
      negb (wall s w)
      && (match g !! key_of (toward s from) with Some _ => true | None => false end)
  | None => false
  end.

(** A step along an open passage, as the spec has it. *)
Definition open_step (g : Grid) (u v : Cell) : Prop :=
  ∃ s, v = toward s u ∧ is_open g u s = true.

(** A step as [getViableNeighbours] allows it (the closed set apart): the
    neighbour is in the grid and its wall facing back is open. *)
Definition passable (g : Grid) (u v : Cell) : Prop :=
  ∃ s w, v = toward s u ∧ g !! key_of v = Some w ∧ wall (opposite s) w = false.

(** A list of cells in which each one steps to the next. *)
Fixpoint walk (E : Cell → Cell → Prop) (p : list Cell) : Prop :=
  match p with
  | a :: q => match q with
              | b :: _ => E a b ∧ walk E q
              | [] => True
              end
  | [] => True
  end.

(** A route from [a] to [b]: a walk that starts at [a] and ends at [b]. *)
Definition route (E : Cell → Cell → Prop) (a b : Cell) (p : list Cell) : Prop :=
  head p = Some a ∧ last p = Some b ∧ walk E p.

Definition start : Cell := (0, 0).

Definition goal_of (gridWidth gridHeight : Z) : Cell :=
  (gridWidth - 1, gridHeight - 1).

(** The cells of a [gridWidth] by [gridHeight] rectangle. *)
Definition cells_of (gridWidth gridHeight : Z) : list Cell :=
  i ← seqZ 0 gridWidth; (λ j, (i, j)) <$> seqZ 0 gridHeight.

(** The passages of a grid over that rectangle, each counted once: from
    every cell, the open passages to the right and downwards. *)
Definition passages (g : Grid) (gridWidth gridHeight : Z) : list (Cell * Cell) :=
  c ← cells_of gridWidth gridHeight;
  s ← [Right; Bottom];
  if is_open g c s then [(c, toward s c)] else [].

(** The search node [findPath] builds for a neighbour [nb] of the node
    [cur] it expands (the object [neighbourNode] of the source, once its
    total is filled in), used to state what [visitNeighbour] stores. *)
Definition neighbourNode_of (cur : string * Node) (goal nb : Cell) : Node :=
  {| parent := fst cur;
     moveCost := moveCost (snd cur) + 1;
     distCost := manhattan nb goal;
     totalCost := moveCost (snd cur) + 1 + manhattan nb goal |}.

(** The stores [findPath] goes through: those reached from the first one
    by turns of its loop. *)
Inductive reachable (finishCell : string) (σ0 : Store) : Store → Prop :=
| reachable_init : reachable finishCell σ0 σ0
| reachable_step σ σ' :
    reachable finishCell σ0 σ →
    st_open σ ≠ [] →
    findPath_step finishCell σ = Some (inl σ') →
    reachable finishCell σ0 σ'.

(** The node stored under a key, in the frontier or in the closed set. *)
Definition node_at (σ : Store) (k : string) (n : Node) : Prop :=
  Obj.get k (st_open σ) = Some n ∨ st_closed σ !! k = Some n.

(** [create(width, height)] of the spec is the call
    [populateGrid(gridHeight, gridWidth)] of the main script; nothing in it
    throws. *)
Definition create (width height : Z) : Run Grid := Done (populateGrid height width).

(** Values of [Math.random] under which [generateMaze] closes a cycle on
    the 2 by 2 grid: the indices picked are 0, 1, 0, 0. *)
Definition cycle_random (n : nat) : nat := nth n [0; 1; 0; 0]%nat 0%nat.

(** [k] is the key of the first entry of least [totalCost] in [o]: no
    entry costs less, and the entries of the same cost come after it. *)
Definition first_minimum (o : list (string * Node)) (k : string) : Prop :=
  ∃ (i : nat) (n : Node),
    o !! i = Some (k, n)
    ∧ ∀ (j : nat) (k' : string) (n' : Node),
        o !! j = Some (k', n') →
        totalCost n ≤ totalCost n' ∧ (totalCost n' = totalCost n → (i ≤ j)%nat).

(** What the [reduce] of [getLowestCostNodeKey] knows after the entries of
    [pre]: the key it holds is the first of least cost among them. *)
Definition first_minimum_upto (o pre : list (string * Node)) (acc : string) : Prop :=
  ∃ (i : nat) (n : Node),
    o !! i = Some (acc, n)
    ∧ ((i < length pre)%nat ∨ i = 0%nat)
    ∧ ∀ (j : nat) (k' : string) (n' : Node),
        (j < length pre)%nat → o !! j = Some (k', n') →
        totalCost n ≤ totalCost n' ∧ (totalCost n' = totalCost n → (i ≤ j)%nat).

(** The 2 by 2 grid whose only passages are (0,0)-(1,0) and (1,0)-(1,1). *)
Definition example_grid : Grid :=
  list_to_map
    [ ("0,0", W.mk true true true false);
      ("1,0", W.mk true false false true);
      ("0,1", closedWalls);
      ("1,1", W.mk false true true true) ].

(** Two cells side by side whose shared wall is open on the right-hand
    cell only. *)
Definition lopsided_grid : Grid :=
  list_to_map [ ("0,0", closedWalls); ("1,0", W.mk true true false true) ].

(** *** The invariant of the loop of [findPath]

    For the goal cell [t], over the grid of the store. *)
Record solver_inv (t : Cell) (σ : Store) : Prop := {
  (* the frontier has no key twice *)
  inv_nodup : NoDup (Obj.keys (st_open σ));
  (* every key is the key of a cell *)
  inv_keys : ∀ k n, node_at σ k n → ∃ c, k = key_of c;
  (* a cell of the frontier is not closed *)
  inv_disjoint : ∀ k n, Obj.get k (st_open σ) = Some n → st_closed σ !! k = None;
  (* the start node is the only node at first, and is closed afterwards *)
  inv_start :
    (st_open σ = [("0,0", startNode)] ∧ st_closed σ = ∅)
    ∨ st_closed σ !! "0,0" = Some startNode;
  (* every other node was made from a closed parent it can be stepped to from *)
  inv_parent : ∀ c n, c ≠ start → node_at σ (key_of c) n →
    ∃ p np, parent n = key_of p ∧ st_closed σ !! key_of p = Some np
            ∧ passable (st_grid σ) p c
            ∧ moveCost n = moveCost np + 1
            ∧ distCost n = manhattan c t
            ∧ totalCost n = moveCost n + distCost n;
  inv_nonneg : ∀ k n, node_at σ k n → 0 ≤ moveCost n;
  (* the cost of a closed cell is at most the length of any route to it *)
  inv_optimal : ∀ c n p, st_closed σ !! key_of c = Some n →
    route (passable (st_grid σ)) start c p → moveCost n ≤ Z.of_nat (length p) - 1;
  (* what can be stepped to from a closed cell is closed or in the frontier *)
  inv_frontier : ∀ u nu v, st_closed σ !! key_of u = Some nu →
    passable (st_grid σ) u v →
    (∃ nv, st_closed σ !! key_of v = Some nv)
    ∨ (∃ nv, Obj.get (key_of v) (st_open σ) = Some nv
             ∧ moveCost nv ≤ moveCost nu + 1);
  (* the goal is not closed while the loop runs *)
  inv_goal : st_closed σ !! key_of t = None
}.

(** What holds of the closed set [findPath] returns on success. *)
Record closed_ok (g : Grid) (t : Cell) (closed : gmap string Node) : Prop := {
  ok_start : closed !! "0,0" = Some startNode;
  ok_goal : is_Some (closed !! key_of t);
  ok_keys : ∀ k n, closed !! k = Some n → ∃ c, k = key_of c;
  ok_parent : ∀ c n, c ≠ start → closed !! key_of c = Some n →
    ∃ p np, parent n = key_of p ∧ closed !! key_of p = Some np
            ∧ passable g p c
            ∧ moveCost n = moveCost np + 1
            ∧ distCost n = manhattan c t
            ∧ totalCost n = moveCost n + distCost n;
  ok_nonneg : ∀ k n, closed !! k = Some n → 0 ≤ moveCost n;
  ok_optimal : ∀ c n p, closed !! key_of c = Some n →
    route (passable g) start c p → moveCost n ≤ Z.of_nat (length p) - 1
}.

(** The number of cells that can still be closed. *)
Definition unclosed (σ : Store) : nat :=
  size (({[key_of start]} ∪ dom (st_grid σ)) ∖ dom (st_closed σ)).

(** How the frontier [o'] after the [for] loop over [nbs] relates to the
    frontier [o] before it, for the expanded node [cur] and the goal [t]. *)
Record visited_rel (cur : string * Node) (t : Cell) (nbs : list Cell)
    (o o' : list (string * Node)) : Prop := {
  vr_nodup : NoDup (Obj.keys o');
  vr_from : ∀ k n', Obj.get k o' = Some n' →
    Obj.get k o = Some n'
    ∨ ∃ nb, nb ∈ nbs ∧ k = key_of nb ∧ n' = neighbourNode_of cur t nb;
  vr_nbs : ∀ nb, nb ∈ nbs →
    ∃ n', Obj.get (key_of nb) o' = Some n'
          ∧ totalCost n' ≤ totalCost (neighbourNode_of cur t nb);
  vr_old : ∀ k n, Obj.get k o = Some n →
    ∃ n', Obj.get k o' = Some n' ∧ totalCost n' ≤ totalCost n;
  vr_keys : ∃ fresh, Obj.keys o' = Obj.keys o ++ fresh
                     ∧ ∀ k, k ∈ fresh → k ∉ Obj.keys o
}.

(** ** More of the main script and of render.js *)

(** [validateGridWidth()] for the column count [gridWidth]; the alert it
    raises on a refusal is left out. *)
Definition validateGridWidth (gridWidth : Z) : bool :=
  let minWidth := 10 in
  let maxWidth := 300 in
  if (gridWidth <? minWidth) || (gridWidth >? maxWidth) then false else true.

(** The part of [renderGrid] that runs when the solve box is checked:
    [solution = findPath(grid, gridWidth, gridHeight)] and then
    [drawFoundPath(ctx, solution[0], solution[1], ...)]; indexing
    [undefined] throws.  The result is the list of keys shaded; the walk is
    given as many turns as [closed] has nodes. *)
Definition renderGrid_solution (grid : Grid) (gridWidth gridHeight : Z)
  : Run (list string) :=
  match findPath grid gridWidth gridHeight with
  | Done (Found closed goal) => drawFoundPath (size closed) closed goal
  | Done NotFound => Throws
  | Throws => Throws
  | OutOfFuel => OutOfFuel
  end.

(** [main()], for the column count [gridWidth] and the row count
    [gridHeight] that [setGridBounds] computes from the canvas, with the
    state of the solve box and the grid held before the call.  Both counts
    are integers here: [gridHeight] is a [Math.floor], and [gridWidth] is
    what the input handler read with [parseFloat], taken to be whole.  The
    result is the grid held after the call and the keys shaded for the
    solution, if any.  The drawing of the walls is left out. *)
Definition main (random : nat → nat) (gridWidth gridHeight : Z)
    (solveChecked : bool) (grid0 : Grid) : Run (Grid * option (list string)) :=
  if negb (validateGridWidth gridWidth) then Done (grid0, None)
  else
    let grid := populateGrid gridHeight gridWidth in
    match generateMaze (generateMaze_fuel grid) random grid with
    | Done grid' =>
        if solveChecked then
          match renderGrid_solution grid' gridWidth gridHeight with
          | Done l => Done (grid', Some l)
          | Throws => Throws
          | OutOfFuel => OutOfFuel
          end
        else Done (grid', None)
    | Throws => Throws
    | OutOfFuel => OutOfFuel
    end.

(** ** More vocabulary *)

(** [g'] has the cells of [g], and every wall that is open in [g] is open
    in [g']. *)
Definition opened_from (g g' : Grid) : Prop :=
  dom g' = dom g
  ∧ ∀ k w w' s, g !! k = Some w → g' !! k = Some w' →
                wall s w = false → wall s w' = false.

(** A step to a neighbouring cell of the grid, whatever the walls. *)
Definition next_to (g : Grid) (u v : Cell) : Prop :=
  ∃ s, v = toward s u ∧ present g v.

(** A cell counts as seen by [generateMaze] when its key is in [visited],
    or when it is the start cell (which the set does not hold at first). *)
Definition seen (visited : gset string) (c : Cell) : Prop :=
  key_of c ∈ visited ∨ c = start.

(** The invariant of the loop of [generateMaze]. *)
Record dfs_inv (g : Grid) (stack : list Cell) (visited : gset string) : Prop := {
  (* the cells of the stack are cells of the grid that were seen *)
  dfs_stack : ∀ c, c ∈ stack → present g c ∧ seen visited c;
  (* a cell that was seen can be reached from the start *)
  dfs_route : ∀ c, seen visited c → ∃ p, route (open_step g) start c p;
  (* a seen cell that has left the stack has no neighbour left to visit *)
  dfs_done : ∀ c, seen visited c → present g c →
    c ∈ stack ∨ ∀ s, present g (toward s c) → key_of (toward s c) ∈ visited
}.

(** No open wall of [g] leads out of the grid: behind every wall flag that
    is [false] lies a cell of [g]. *)
Definition enclosed (g : Grid) : Prop :=
  ∀ c w s, g !! key_of c = Some w → wall s w = false → present g (toward s c).

(** The 2 by 2 grid with all four inner passages open: from (0,0) the two
    neighbours are equally far from the goal (1,1). *)
Definition open_grid : Grid :=
  list_to_map
    [ ("0,0", W.mk true false true false);
      ("1,0", W.mk true false false true);
      ("0,1", W.mk false true true false);
      ("1,1", W.mk false true false true) ].

(** The numbers of the code are doubles: they hold every integer up to
    2^53 in size and [String] prints those in decimal digits, which is what
    the integers of this model do at every size.  Within 2^50 (no grid the
    program can hold comes near) the coordinates, their neighbours and the
    sums and differences the program forms of them all stay in that range,
    so there the model computes what the code computes. *)
Definition exact (n : Z) : Prop := - 2 ^ 50 ≤ n ≤ 2 ^ 50.

Definition exact_cell (c : Cell) : Prop := exact (fst c) ∧ exact (snd c).

(** * Properties *)

(** ** Keys: printing and parsing of coordinates *)

Lemma digits_prefix_uint (d : uint) :
  Js.digits_prefix (NilEmpty.string_of_uint d) = NilEmpty.string_of_uint d.
Proof.
  induction d; simpl; try reflexivity;
    (change (Js.is_digit _) with true; cbv iota; now f_equal).
Qed.

Lemma split_uint (d : uint) :
  Js.split "," (NilEmpty.string_of_uint d) = [NilEmpty.string_of_uint d].
Proof.
  induction d; simpl; try reflexivity;
    (change (Ascii.eqb _ _) with false; cbv iota; now rewrite IHd).
Qed.

Lemma string_of_uint_nonnil (d : uint) :
  d ≠ Nil → NilZero.string_of_uint d = NilEmpty.string_of_uint d.
Proof. destruct d; [congruence|reflexivity..]. Qed.

Lemma split_String_of (n : Z) : Js.split "," (Js.String_of n) = [Js.String_of n].
Proof.
  unfold Js.String_of.
  destruct n as [|p|p]; [reflexivity| |]; simpl;
    rewrite (string_of_uint_nonnil _ (Unsigned.to_uint_nonnil p)).
  - apply split_uint.
  - change (Ascii.eqb "-" ",") with false. cbv iota. now rewrite split_uint.
Qed.

Lemma split_app_comma (s t : string) :
  Js.split "," s = [s] → Js.split "," (s +:+ String "," t) = s :: Js.split "," t.
Proof.
  induction s as [|c r IH]; simpl; [reflexivity|].
  destruct (Ascii.eqb c ","); [intros [=]|].
  destruct (Js.split "," r) as [|h l] eqn:E.
  - intros [= <-]. simpl in E. discriminate.
  - intros [= -> ->]. now rewrite IH.
Qed.

Lemma split_key_of (c : Cell) :
  Js.split "," (key_of c) = [Js.String_of (fst c); Js.String_of (snd c)].
Proof.
  unfold key_of. change ("," +:+ ?t) with (String "," t).
  rewrite split_app_comma by apply split_String_of.
  now rewrite split_String_of.
Qed.

Lemma parseInt_uint (d : uint) :
  d ≠ Nil →
  Js.parseInt (NilEmpty.string_of_uint d) = Some (Z.of_uint d).
Proof.
  intros Hd. unfold Js.parseInt.
  assert (Hs : Js.skip_spaces (NilEmpty.string_of_uint d) = NilEmpty.string_of_uint d)
    by (destruct d; reflexivity).
  rewrite Hs.
  assert (Hb : (match NilEmpty.string_of_uint d with
                | String c r =>
                    if Ascii.eqb c "-" then (true, r)
                    else if Ascii.eqb c "+" then (false, r)
                         else (false, NilEmpty.string_of_uint d)
                | EmptyString => (false, NilEmpty.string_of_uint d)
                end) = (false, NilEmpty.string_of_uint d))
    by (destruct d; reflexivity).
  rewrite Hb, digits_prefix_uint.
  replace (NilEmpty.string_of_uint d) with (NilZero.string_of_uint d)
    by (destruct d; [congruence|reflexivity..]).
  now rewrite NilZero.usu.
Qed.

Lemma parseInt_String_of (n : Z) : Js.parseInt (Js.String_of n) = Some n.
Proof.
  unfold Js.String_of.
  destruct n as [|p|p]; [reflexivity| |]; simpl.
  - pose proof (Unsigned.to_uint_nonnil p) as Hn.
    replace (NilZero.string_of_uint (Pos.to_uint p))
      with (NilEmpty.string_of_uint (Pos.to_uint p))
      by (destruct (Pos.to_uint p); [congruence|reflexivity..]).
    rewrite parseInt_uint by assumption.
    unfold Z.of_uint. now rewrite Unsigned.of_to.
  - pose proof (Unsigned.to_uint_nonnil p) as Hn.
    unfold Js.parseInt. cbn [Js.skip_spaces].
    change (Js.is_space "-") with false. cbv iota.
    change (Ascii.eqb "-" "-") with true. cbv iota.
    replace (NilZero.string_of_uint (Pos.to_uint p))
      with (NilEmpty.string_of_uint (Pos.to_uint p))
      by (destruct (Pos.to_uint p); [congruence|reflexivity..]).
    rewrite digits_prefix_uint.
    replace (NilEmpty.string_of_uint (Pos.to_uint p))
      with (NilZero.string_of_uint (Pos.to_uint p))
      by (destruct (Pos.to_uint p); [congruence|reflexivity..]).
    rewrite NilZero.usu by assumption.
    unfold Z.of_uint. now rewrite Unsigned.of_to.
Qed.

(** Parsing a key gives back the cell it was built from. *)
Lemma getNumericalCoordinates_key_of (c : Cell) :
  getNumericalCoordinates (key_of c) = Some c.
Proof.
  unfold getNumericalCoordinates. rewrite split_key_of.
  rewrite !parseInt_String_of. now destruct c.
Qed.

Lemma key_of_inj (a b : Cell) : key_of a = key_of b → a = b.
Proof.
  intros H. apply (f_equal getNumericalCoordinates) in H.
  rewrite !getNumericalCoordinates_key_of in H. congruence.
Qed.

Lemma key_of_start : key_of start = "0,0".
Proof. reflexivity. Qed.

Lemma key_of_goal (w h : Z) : finishCell_of w h = key_of (goal_of w h).
Proof. reflexivity. Qed.

Lemma key_of_eq_start (c : Cell) : key_of c = "0,0" ↔ c = start.
Proof.
  split; [|now intros ->].
  rewrite <- key_of_start. apply key_of_inj.
Qed.

(** ** Sides and neighbours *)

Lemma opposite_opposite (s : Side) : opposite (opposite s) = s.
Proof. now destruct s. Qed.

Lemma toward_opposite (s : Side) (c : Cell) : toward (opposite s) (toward s c) = c.
Proof. destruct c, s; simpl; f_equal; lia. Qed.

Lemma toward_neq (s : Side) (c : Cell) : toward s c ≠ c.
Proof. destruct c, s; simpl; intros [=]; lia. Qed.

Lemma toward_inj_side (s t : Side) (c : Cell) : toward s c = toward t c → s = t.
Proof. destruct c, s, t; simpl; intros [=]; try reflexivity; lia. Qed.

Lemma toward_inj_cell (s : Side) (a b : Cell) : toward s a = toward s b → a = b.
Proof. destruct a, b, s; simpl; intros [=]; f_equal; lia. Qed.

Lemma adjacent_toward (a b : Cell) : adjacent a b ↔ ∃ s, b = toward s a.
Proof.
  unfold adjacent, manhattan. destruct a as [ax ay], b as [bx bay]. simpl. split.
  - intros H.
    assert (Hc : (bx = ax ∧ bay = ay - 1) ∨ (bx = ax ∧ bay = ay + 1)
                 ∨ (bx = ax - 1 ∧ bay = ay) ∨ (bx = ax + 1 ∧ bay = ay)) by lia.
    destruct Hc as [[-> ->]|[[-> ->]|[[-> ->]|[-> ->]]]];
      [exists Top|exists Bottom|exists Left|exists Right]; reflexivity.
  - intros [s Hs]. destruct s; simpl in Hs; injection Hs as -> ->; lia.
Qed.

Lemma manhattan_toward (s : Side) (c t : Cell) :
  manhattan c t ≤ manhattan (toward s c) t + 1.
Proof. unfold manhattan. destruct c, t, s; simpl; lia. Qed.

Lemma wall_set_wall_eq (s : Side) (b : bool) (w : Walls) : wall s (set_wall s b w) = b.
Proof. now destruct s. Qed.

Lemma wall_set_wall_ne (s t : Side) (b : bool) (w : Walls) :
  s ≠ t → wall t (set_wall s b w) = wall t w.
Proof. destruct s, t; simpl; congruence. Qed.

(** ** The first grid *)

Lemma lookup_foldl_insert {A : Type} (f : A → string) (v : Walls) (l : list A)
    (g0 : Grid) (k : string) :
  foldl (λ g a, <[f a := v]> g) g0 l !! k
  = if decide (k ∈ f <$> l) then Some v else g0 !! k.
Proof.
  revert g0. induction l as [|a l IH]; intros g0.
  - simpl. destruct (decide (k ∈ f <$> [])) as [H|H]; [|reflexivity].
    rewrite fmap_nil in H. now apply elem_of_nil in H.
  - rewrite fmap_cons. simpl foldl. rewrite IH, lookup_insert.
    destruct (decide (k ∈ f <$> l)) as [H1|H1];
      destruct (decide (k ∈ f a :: (f <$> l))) as [H2|H2];
      destruct (decide (f a = k)) as [H3|H3]; try reflexivity; set_solver.
Qed.

Lemma foldl_bind_cells (f : Grid → Cell → Grid) (g0 : Grid) (xs ys : list Z) :
  foldl (λ g i, foldl (λ g j, f g (i, j)) g ys) g0 xs
  = foldl f g0 (i ← xs; (λ j, (i, j)) <$> ys).
Proof.
  revert g0. induction xs as [|i xs IH]; intros g0; simpl; [reflexivity|].
  now rewrite foldl_app, <- IH, foldl_fmap.
Qed.

Lemma populateGrid_cells (h w : Z) :
  populateGrid h w = foldl (λ g c, <[key_of c := closedWalls]> g) ∅ (cells_of w h).
Proof.
  unfold populateGrid, cells_of.
  apply (foldl_bind_cells (λ g c, <[key_of c := closedWalls]> g)).
Qed.

Lemma elem_of_cells_of (w h : Z) (c : Cell) :
  c ∈ cells_of w h ↔ (0 ≤ fst c < w ∧ 0 ≤ snd c < h).
Proof.
  unfold cells_of. rewrite list_elem_of_bind. split.
  - intros (i & Hc & Hi). apply list_elem_of_fmap in Hc as (j & -> & Hj).
    apply elem_of_seqZ in Hi, Hj. simpl. lia.
  - intros [Hx Hy]. exists (fst c). split.
    + apply list_elem_of_fmap. exists (snd c). split; [now destruct c|].
      apply elem_of_seqZ. lia.
    + apply elem_of_seqZ. lia.
Qed.

Lemma lookup_populateGrid (h w : Z) (k : string) :
  populateGrid h w !! k
  = if decide (k ∈ key_of <$> cells_of w h) then Some closedWalls else None.
Proof.
  rewrite populateGrid_cells, lookup_foldl_insert. now rewrite lookup_empty.
Qed.

Lemma lookup_populateGrid_cell (h w : Z) (c : Cell) :
  populateGrid h w !! key_of c
  = if decide (0 ≤ fst c < w ∧ 0 ≤ snd c < h) then Some closedWalls else None.
Proof.
  rewrite lookup_populateGrid.
  destruct (decide (0 ≤ fst c < w ∧ 0 ≤ snd c < h)) as [Hin|Hout].
  - rewrite decide_True; [reflexivity|].
    apply list_elem_of_fmap. exists c. split; [reflexivity|].
    now apply elem_of_cells_of.
  - rewrite decide_False; [reflexivity|].
    intros (c' & Hk & Hc)%list_elem_of_fmap.
    apply key_of_inj in Hk as ->. now apply elem_of_cells_of in Hc.
Qed.

Lemma populateGrid_values (h w : Z) (k : string) (v : Walls) :
  populateGrid h w !! k = Some v →
  v = closedWalls ∧ ∃ c, k = key_of c ∧ 0 ≤ fst c < w ∧ 0 ≤ snd c < h.
Proof.
  rewrite lookup_populateGrid. case_decide as Hk; [|discriminate].
  intros [= <-]. split; [reflexivity|].
  apply list_elem_of_fmap in Hk as (c & -> & Hc).
  exists c. split; [reflexivity|]. now apply elem_of_cells_of.
Qed.

Lemma populateGrid_empty (h w : Z) : w ≤ 0 ∨ h ≤ 0 → populateGrid h w = ∅.
Proof.
  intros Hwh. apply map_eq. intros k. rewrite lookup_empty.
  destruct (populateGrid h w !! k) as [v|] eqn:E; [|reflexivity].
  apply populateGrid_values in E as (_ & c & _ & Hc). lia.
Qed.

Lemma populateGrid_symmetric (h w : Z) : wall_symmetric (populateGrid h w).
Proof.
  intros a s wa wb Ha Hb.
  apply populateGrid_values in Ha as [-> _], Hb as [-> _]. now destruct s.
Qed.

(** ** removeWall *)

Lemma directionDictionary_toward (s : Side) (a : Cell) :
  directionDictionary
    (key_of (fst (toward s a) - fst a, snd (toward s a) - snd a))
  = Some (s, opposite s).
Proof.
  destruct a as [x y], s; simpl fst; simpl snd.
  - replace (x - x, y - 1 - y) with (0, -1) by (f_equal; lia). reflexivity.
  - replace (x - x, y + 1 - y) with (0, 1) by (f_equal; lia). reflexivity.
  - replace (x - 1 - x, y - y) with (-1, 0) by (f_equal; lia). reflexivity.
  - replace (x + 1 - x, y - y) with (1, 0) by (f_equal; lia). reflexivity.
Qed.

Lemma key_of_toward_neq (s : Side) (a : Cell) : key_of a ≠ key_of (toward s a).
Proof. intros H%key_of_inj. symmetry in H. now apply toward_neq in H. Qed.

Lemma toward_back (s t : Side) (a : Cell) :
  toward t (toward s a) = a → t = opposite s.
Proof.
  intros H. apply (toward_inj_side _ _ (toward s a)).
  now rewrite toward_opposite.
Qed.

(** The grid after the two assignments of [removeWall]. *)
Lemma lookup_removed (g : Grid) (a : Cell) (s : Side) (wa wb : Walls) (c : Cell) :
  <[key_of (toward s a) := set_wall (opposite s) false wb]>
    (<[key_of a := set_wall s false wa]> g) !! key_of c
  = if decide (c = toward s a) then Some (set_wall (opposite s) false wb)
    else if decide (c = a) then Some (set_wall s false wa)
    else g !! key_of c.
Proof.
  rewrite !lookup_insert.
  destruct (decide (c = toward s a)) as [->|N1].
  - now rewrite decide_True.
  - rewrite decide_False by (intros H%key_of_inj; congruence).
    destruct (decide (c = a)) as [->|N2].
    + now rewrite decide_True.
    + rewrite decide_False by (intros H%key_of_inj; congruence). reflexivity.
Qed.

Lemma removeWall_toward (g : Grid) (a : Cell) (s : Side) (wa wb : Walls) :
  g !! key_of a = Some wa →
  g !! key_of (toward s a) = Some wb →
  removeWall g a (toward s a)
  = Some (<[key_of (toward s a) := set_wall (opposite s) false wb]>
            (<[key_of a := set_wall s false wa]> g)).
Proof.
  intros Ha Hb. unfold removeWall.
  rewrite directionDictionary_toward, Ha.
  rewrite lookup_insert_ne by apply key_of_toward_neq.
  now rewrite Hb.
Qed.

Lemma removed_symmetric (g : Grid) (a : Cell) (s : Side) (wa wb : Walls) :
  wall_symmetric g →
  g !! key_of a = Some wa →
  g !! key_of (toward s a) = Some wb →
  wall_symmetric (<[key_of (toward s a) := set_wall (opposite s) false wb]>
                    (<[key_of a := set_wall s false wa]> g)).
Proof.
  intros Hsym Ha Hb c t wc wd. rewrite !lookup_removed.
  destruct (decide (c = toward s a)) as [->|Nc1].
  - (* c is the far cell *)
    intros [= <-].
    destruct (decide (toward t (toward s a) = toward s a)) as [E|_];
      [now apply toward_neq in E|].
    destruct (decide (toward t (toward s a) = a)) as [E|N].
    + intros [= <-]. apply toward_back in E as ->.
      now rewrite opposite_opposite, !wall_set_wall_eq.
    + intros Hd. rewrite wall_set_wall_ne.
      * now apply (Hsym (toward s a)).
      * intros <-. now rewrite toward_opposite in N.
  - destruct (decide (c = a)) as [->|Nc2].
    + (* c is the near cell *)
      intros [= <-].
      destruct (decide (toward t a = toward s a)) as [E|N].
      * intros [= <-]. apply toward_inj_side in E as ->.
        now rewrite !wall_set_wall_eq.
      * destruct (decide (toward t a = a)) as [E|_]; [now apply toward_neq in E|].
        intros Hd. rewrite wall_set_wall_ne by congruence.
        now apply (Hsym a).
    + intros Hc.
      destruct (decide (toward t c = toward s a)) as [E|N].
      * intros [= <-]. rewrite wall_set_wall_ne.
        -- apply (Hsym c); [assumption|]. now rewrite E.
        -- intros Hop. assert (s = t) as -> by (destruct s, t; simpl in Hop; congruence).
           now apply toward_inj_cell in E.
      * destruct (decide (toward t c = a)) as [E|N'].
        -- intros [= <-]. rewrite wall_set_wall_ne.
           ++ apply (Hsym c); [assumption|]. now rewrite E.
           ++ intros ->. apply Nc1. now rewrite <- E, toward_opposite.
        -- intros Hd. now apply (Hsym c).
Qed.

Lemma removed_dom (g : Grid) (a b : string) (wa wb : Walls) :
  is_Some (g !! a) → is_Some (g !! b) →
  dom (<[b := wb]> (<[a := wa]> g)) = dom g.
Proof.
  intros Ha%elem_of_dom Hb%elem_of_dom. rewrite !dom_insert_L. set_solver.
Qed.

(** ** generateMaze *)

Lemma validNeighbours_spec (cur : Cell) (g : Grid) (visited : gset string) (nb : Cell) :
  nb ∈ validNeighbours cur g visited →
  (∃ s, nb = toward s cur) ∧ is_Some (g !! key_of nb) ∧ key_of nb ∉ visited.
Proof.
  assert (Hu : ∀ c, unvisitedInGrid g visited c = true →
                    is_Some (g !! key_of c) ∧ key_of c ∉ visited).
  { intros c. unfold unvisitedInGrid. destruct (g !! key_of c); [|discriminate].
    intros H%negb_true_iff%bool_decide_eq_false. split; [eauto|assumption]. }
  unfold validNeighbours. destruct cur as [x y].
  destruct (unvisitedInGrid g visited (x + 1, y)) eqn:E1;
  destruct (unvisitedInGrid g visited (x - 1, y)) eqn:E2;
  destruct (unvisitedInGrid g visited (x, y + 1)) eqn:E3;
  destruct (unvisitedInGrid g visited (x, y - 1)) eqn:E4;
  simpl; intros Hin;
  repeat (apply elem_of_cons in Hin as [->|Hin]);
  try (now apply elem_of_nil in Hin);
  (split; [first [now exists Right | now exists Left | now exists Bottom | now exists Top]
          | now apply Hu]).
Qed.

Lemma getRandomNeighbour_spec (rnd : nat) (cur : Cell) (g : Grid)
    (visited : gset string) (nb : Cell) :
  getRandomNeighbour rnd cur g visited = Some nb →
  (∃ s, nb = toward s cur) ∧ is_Some (g !! key_of nb) ∧ key_of nb ∉ visited.
Proof.
  unfold getRandomNeighbour. intros H. apply (validNeighbours_spec cur).
  destruct (validNeighbours cur g visited) eqn:E; [discriminate|].
  eapply list_elem_of_lookup_2. exact H.
Qed.

Lemma size_difference_step (X V : gset string) (k : string) :
  k ∈ X → k ∉ V → (size (X ∖ ({[k]} ∪ V)) + 1 = size (X ∖ V))%nat.
Proof.
  intros HX HV.
  replace (X ∖ V) with ({[k]} ∪ (X ∖ ({[k]} ∪ V))).
  - assert (H : ({[k]} : gset string) ## X ∖ ({[k]} ∪ V)) by set_solver.
    rewrite (size_union _ _ H), size_singleton. lia.
  - apply set_eq. intros x. destruct (decide (x = k)); set_solver.
Qed.

Lemma generateMaze_loop_spec (fuel : nat) (random : nat → nat) (calls : nat)
    (g : Grid) (stack : list Cell) (visited : gset string) :
  wall_symmetric g →
  (∀ c, c ∈ stack → present g c) →
  (2 * size (dom g ∖ visited) + length stack ≤ fuel)%nat →
  ∃ g', generateMaze_loop fuel random calls g stack visited = Done g'
        ∧ wall_symmetric g' ∧ dom g' = dom g.
Proof.
  revert calls g stack visited.
  induction fuel as [|fuel IH]; intros calls g stack visited Hsym Hst Hfuel.
  - destruct stack; [|simpl in Hfuel; lia]. exists g. now simpl.
  - destruct stack as [|cur stack']; [exists g; now simpl|].
    simpl generateMaze_loop. simpl length in Hfuel.
    destruct (getRandomNeighbour (random calls) cur g visited) as [nb|] eqn:Hnb.
    + apply getRandomNeighbour_spec in Hnb as ([s ->] & [wb Hb] & Hv).
      destruct (Hst cur) as [wa Ha]; [set_solver|].
      rewrite (removeWall_toward g cur s wa wb Ha Hb).
      set (g' := <[key_of (toward s cur) := _]> _).
      assert (Hdom : dom g' = dom g) by (apply removed_dom; eauto).
      destruct (IH (S calls) g' (toward s cur :: cur :: stack')
                  ({[key_of (toward s cur)]} ∪ visited)) as (g'' & Hrun & Hs'' & Hd'').
      * now apply removed_symmetric.
      * intros c Hc. unfold present. apply elem_of_dom. rewrite Hdom.
        apply elem_of_dom.
        apply elem_of_cons in Hc as [->|Hc]; [eauto|]. now apply Hst.
      * rewrite Hdom. simpl length.
        pose proof (size_difference_step (dom g) visited (key_of (toward s cur))) as Hsz.
        assert (key_of (toward s cur) ∈ dom g) by (apply elem_of_dom; eauto).
        specialize (Hsz ltac:(assumption) Hv). lia.
      * exists g''. split; [exact Hrun|]. split; [exact Hs''|]. now rewrite Hd''.
    + apply IH; [assumption| |lia].
      intros c Hc. apply Hst. set_solver.
Qed.

Lemma generateMaze_terminates (random : nat → nat) (g : Grid) :
  wall_symmetric g → present g start →
  ∃ g', generateMaze (generateMaze_fuel g) random g = Done g'
        ∧ wall_symmetric g' ∧ dom g' = dom g.
Proof.
  intros Hsym Hst. unfold generateMaze. apply generateMaze_loop_spec.
  - assumption.
  - intros c ->%list_elem_of_singleton. exact Hst.
  - unfold generateMaze_fuel. simpl length.
    assert (size (dom g ∖ Js.Set_of_string (key_of start)) ≤ size g)%nat.
    { rewrite <- size_dom. apply subseteq_size. set_solver. }
    change (0, 0) with start. lia.
Qed.

Lemma generateMaze_populateGrid (random : nat → nat) (w h : Z) :
  ∃ g', generateMaze (generateMaze_fuel (populateGrid h w)) random (populateGrid h w)
        = Done g' ∧ wall_symmetric g' ∧ dom g' = dom (populateGrid h w).
Proof.
  destruct (decide (0 < w ∧ 0 < h)) as [Hpos|Hneg].
  - apply generateMaze_terminates; [apply populateGrid_symmetric|].
    unfold present, start. rewrite lookup_populateGrid_cell. simpl.
    rewrite decide_True by lia. eauto.
  - rewrite populateGrid_empty by lia. exists ∅. split; [reflexivity|].
    split; [|reflexivity]. intros a s wa wb Ha. now rewrite lookup_empty in Ha.
Qed.

(** C3. Wall symmetry is kept by [removeWall] on two 4-adjacent cells of a
    symmetric grid (the call returns, and the grid it leaves is symmetric),
    and it holds for the grid [generateMaze] leaves when it is run, with
    any random choices, on a grid made by [populateGrid]: the run returns
    within [generateMaze_fuel] turns of its loop. *)
Theorem wall_symmetry_preserved :
  (∀ (g : Grid) (a b : Cell),
      wall_symmetric g → adjacent a b → present g a → present g b →
      ∃ g', removeWall g a b = Some g' ∧ wall_symmetric g')
  ∧ (∀ (random : nat → nat) (w h : Z),
        ∃ g', generateMaze (generateMaze_fuel (populateGrid h w)) random
                (populateGrid h w) = Done g'
              ∧ wall_symmetric g').
Proof.
  split.
  - intros g a b Hsym [s ->]%adjacent_toward [wa Ha] [wb Hb].
    rewrite (removeWall_toward g a s wa wb Ha Hb).
    eexists. split; [reflexivity|]. now apply removed_symmetric.
  - intros random w h.
    destruct (generateMaze_populateGrid random w h) as (g' & Hrun & Hs & _).
    eauto.
Qed.

Lemma wall_symmetry_preserved_witness :
  ∃ g', removeWall (populateGrid 2 2) (0, 0) (1, 0) = Some g' ∧ wall_symmetric g'.
Proof.
  apply (proj1 wall_symmetry_preserved).
  - apply populateGrid_symmetric.
  - reflexivity.
  - unfold present. rewrite lookup_populateGrid_cell. simpl. eauto.
  - unfold present. rewrite lookup_populateGrid_cell. simpl. eauto.
Defined.

(** ** The grid as it is made, and the defect of generateMaze *)

(** C1 (the code departs from it). [generateMaze] starts [visited] as
    [new Set("0,0")], the set of the characters "0" and ",", so the start
    cell is not marked: on the 2 by 2 grid, with the random picks
    [cycle_random], the walk (0,0), (1,0), (1,1), (0,1) comes back to
    (0,0) and opens a fourth passage.  The grid it leaves has 4 cells and
    4 passages, and two different routes from (0,0) to (1,1). *)
Theorem generateMaze_2x2_cycle :
  ¬ (key_of start ∈ Js.Set_of_string (key_of start))
  ∧ (∃ g', generateMaze (generateMaze_fuel (populateGrid 2 2)) cycle_random
             (populateGrid 2 2) = Done g'
           ∧ size g' = 4%nat
           ∧ length (passages g' 2 2) = 4%nat
           ∧ Z.of_nat (length (passages g' 2 2)) ≠ Z.of_nat (size g') - 1
           ∧ route (open_step g') start (1, 1) [(0, 0); (1, 0); (1, 1)]
           ∧ route (open_step g') start (1, 1) [(0, 0); (0, 1); (1, 1)]).
Proof.
  split; [vm_compute; intros H; discriminate H || (now apply elem_of_dom in H)|].
  eexists. split; [vm_compute; reflexivity|].
  split; [vm_compute; reflexivity|].
  split; [vm_compute; reflexivity|].
  split; [vm_compute; discriminate|].
  split.
  - repeat split; [exists Right|exists Bottom]; split; vm_compute; reflexivity.
  - repeat split; [exists Bottom|exists Right]; split; vm_compute; reflexivity.
Qed.

(** C4 (as the code has it). [create(width, height)] never fails: when
    [width] or [height] is not positive it returns the empty grid, with no
    cell in it; for positive [width] and [height] it returns a grid in
    which every [(x, y)] with [0 <= x < width] and [0 <= y < height] is
    present with all four walls closed, and which has no other key. *)
Theorem create_grid (width height : Z) :
  ∃ g, create width height = Done g
       ∧ (width ≤ 0 ∨ height ≤ 0 → g = ∅)
       ∧ (0 < width → 0 < height →
          ∀ x y, 0 ≤ x < width → 0 ≤ y < height →
                 g !! key_of (x, y) = Some closedWalls)
       ∧ (∀ k v, g !! k = Some v →
                 v = closedWalls
                 ∧ (∃ x y, k = key_of (x, y) ∧ 0 ≤ x < width ∧ 0 ≤ y < height)).
Proof.
  exists (populateGrid height width). split; [reflexivity|].
  split; [apply populateGrid_empty|]. split.
  - intros _ _ x y Hx Hy. rewrite lookup_populateGrid_cell. simpl.
    now rewrite decide_True.
  - intros k v Hk. apply populateGrid_values in Hk as (-> & [x y] & -> & Hc).
    split; [reflexivity|]. now exists x, y.
Qed.

Lemma create_grid_witness :
  ∃ g, create 3 2 = Done g ∧ g !! key_of (2, 1) = Some closedWalls.
Proof.
  destruct (create_grid 3 2) as (g & Hg & _ & Hin & _).
  exists g. split; [exact Hg|]. apply Hin; lia.
Defined.

(** With a width of 0 the call does not fail: it returns the empty grid. *)
Lemma create_zero_width_returns :
  (0 ≤ 0 ∨ 3 ≤ 0) ∧ create 0 3 = Done ∅ ∧ create 0 3 ≠ Throws.
Proof.
  assert (E : create 0 3 = Done ∅)
    by (unfold create; f_equal; apply populateGrid_empty; lia).
  split; [lia|]. split; [exact E|]. rewrite E. discriminate.
Qed.

(** ** Objects with ordered keys *)

Section ObjFacts.
Context {V : Type}.
Implicit Types (o : list (string * V)) (k : string) (v : V).

Lemma Obj_get_set_eq o k v : Obj.get k (Obj.set k v o) = Some v.
Proof.
  induction o as [|[k' v'] o IH]; simpl.
  - now rewrite String.eqb_refl.
  - destruct (String.eqb k' k) eqn:E; simpl; rewrite E; [reflexivity|exact IH].
Qed.

Lemma Obj_get_set_ne o k k' v : k ≠ k' → Obj.get k' (Obj.set k v o) = Obj.get k' o.
Proof.
  intros Hne. induction o as [|[k0 v0] o IH]; simpl.
  - now apply String.eqb_neq in Hne as ->.
  - destruct (String.eqb k0 k) eqn:E; simpl.
    + apply String.eqb_eq in E as ->. now apply String.eqb_neq in Hne as ->.
    + now rewrite IH.
Qed.

Lemma Obj_get_del_ne o k k' : k ≠ k' → Obj.get k' (Obj.del k o) = Obj.get k' o.
Proof.
  intros Hne. induction o as [|[k0 v0] o IH]; simpl; [reflexivity|].
  destruct (String.eqb k0 k) eqn:E; simpl.
  - apply String.eqb_eq in E as ->. now apply String.eqb_neq in Hne as ->.
  - now rewrite IH.
Qed.

Lemma Obj_get_None o k : Obj.get k o = None ↔ k ∉ Obj.keys o.
Proof.
  unfold Obj.keys. induction o as [|[k0 v0] o IH]; simpl.
  - split; [intros _; apply not_elem_of_nil|reflexivity].
  - rewrite ?fmap_cons, not_elem_of_cons. simpl.
    destruct (String.eqb k0 k) eqn:E.
    + apply String.eqb_eq in E as ->. split; [discriminate|intros [? _]; congruence].
    + apply String.eqb_neq in E. rewrite IH. split; [intros ?; split; [congruence|assumption]|intros [_ ?]; assumption].
Qed.

Lemma Obj_get_Some_elem o k v : Obj.get k o = Some v → (k, v) ∈ o.
Proof.
  induction o as [|[k0 v0] o IH]; simpl; [discriminate|].
  destruct (String.eqb k0 k) eqn:E.
  - apply String.eqb_eq in E as ->. intros [= ->]. apply elem_of_cons. now left.
  - intros H. apply elem_of_cons. right. now apply IH.
Qed.

Lemma Obj_get_Some_key o k v : Obj.get k o = Some v → k ∈ Obj.keys o.
Proof.
  intros H%Obj_get_Some_elem. unfold Obj.keys.
  apply list_elem_of_fmap. now exists (k, v).
Qed.

Lemma Obj_elem_get o k v : NoDup (Obj.keys o) → (k, v) ∈ o → Obj.get k o = Some v.
Proof.
  unfold Obj.keys. induction o as [|[k0 v0] o IH]; simpl.
  - intros _ H. now apply elem_of_nil in H.
  - rewrite ?fmap_cons. simpl. intros [Hk0 Hnd]%NoDup_cons Hin.
    apply elem_of_cons in Hin as [[= <- <-]|Hin].
    + now rewrite String.eqb_refl.
    + destruct (String.eqb k0 k) eqn:E; [|now apply IH].
      apply String.eqb_eq in E as ->. exfalso. apply Hk0.
      apply list_elem_of_fmap. now exists (k, v).
Qed.

Lemma Obj_lookup_get o (i : nat) k v :
  NoDup (Obj.keys o) → o !! i = Some (k, v) → Obj.get k o = Some v.
Proof.
  intros Hnd Hi. apply Obj_elem_get; [assumption|].
  eapply list_elem_of_lookup_2. exact Hi.
Qed.

(** Assigning to a key that is absent appends the entry. *)
Lemma Obj_set_fresh o k v : Obj.get k o = None → Obj.set k v o = o ++ [(k, v)].
Proof.
  induction o as [|[k0 v0] o IH]; simpl; [reflexivity|].
  destruct (String.eqb k0 k); [discriminate|]. intros H. now rewrite IH.
Qed.

(** Assigning to a key that is present keeps the keys and their order. *)
Lemma Obj_keys_set_present o k v :
  Obj.get k o ≠ None → Obj.keys (Obj.set k v o) = Obj.keys o.
Proof.
  unfold Obj.keys. induction o as [|[k0 v0] o IH]; simpl; [congruence|].
  destruct (String.eqb k0 k) eqn:E; [reflexivity|].
  intros H. rewrite ?fmap_cons. simpl. f_equal. now apply IH.
Qed.

Lemma filter_neq_absent (l : list string) k : k ∉ l → filter (λ k', k' ≠ k) l = l.
Proof.
  induction l as [|x l IH]; [reflexivity|].
  intros [Hx Hl]%not_elem_of_cons.
  rewrite filter_cons_True by congruence. now rewrite IH.
Qed.

(** Deleting a key keeps the other keys in their order. *)
Lemma Obj_keys_del o k :
  NoDup (Obj.keys o) →
  Obj.keys (Obj.del k o) = filter (λ k', k' ≠ k) (Obj.keys o).
Proof.
  unfold Obj.keys. induction o as [|[k0 v0] o IH]; simpl; [reflexivity|].
  rewrite ?fmap_cons. simpl. intros [Hk0 Hnd]%NoDup_cons.
  destruct (String.eqb k0 k) eqn:E.
  - apply String.eqb_eq in E as ->.
    rewrite filter_cons_False by tauto.
    symmetry. now apply filter_neq_absent.
  - apply String.eqb_neq in E. rewrite filter_cons_True by assumption.
    rewrite ?fmap_cons. simpl. f_equal. now apply IH.
Qed.

Lemma Obj_get_del_eq o k : NoDup (Obj.keys o) → Obj.get k (Obj.del k o) = None.
Proof.
  intros Hnd. apply Obj_get_None. rewrite Obj_keys_del by assumption.
  intros [H _]%list_elem_of_filter. now apply H.
Qed.

Lemma Obj_NoDup_del o k : NoDup (Obj.keys o) → NoDup (Obj.keys (Obj.del k o)).
Proof.
  intros Hnd. rewrite Obj_keys_del by assumption. now apply NoDup_filter.
Qed.

Lemma Obj_NoDup_set o k v : NoDup (Obj.keys o) → NoDup (Obj.keys (Obj.set k v o)).
Proof.
  intros Hnd. destruct (Obj.get k o) as [v0|] eqn:E.
  - rewrite Obj_keys_set_present by congruence. assumption.
  - rewrite Obj_set_fresh by assumption. unfold Obj.keys.
    rewrite fmap_app. simpl. apply NoDup_app. split; [assumption|].
    split; [|apply NoDup_singleton].
    intros x Hx ->%list_elem_of_singleton. now apply Obj_get_None in E.
Qed.

Lemma Obj_get_singleton k0 v0 k v :
  Obj.get k [(k0, v0)] = Some v → k = k0 ∧ v = v0.
Proof.
  cbn [Obj.get]. destruct (String.eqb k0 k) eqn:E; [|discriminate].
  apply String.eqb_eq in E as ->. intros [= ->]. now split.
Qed.

End ObjFacts.

(** ** getLowestCostNodeKey *)

Lemma lowerOf_fold (o pre suf : list (string * Node)) (acc : string) :
  NoDup (Obj.keys o) →
  o = pre ++ suf → first_minimum_upto o pre acc →
  first_minimum_upto o o (foldl (lowerOf o) acc suf).
Proof.
  intros Hnd. revert pre acc.
  induction suf as [|[k v] suf IH]; intros pre acc Heq Hb.
  - rewrite app_nil_r in Heq. now subst pre.
  - simpl foldl. apply (IH (pre ++ [(k, v)])).
    { now rewrite <- app_assoc. }
    unfold first_minimum_upto in Hb |- *.
    destruct Hb as (i & n & Hi & Hpos & Hmin).
    assert (Hj : o !! length pre = Some (k, v)).
    { rewrite Heq. now rewrite list_lookup_middle. }
    unfold lowerOf. rewrite (Obj_lookup_get _ _ _ _ Hnd Hi).
    rewrite length_app. simpl length.
    destruct (Z.ltb_spec (totalCost v) (totalCost n)) as [Hlt|Hge].
    + exists (length pre), v. split; [exact Hj|]. split; [lia|].
      intros j k' n' Hjlt Hj'.
      destruct (decide (j = length pre)) as [->|Hne].
      * rewrite Hj in Hj'. injection Hj' as <- <-. lia.
      * destruct (Hmin j k' n' ltac:(lia) Hj') as [Hle _]. lia.
    + exists i, n. split; [exact Hi|]. split; [lia|].
      intros j k' n' Hjlt Hj'.
      destruct (decide (j = length pre)) as [->|Hne].
      * rewrite Hj in Hj'. injection Hj' as <- <-. lia.
      * apply (Hmin j k' n'); [lia|assumption].
Qed.

Lemma getLowestCostNodeKey_spec (o : list (string * Node)) :
  NoDup (Obj.keys o) → o ≠ [] →
  ∃ k, getLowestCostNodeKey o = Some k ∧ first_minimum o k.
Proof.
  intros Hnd Hne. unfold getLowestCostNodeKey.
  pose proof Hnd as Hnd'.
  destruct (Obj.keys o) as [|k0 ks] eqn:E in Hnd' |- *.
  { destruct o; [congruence|discriminate]. }
  eexists. split; [reflexivity|].
  assert (Hb : first_minimum_upto o o (foldl (lowerOf o) k0 o)).
  { apply (lowerOf_fold o [] o k0 Hnd); [reflexivity|].
    destruct o as [|[k0' v0] rest]; [congruence|]. injection E as -> _.
    exists 0%nat, v0. split; [reflexivity|]. split; [now right|].
    intros j k' n' Hj. simpl in Hj. lia. }
  destruct Hb as (i & n & Hi & _ & Hmin).
  exists i, n. split; [exact Hi|].
  intros j k' n' Hj. apply (Hmin j k' n'); [|exact Hj].
  now apply lookup_lt_Some in Hj.
Qed.

Lemma first_minimum_get (o : list (string * Node)) (k : string) :
  NoDup (Obj.keys o) → first_minimum o k →
  ∃ n, Obj.get k o = Some n
       ∧ ∀ k' n', Obj.get k' o = Some n' → totalCost n ≤ totalCost n'.
Proof.
  intros Hnd (i & n & Hi & Hmin). exists n.
  split; [now apply (Obj_lookup_get _ i)|].
  intros k' n' Hk'%Obj_get_Some_elem.
  apply list_elem_of_lookup_1 in Hk' as [j Hj].
  now apply (Hmin j k' n').
Qed.

(** ** getViableNeighbours *)

Lemma getViableNeighbours_eq (grid : Grid) (c : Cell) (closed : gmap string Node) :
  getViableNeighbours grid (key_of c) closed
  = Some ((λ s, toward s c)
            <$> filter (λ s, isBlocked grid closed (opposite s) (toward s c) = false)
                  [Top; Bottom; Left; Right]).
Proof.
  unfold getViableNeighbours. rewrite getNumericalCoordinates_key_of.
  f_equal.
  change (fst c, snd c - 1) with (toward Top c).
  change (fst c, snd c + 1) with (toward Bottom c).
  change (fst c - 1, snd c) with (toward Left c).
  change (fst c + 1, snd c) with (toward Right c).
  rewrite !filter_cons, filter_nil. simpl opposite.
  unfold pruneAt.
  cbn -[isBlocked toward].
  destruct (isBlocked grid closed Left (toward Right c)); cbn -[isBlocked toward];
  destruct (isBlocked grid closed Right (toward Left c)); cbn -[isBlocked toward];
  destruct (isBlocked grid closed Top (toward Bottom c)); cbn -[isBlocked toward];
  destruct (isBlocked grid closed Bottom (toward Top c)); cbn -[isBlocked toward];
    repeat case_decide; try discriminate; try congruence; reflexivity.
Qed.

Lemma isBlocked_false (grid : Grid) (closed : gmap string Node) (s : Side) (nb : Cell) :
  isBlocked grid closed s nb = false
  ↔ ∃ w, grid !! key_of nb = Some w ∧ wall s w = false ∧ closed !! key_of nb = None.
Proof.
  unfold isBlocked. destruct (grid !! key_of nb) as [w|].
  - destruct (wall s w) eqn:Ew; destruct (closed !! key_of nb) eqn:Ec; simpl; split;
      try discriminate; try (intros (w' & Hw' & Hwl & Hcl); congruence).
    intros _. now exists w.
  - split; [discriminate|]. intros (w & Hw & _). discriminate.
Qed.

Lemma elem_of_getViableNeighbours (grid : Grid) (c : Cell) (closed : gmap string Node)
    (nb : Cell) :
  (∃ nbs, getViableNeighbours grid (key_of c) closed = Some nbs ∧ nb ∈ nbs)
  ↔ ∃ s w, nb = toward s c ∧ grid !! key_of nb = Some w
           ∧ wall (opposite s) w = false ∧ closed !! key_of nb = None.
Proof.
  rewrite getViableNeighbours_eq. split.
  - intros (nbs & [= <-] & Hin).
    apply list_elem_of_fmap in Hin as (s & -> & Hs).
    apply list_elem_of_filter in Hs as [Hb _].
    apply isBlocked_false in Hb as (w & Hw & Hwall & Hc). now exists s, w.
  - intros (s & w & -> & Hw & Hwall & Hc). eexists. split; [reflexivity|].
    apply list_elem_of_fmap. exists s. split; [reflexivity|].
    apply list_elem_of_filter. split.
    + apply isBlocked_false. now exists w.
    + destruct s; set_solver.
Qed.

Lemma passable_open_step (grid : Grid) (u v : Cell) :
  wall_symmetric grid → present grid u →
  (passable grid u v ↔ open_step grid u v).
Proof.
  intros Hsym [wu Hu]. unfold passable, open_step, is_open. rewrite Hu. split.
  - intros (s & w & -> & Hw & Hwall). exists s. split; [reflexivity|].
    rewrite Hw, (Hsym u s wu w Hu Hw), Hwall. reflexivity.
  - intros (s & -> & Hopen). exists s.
    destruct (grid !! key_of (toward s u)) as [w|] eqn:Hw.
    + exists w. split; [reflexivity|]. split; [reflexivity|].
      rewrite <- (Hsym u s wu w Hu Hw).
      destruct (wall s wu); [discriminate|reflexivity].
    + rewrite andb_false_r in Hopen. discriminate.
Qed.

Lemma far_wall_agreement (grid : Grid) (cur : Cell) (closed : gmap string Node)
    (s : Side) (wa wb : Walls) :
  grid !! key_of cur = Some wa →
  grid !! key_of (toward s cur) = Some wb →
  closed !! key_of (toward s cur) = None →
  ∃ nbs, getViableNeighbours grid (key_of cur) closed = Some nbs
         ∧ ((toward s cur ∈ nbs ↔ is_open grid cur s = true)
            ↔ wall s wa = wall (opposite s) wb).
Proof.
  intros Ha Hb Hc. eexists. split; [apply getViableNeighbours_eq|].
  assert (Hin : toward s cur ∈ (λ s0, toward s0 cur)
                  <$> filter (λ s0, isBlocked grid closed (opposite s0) (toward s0 cur) = false)
                        [Top; Bottom; Left; Right]
                ↔ wall (opposite s) wb = false).
  { split.
    - intros (s' & Hs & Hf)%list_elem_of_fmap. apply toward_inj_side in Hs as <-.
      apply list_elem_of_filter in Hf as [Hf _].
      apply isBlocked_false in Hf as (w & Hw & Hwall & _). congruence.
    - intros Hwall. apply list_elem_of_fmap. exists s. split; [reflexivity|].
      apply list_elem_of_filter. split; [|destruct s; set_solver].
      apply isBlocked_false. now exists wb. }
  rewrite Hin. unfold is_open. rewrite Ha, Hb, andb_true_r.
  destruct (wall s wa), (wall (opposite s) wb); simpl; intuition congruence.
Qed.

(** C10. [getViableNeighbours] keeps a neighbour exactly when it is in the
    grid, the wall of the neighbour that faces the current cell is open,
    and it is not in the closed set (for the right neighbour: its [left]
    wall).  The wall object of the current cell is not read: replacing it
    changes nothing.  So the test is the spec's [is_open] on a symmetric
    grid; and on every grid, for a cell and a neighbour that are both in
    it, the two tests agree exactly when the two walls that face each
    other are equal: they agree at every cell of a grid if and only if
    the grid is symmetric.  On the two-cell grid [lopsided_grid] they
    differ. *)
Theorem getViableNeighbours_far_wall :
  (∀ (grid : Grid) (cur : Cell) (closed : gmap string Node),
      ∃ nbs, getViableNeighbours grid (key_of cur) closed = Some nbs
             ∧ ∀ nb, nb ∈ nbs ↔
                     ∃ s w, nb = toward s cur ∧ grid !! key_of nb = Some w
                            ∧ wall (opposite s) w = false
                            ∧ closed !! key_of nb = None)
  ∧ (∀ (grid : Grid) (cur : Cell) (closed : gmap string Node) (wcur : Walls),
        getViableNeighbours (<[key_of cur := wcur]> grid) (key_of cur) closed
        = getViableNeighbours grid (key_of cur) closed)
  ∧ (∀ (grid : Grid) (cur : Cell) (closed : gmap string Node) (s : Side) nbs,
        wall_symmetric grid → present grid cur →
        getViableNeighbours grid (key_of cur) closed = Some nbs →
        closed !! key_of (toward s cur) = None →
        (toward s cur ∈ nbs ↔ is_open grid cur s = true))
  ∧ (∀ (grid : Grid) (cur : Cell) (closed : gmap string Node) (s : Side)
       (wa wb : Walls),
        grid !! key_of cur = Some wa →
        grid !! key_of (toward s cur) = Some wb →
        closed !! key_of (toward s cur) = None →
        ∃ nbs, getViableNeighbours grid (key_of cur) closed = Some nbs
               ∧ ((toward s cur ∈ nbs ↔ is_open grid cur s = true)
                  ↔ wall s wa = wall (opposite s) wb))
  ∧ (∀ (grid : Grid),
        wall_symmetric grid
        ↔ ∀ (cur : Cell) (closed : gmap string Node) (s : Side) nbs,
            present grid cur →
            getViableNeighbours grid (key_of cur) closed = Some nbs →
            closed !! key_of (toward s cur) = None →
            (toward s cur ∈ nbs ↔ is_open grid cur s = true))
  ∧ (∃ nbs, getViableNeighbours lopsided_grid (key_of start) ∅ = Some nbs
            ∧ toward Right start ∈ nbs
            ∧ is_open lopsided_grid start Right = false).
Proof.
  assert (Hsymm : ∀ (grid : Grid) (cur : Cell) (closed : gmap string Node) (s : Side) nbs,
             wall_symmetric grid → present grid cur →
             getViableNeighbours grid (key_of cur) closed = Some nbs →
             closed !! key_of (toward s cur) = None →
             (toward s cur ∈ nbs ↔ is_open grid cur s = true)).
  { intros grid cur closed s nbs Hsym Hcur Hnbs Hclosed.
    assert (Hin : toward s cur ∈ nbs ↔
                  ∃ s' w, toward s cur = toward s' cur
                          ∧ grid !! key_of (toward s cur) = Some w
                          ∧ wall (opposite s') w = false
                          ∧ closed !! key_of (toward s cur) = None).
    { rewrite <- elem_of_getViableNeighbours, Hnbs.
      split; [intros H; eexists; split; [reflexivity|exact H]|].
      now intros (nbs' & [= <-] & H). }
    rewrite Hin. split.
    + intros (s' & w & Hs & Hw & Hwall & _).
      apply toward_inj_side in Hs as <-.
      assert (Hp : passable grid cur (toward s cur)) by now exists s, w.
      apply passable_open_step in Hp as (s' & Hs & Ho); [|assumption..].
      now apply toward_inj_side in Hs as <-.
    + intros Ho.
      assert (Hp : open_step grid cur (toward s cur)) by now exists s.
      apply passable_open_step in Hp as (s' & w & Hs & Hw & Hwall); [|assumption..].
      now exists s', w. }
  split; [|split; [|split; [|split; [|split]]]].
  - intros grid cur closed. eexists. split; [apply getViableNeighbours_eq|].
    intros nb. rewrite <- elem_of_getViableNeighbours, getViableNeighbours_eq.
    split; [intros H; eexists; split; [reflexivity|exact H]|].
    now intros (nbs & [= <-] & H).
  - intros grid cur closed wcur. rewrite !getViableNeighbours_eq. do 2 f_equal.
    apply list_filter_iff. intros s. unfold isBlocked.
    rewrite lookup_insert_ne; [reflexivity|]. apply key_of_toward_neq.
  - exact Hsymm.
  - exact far_wall_agreement.
  - intros grid. split.
    + intros Hsym cur closed s nbs. now apply Hsymm.
    + intros Hagree a s wa wb Ha Hb.
      destruct (far_wall_agreement grid a ∅ s wa wb Ha Hb (lookup_empty _))
        as (nbs & Hnbs & Hiff).
      apply Hiff. apply (Hagree a ∅ s nbs); [unfold present; eauto|exact Hnbs|].
      apply lookup_empty.
  - eexists. split; [vm_compute; reflexivity|]. split; [|reflexivity].
    vm_compute. apply list_elem_of_singleton. reflexivity.
Qed.

(** ** Walks and routes *)

Section Walks.
Variable E : Cell → Cell → Prop.

Lemma walk_cons_inv (a b : Cell) (q : list Cell) :
  walk E (a :: b :: q) ↔ E a b ∧ walk E (b :: q).
Proof. reflexivity. Qed.

Lemma walk_app_inv (p1 : list Cell) (a b : Cell) (p2 : list Cell) :
  walk E (p1 ++ a :: b :: p2) →
  walk E (p1 ++ [a]) ∧ E a b ∧ walk E (b :: p2).
Proof.
  induction p1 as [|x p1 IH]; simpl app.
  - intros [Hab Hw]. now split.
  - destruct p1 as [|y p1].
    + simpl. intros (Hxa & Hab & Hw). tauto.
    + simpl app in *. intros [Hxy Hw]. apply IH in Hw as (Hw1 & Hab & Hw2).
      split; [|now split]. split; assumption.
Qed.

Lemma walk_snoc (p : list Cell) (a b : Cell) :
  walk E p → last p = Some a → E a b → walk E (p ++ [b]).
Proof.
  induction p as [|x p IH]; [discriminate|].
  destruct p as [|y p].
  - simpl. intros _ [= ->] Hab. now split.
  - intros [Hxy Hw] Hl Hab. simpl app. split; [assumption|].
    apply IH; assumption.
Qed.

Lemma route_boundary (P : Cell → Prop) (p : list Cell) (a b : Cell) :
  (∀ x, P x ∨ ¬ P x) →
  head p = Some a → last p = Some b → P a → ¬ P b →
  ∃ p1 x y p2, p = p1 ++ x :: y :: p2 ∧ P x ∧ ¬ P y.
Proof.
  intros Hdec. revert a. induction p as [|x p IH]; [discriminate|].
  intros a [= ->] Hl Ha Hb.
  destruct p as [|y p].
  - simpl in Hl. injection Hl as ->. contradiction.
  - destruct (Hdec y) as [Hy|Hy].
    + destruct (IH y eq_refl Hl Hy Hb) as (p1 & x' & y' & p2 & -> & Hx' & Hy').
      exists (a :: p1), x', y', p2. now split.
    + exists [], a, y, p. now split.
Qed.

End Walks.

Lemma passable_manhattan (g : Grid) (t u v : Cell) :
  passable g u v → manhattan u t ≤ manhattan v t + 1.
Proof. intros (s & w & -> & _). apply manhattan_toward. Qed.

Lemma walk_manhattan (g : Grid) (t : Cell) (q : list Cell) (b c : Cell) :
  walk (passable g) (b :: q) → last (b :: q) = Some c →
  manhattan b t ≤ manhattan c t + Z.of_nat (length q).
Proof.
  revert b. induction q as [|x q IH]; intros b.
  - simpl. intros _ [= ->]. lia.
  - intros [Hbx Hw] Hl. specialize (IH x Hw Hl).
    apply (passable_manhattan g t) in Hbx. simpl length. lia.
Qed.

Lemma passable_present (g : Grid) (u v : Cell) : passable g u v → present g v.
Proof. intros (s & w & _ & Hw & _). unfold present. eauto. Qed.

Lemma passable_neq (g : Grid) (u v : Cell) : passable g u v → v ≠ u.
Proof. intros (s & w & -> & _). apply toward_neq. Qed.

(** On a symmetric grid that holds the first cell, the walks along the
    steps of [getViableNeighbours] are the walks along open passages. *)
Lemma walk_passable_open (g : Grid) (p : list Cell) (a : Cell) :
  wall_symmetric g → head p = Some a → present g a →
  (walk (passable g) p ↔ walk (open_step g) p).
Proof.
  intros Hsym. revert a. induction p as [|x p IH]; [discriminate|].
  intros a [= ->] Ha. destruct p as [|y p]; [reflexivity|].
  rewrite !walk_cons_inv.
  rewrite (passable_open_step g a y Hsym Ha).
  split; intros [Hay Hw]; (split; [assumption|]);
    (apply (IH y eq_refl); [|assumption]);
    apply (passable_open_step g a y Hsym Ha) in Hay;
    now apply passable_present in Hay.
Qed.

(** ** The loop over the neighbours *)

Lemma getHeuristicMeasure_key_of (nb t : Cell) :
  getHeuristicMeasure nb (key_of t) = Some (manhattan nb t).
Proof.
  unfold getHeuristicMeasure. now rewrite getNumericalCoordinates_key_of.
Qed.

Lemma visitNeighbour_eq (cur : string * Node) (t : Cell) (o : list (string * Node))
    (nb : Cell) :
  visitNeighbour cur (key_of t) o nb
  = Some (match Obj.get (key_of nb) o with
          | None => Obj.set (key_of nb) (neighbourNode_of cur t nb) o
          | Some old =>
              if totalCost (neighbourNode_of cur t nb) <? totalCost old
              then Obj.set (key_of nb) (neighbourNode_of cur t nb) o
              else o
          end).
Proof.
  unfold visitNeighbour, Obj.has. rewrite getHeuristicMeasure_key_of. simpl.
  fold (neighbourNode_of cur t nb).
  destruct (Obj.get (key_of nb) o) as [old|]; [|reflexivity]. simpl.
  rewrite Z.gtb_ltb. now destruct (_ <? _).
Qed.

Lemma visited_rel_refl (cur : string * Node) (t : Cell) (o : list (string * Node)) :
  NoDup (Obj.keys o) → visited_rel cur t [] o o.
Proof.
  intros Hnd. split; [assumption|auto| |eauto with lia|].
  - intros nb H. now apply elem_of_nil in H.
  - exists []. split; [now rewrite app_nil_r|]. intros k H. now apply elem_of_nil in H.
Qed.

Lemma visited_rel_set (cur : string * Node) (t : Cell) (nb : Cell)
    (o : list (string * Node)) :
  NoDup (Obj.keys o) →
  (∀ old, Obj.get (key_of nb) o = Some old →
          totalCost (neighbourNode_of cur t nb) ≤ totalCost old) →
  visited_rel cur t [nb] o (Obj.set (key_of nb) (neighbourNode_of cur t nb) o).
Proof.
  intros Hnd Hcheap. split.
  - now apply Obj_NoDup_set.
  - intros k n'. destruct (decide (key_of nb = k)) as [<-|Hne].
    + rewrite Obj_get_set_eq. intros [= <-]. right. exists nb.
      split; [apply list_elem_of_singleton; reflexivity|]. now split.
    + rewrite Obj_get_set_ne by assumption. now left.
  - intros nb' ->%list_elem_of_singleton. rewrite Obj_get_set_eq.
    eexists. split; [reflexivity|lia].
  - intros k n Hk. destruct (decide (key_of nb = k)) as [<-|Hne].
    + rewrite Obj_get_set_eq. eexists. split; [reflexivity|]. now apply Hcheap.
    + rewrite Obj_get_set_ne by assumption. exists n. split; [assumption|lia].
  - destruct (Obj.get (key_of nb) o) as [old|] eqn:Hg.
    + exists []. rewrite app_nil_r. split.
      * apply Obj_keys_set_present. congruence.
      * intros k H. now apply elem_of_nil in H.
    + exists [key_of nb]. split.
      * rewrite Obj_set_fresh by assumption. unfold Obj.keys. now rewrite fmap_app.
      * intros k ->%list_elem_of_singleton. now apply Obj_get_None.
Qed.

Lemma visited_rel_keep (cur : string * Node) (t : Cell) (nb : Cell)
    (o : list (string * Node)) (old : Node) :
  NoDup (Obj.keys o) →
  Obj.get (key_of nb) o = Some old →
  totalCost old ≤ totalCost (neighbourNode_of cur t nb) →
  visited_rel cur t [nb] o o.
Proof.
  intros Hnd Hold Hle. split; [assumption|auto| |eauto with lia|].
  - intros nb' ->%list_elem_of_singleton. now exists old.
  - exists []. split; [now rewrite app_nil_r|]. intros k H. now apply elem_of_nil in H.
Qed.

Lemma visited_rel_trans (cur : string * Node) (t : Cell) (nb : Cell) (rest : list Cell)
    (o o1 o2 : list (string * Node)) :
  visited_rel cur t [nb] o o1 → visited_rel cur t rest o1 o2 →
  visited_rel cur t (nb :: rest) o o2.
Proof.
  intros H1 H2. split.
  - apply H2.
  - intros k n' Hk. apply (vr_from _ _ _ _ _ H2) in Hk as [Hk|(nb' & Hin & -> & ->)].
    + apply (vr_from _ _ _ _ _ H1) in Hk as [Hk|(nb' & Hin & -> & ->)]; [now left|].
      apply list_elem_of_singleton in Hin as ->. right. exists nb.
      split; [apply elem_of_cons; now left|now split].
    + right. exists nb'. split; [apply elem_of_cons; now right|now split].
  - intros nb' [->|Hin]%elem_of_cons.
    + destruct (vr_nbs _ _ _ _ _ H1 nb) as (n1 & Hn1 & Hle1);
        [apply list_elem_of_singleton; reflexivity|].
      destruct (vr_old _ _ _ _ _ H2 _ _ Hn1) as (n2 & Hn2 & Hle2).
      exists n2. split; [assumption|lia].
    + now apply (vr_nbs _ _ _ _ _ H2).
  - intros k n Hk.
    destruct (vr_old _ _ _ _ _ H1 _ _ Hk) as (n1 & Hn1 & Hle1).
    destruct (vr_old _ _ _ _ _ H2 _ _ Hn1) as (n2 & Hn2 & Hle2).
    exists n2. split; [assumption|lia].
  - destruct (vr_keys _ _ _ _ _ H1) as (f1 & Hk1 & Hf1).
    destruct (vr_keys _ _ _ _ _ H2) as (f2 & Hk2 & Hf2).
    exists (f1 ++ f2). split; [now rewrite Hk2, Hk1, app_assoc|].
    intros k [Hk|Hk]%elem_of_app; [now apply Hf1|].
    apply Hf2 in Hk. rewrite Hk1 in Hk. intros Hin. apply Hk.
    apply elem_of_app. now left.
Qed.

Lemma visitNeighbours_spec (cur : string * Node) (t : Cell) (nbs : list Cell)
    (o : list (string * Node)) :
  NoDup (Obj.keys o) →
  ∃ o', visitNeighbours cur (key_of t) o nbs = Some o' ∧ visited_rel cur t nbs o o'.
Proof.
  revert o. induction nbs as [|nb rest IH]; intros o Hnd.
  - exists o. split; [reflexivity|]. now apply visited_rel_refl.
  - simpl visitNeighbours. rewrite visitNeighbour_eq.
    set (o1 := match Obj.get (key_of nb) o with | Some _ => _ | None => _ end).
    assert (H1 : visited_rel cur t [nb] o o1).
    { subst o1. destruct (Obj.get (key_of nb) o) as [old|] eqn:Hg.
      - destruct (Z.ltb_spec (totalCost (neighbourNode_of cur t nb)) (totalCost old)).
        + apply visited_rel_set; [assumption|]. intros old' Hold'.
          rewrite Hg in Hold'. injection Hold' as <-. lia.
        + now apply (visited_rel_keep cur t nb o old).
      - apply visited_rel_set; [assumption|]. intros old' Hold'.
        rewrite Hg in Hold'. discriminate. }
    destruct (IH o1 (vr_nodup _ _ _ _ _ H1)) as (o2 & Hrun & H2).
    exists o2. split; [exact Hrun|]. now apply (visited_rel_trans cur t nb rest o o1 o2).
Qed.

(** ** The invariant of findPath is kept by a turn of its loop *)

Section Selected.
Variables (t : Cell) (σ : Store).
Hypothesis Hinv : solver_inv t σ.
Variables (cc : Cell) (cn : Node).
Hypothesis Hget : Obj.get (key_of cc) (st_open σ) = Some cn.
Hypothesis Hmin :
  ∀ k' n', Obj.get k' (st_open σ) = Some n' → totalCost cn ≤ totalCost n'.

Lemma selected_not_closed : st_closed σ !! key_of cc = None.
Proof using Hinv Hget. exact (inv_disjoint t σ Hinv _ _ Hget). Qed.

Lemma selected_start : cc = start → cn = startNode.
Proof using Hinv Hget.
  clear Hmin. intros E. pose proof selected_not_closed as Hnc. pose proof Hget as Hg.
  rewrite E, key_of_start in Hnc, Hg.
  destruct (inv_start t σ Hinv) as [[Ho _]|Hc]; [|congruence].
  rewrite Ho in Hg. now apply Obj_get_singleton in Hg as [_ ->].
Qed.

Lemma selected_other : cc ≠ start → st_closed σ !! "0,0" = Some startNode.
Proof using Hinv Hget.
  clear Hmin. intros Hne. destruct (inv_start t σ Hinv) as [[Ho _]|Hc]; [|exact Hc].
  pose proof Hget as Hg. rewrite Ho in Hg.
  apply Obj_get_singleton in Hg as [E _]. now apply key_of_eq_start in E.
Qed.

Lemma open_not_start (v : Cell) (nv : Node) :
  st_closed σ !! "0,0" = Some startNode →
  Obj.get (key_of v) (st_open σ) = Some nv → v ≠ start.
Proof using Hinv.
  intros Hs Hv ->. apply (inv_disjoint t σ Hinv) in Hv.
  rewrite key_of_start in Hv. congruence.
Qed.

Lemma open_total (v : Cell) (nv : Node) :
  st_closed σ !! "0,0" = Some startNode →
  Obj.get (key_of v) (st_open σ) = Some nv →
  totalCost nv = moveCost nv + manhattan v t.
Proof using Hinv.
  intros Hs Hv.
  destruct (inv_parent t σ Hinv v nv) as (p & np & _ & _ & _ & _ & Hd & Ht).
  - now apply (open_not_start v nv).
  - now left.
  - lia.
Qed.

(** The node selected from the frontier has the least cost any route to
    its cell can have. *)
Lemma selected_optimal (p : list Cell) :
  route (passable (st_grid σ)) start cc p →
  moveCost cn ≤ Z.of_nat (length p) - 1.
Proof using Hinv Hget Hmin.
  intros (Hhead & Hlast & Hwalk).
  destruct (decide (cc = start)) as [Hs|Hs].
  - rewrite (selected_start Hs). simpl. destruct p; [discriminate|]. simpl length. lia.
  - pose proof (selected_other Hs) as Hsc.
    destruct (route_boundary (λ c, is_Some (st_closed σ !! key_of c)) p start cc)
      as (p1 & a & b & p2 & -> & [na Ha] & Hb); try assumption.
    + intros x. destruct (st_closed σ !! key_of x); [left; eauto|right].
      now intros [? ?].
    + rewrite key_of_start. eauto.
    + rewrite selected_not_closed. now intros [? ?].
    + apply walk_app_inv in Hwalk as (Hw1 & Hab & Hw2).
      assert (Hr1 : route (passable (st_grid σ)) start a (p1 ++ [a])).
      { split; [|split; [|assumption]].
        - destruct p1; [simpl in Hhead |- *; congruence|exact Hhead].
        - apply last_snoc. }
      pose proof (inv_optimal t σ Hinv a na _ Ha Hr1) as Hopt.
      rewrite length_app in Hopt. simpl length in Hopt.
      destruct (inv_frontier t σ Hinv a na b Ha Hab) as [[nb Hnb]|(nb & Hnb & Hcost)].
      { exfalso. apply Hb. eauto. }
      assert (Hlast2 : last (b :: p2) = Some cc).
      { rewrite <- Hlast. change (p1 ++ a :: b :: p2) with (p1 ++ a :: (b :: p2)).
        now rewrite last_app_cons, last_cons_cons. }
      pose proof (walk_manhattan (st_grid σ) t p2 b cc Hw2 Hlast2) as Hman.
      pose proof (open_total b nb Hsc Hnb) as Htb.
      pose proof (open_total cc cn Hsc Hget) as Htc.
      pose proof (Hmin _ _ Hnb) as Hle.
      rewrite length_app. simpl length. lia.
Qed.

Lemma closed_kept (k : string) (n : Node) :
  st_closed σ !! k = Some n → <[key_of cc := cn]> (st_closed σ) !! k = Some n.
Proof using Hinv Hget.
  clear Hmin. intros Hk. rewrite lookup_insert_ne; [exact Hk|].
  intros E. pose proof selected_not_closed as Hnc.
  rewrite E in Hnc. congruence.
Qed.

Lemma closed_after (k : string) (n : Node) :
  <[key_of cc := cn]> (st_closed σ) !! k = Some n →
  (k = key_of cc ∧ n = cn) ∨ (k ≠ key_of cc ∧ st_closed σ !! k = Some n).
Proof using Type.
  rewrite lookup_insert. case_decide as E.
  - intros [= <-]. left. now split.
  - intros Hk. right. split; [congruence|exact Hk].
Qed.

Lemma old_node_parent (c : Cell) (n : Node) :
  c ≠ start → node_at σ (key_of c) n →
  ∃ p np, parent n = key_of p
          ∧ <[key_of cc := cn]> (st_closed σ) !! key_of p = Some np
          ∧ passable (st_grid σ) p c
          ∧ moveCost n = moveCost np + 1
          ∧ distCost n = manhattan c t
          ∧ totalCost n = moveCost n + distCost n.
Proof using Hinv Hget.
  clear Hmin. intros Hc Hn.
  destruct (inv_parent t σ Hinv c n Hc Hn) as (p & np & Hp & Hcl & Hrest).
  exists p, np. split; [exact Hp|]. split; [now apply closed_kept|exact Hrest].
Qed.


(** When the selected cell is the goal: the closed set that is returned. *)
Lemma found_ok :
  cc = t → closed_ok (st_grid σ) t (<[key_of cc := cn]> (st_closed σ)).
Proof using Hinv Hget Hmin.
  intros Ht. split.
  - destruct (decide (cc = start)) as [E|E].
    + rewrite <- key_of_start, <- E, (selected_start E). apply lookup_insert_eq.
    + apply closed_kept. now apply selected_other.
  - rewrite <- Ht, lookup_insert_eq. eauto.
  - intros k n Hk. apply closed_after in Hk as [[-> _]|[_ Hk]]; [eauto|].
    apply (inv_keys t σ Hinv k n). now right.
  - intros c n Hc Hk. apply closed_after in Hk as [[E ->]|[_ Hk]].
    + apply key_of_inj in E as ->. apply old_node_parent; [assumption|now left].
    + apply old_node_parent; [assumption|now right].
  - intros k n Hk. apply closed_after in Hk as [[_ ->]|[_ Hk]].
    + apply (inv_nonneg t σ Hinv (key_of cc) cn). now left.
    + apply (inv_nonneg t σ Hinv k n). now right.
  - intros c n p Hk Hp. apply closed_after in Hk as [[E ->]|[_ Hk]].
    + apply key_of_inj in E as ->. now apply selected_optimal.
    + now apply (inv_optimal t σ Hinv c n p).
Qed.

(** The selected cell is the start or a cell of the grid. *)
Lemma selected_in_bounds :
  key_of cc ∈ ({[key_of start]} ∪ dom (st_grid σ) : gset string).
Proof using Hinv Hget.
  clear Hmin. destruct (decide (cc = start)) as [->|E]; [set_solver|].
  destruct (inv_parent t σ Hinv cc cn E) as (p & np & _ & _ & Hp & _); [now left|].
  apply passable_present in Hp. apply elem_of_union. right.
  now apply elem_of_dom.
Qed.

End Selected.

Section Expand.
Variables (t : Cell) (σ : Store).
Hypothesis Hinv : solver_inv t σ.
Variables (cc : Cell) (cn : Node).
Hypothesis Hget : Obj.get (key_of cc) (st_open σ) = Some cn.
Hypothesis Hmin :
  ∀ k' n', Obj.get k' (st_open σ) = Some n' → totalCost cn ≤ totalCost n'.
Variables (nbs : list Cell) (o' : list (string * Node)).
Hypothesis Hnbs :
  getViableNeighbours (st_grid σ) (key_of cc) (st_closed σ) = Some nbs.
Hypothesis Hrel : visited_rel (key_of cc, cn) t nbs (st_open σ) o'.
Hypothesis Hng : key_of cc ≠ key_of t.

Lemma nbs_spec (nb : Cell) :
  nb ∈ nbs ↔
  ∃ s w, nb = toward s cc ∧ st_grid σ !! key_of nb = Some w
         ∧ wall (opposite s) w = false ∧ st_closed σ !! key_of nb = None.
Proof.
  rewrite <- elem_of_getViableNeighbours, Hnbs.
  split; [intros H; eexists; split; [reflexivity|exact H]|].
  now intros (nbs' & [= <-] & H).
Qed.

Lemma nbs_passable (nb : Cell) : nb ∈ nbs → passable (st_grid σ) cc nb.
Proof. intros (s & w & Hs & Hw & Hwall & _)%nbs_spec. now exists s, w. Qed.

Lemma nbs_not_closed (nb : Cell) : nb ∈ nbs → st_closed σ !! key_of nb = None.
Proof. now intros (s & w & _ & _ & _ & Hc)%nbs_spec. Qed.

Lemma open_after (k : string) (n : Node) :
  Obj.get k (Obj.del (key_of cc) o') = Some n →
  k ≠ key_of cc
  ∧ (Obj.get k (st_open σ) = Some n
     ∨ ∃ nb, nb ∈ nbs ∧ k = key_of nb ∧ n = neighbourNode_of (key_of cc, cn) t nb).
Proof.
  intros Hk. assert (Hne : k ≠ key_of cc).
  { intros ->. rewrite Obj_get_del_eq in Hk; [discriminate|apply Hrel]. }
  split; [exact Hne|]. rewrite Obj_get_del_ne in Hk by congruence.
  now apply (vr_from _ _ _ _ _ Hrel).
Qed.

Lemma neighbour_not_start (v : Cell) :
  passable (st_grid σ) cc v → st_closed σ !! key_of v = None → v ≠ start.
Proof.
  intros Hp Hv ->. destruct (decide (cc = start)) as [E|E].
  - apply passable_neq in Hp. congruence.
  - pose proof (selected_other t σ Hinv cc cn Hget E) as Hs.
    rewrite key_of_start in Hv. congruence.
Qed.

Lemma new_node_parent (nb : Cell) :
  nb ∈ nbs →
  ∃ p np, parent (neighbourNode_of (key_of cc, cn) t nb) = key_of p
          ∧ <[key_of cc := cn]> (st_closed σ) !! key_of p = Some np
          ∧ passable (st_grid σ) p nb
          ∧ moveCost (neighbourNode_of (key_of cc, cn) t nb) = moveCost np + 1
          ∧ distCost (neighbourNode_of (key_of cc, cn) t nb) = manhattan nb t
          ∧ totalCost (neighbourNode_of (key_of cc, cn) t nb)
            = moveCost (neighbourNode_of (key_of cc, cn) t nb)
              + distCost (neighbourNode_of (key_of cc, cn) t nb).
Proof.
  intros Hin. exists cc, cn. simpl.
  split; [reflexivity|]. split; [apply lookup_insert_eq|].
  split; [now apply nbs_passable|]. repeat split; reflexivity.
Qed.

Lemma open_after_total (v : Cell) (n : Node) :
  v ≠ start → Obj.get (key_of v) o' = Some n →
  totalCost n = moveCost n + manhattan v t.
Proof.
  intros Hv Hn. apply (vr_from _ _ _ _ _ Hrel) in Hn as [Hn|(nb & Hin & E & ->)].
  - destruct (inv_parent t σ Hinv v n Hv) as (_ & _ & _ & _ & _ & _ & Hd & Ht);
      [now left|lia].
  - apply key_of_inj in E as <-. reflexivity.
Qed.

Lemma expand_inv :
  solver_inv t (mkStore (st_grid σ) (Obj.del (key_of cc) o')
                  (<[key_of cc := cn]> (st_closed σ))).
Proof.
  pose proof (selected_not_closed t σ Hinv cc cn Hget) as Hnc.
  split; simpl.
  - apply Obj_NoDup_del, Hrel.
  - intros k n [Hk|Hk].
    + apply open_after in Hk as [_ [Hk|(nb & _ & -> & _)]]; [|eauto].
      apply (inv_keys t σ Hinv k n). now left.
    + apply (closed_after σ cc cn) in Hk as [[-> _]|[_ Hk]]; [eauto|].
      apply (inv_keys t σ Hinv k n). now right.
  - intros k n Hk. apply open_after in Hk as [Hne [Hk|(nb & Hin & -> & _)]].
    + rewrite lookup_insert_ne by congruence. now apply (inv_disjoint t σ Hinv k n).
    + rewrite lookup_insert_ne by congruence. now apply nbs_not_closed.
  - right. destruct (decide (cc = start)) as [E|E].
    + rewrite <- key_of_start, <- E, (selected_start t σ Hinv cc cn Hget E).
      apply lookup_insert_eq.
    + apply (closed_kept t σ Hinv cc cn Hget). now apply (selected_other t σ Hinv cc cn Hget).
  - intros c n Hc [Hk|Hk]; simpl in Hk.
    + apply open_after in Hk as [_ [Hk|(nb & Hin & E & ->)]].
      * apply (old_node_parent t σ Hinv cc cn Hget); [assumption|now left].
      * apply key_of_inj in E as ->. now apply new_node_parent.
    + apply (closed_after σ cc cn) in Hk as [[E ->]|[_ Hk]].
      * apply key_of_inj in E as ->. apply (old_node_parent t σ Hinv cc cn Hget); [assumption|now left].
      * apply (old_node_parent t σ Hinv cc cn Hget); [assumption|now right].
  - intros k n [Hk|Hk]; simpl in Hk.
    + apply open_after in Hk as [_ [Hk|(nb & Hin & _ & ->)]].
      * apply (inv_nonneg t σ Hinv k n). now left.
      * simpl. assert (0 ≤ moveCost cn); [|lia].
        apply (inv_nonneg t σ Hinv (key_of cc) cn). now left.
    + apply (closed_after σ cc cn) in Hk as [[_ ->]|[_ Hk]].
      * apply (inv_nonneg t σ Hinv (key_of cc) cn). now left.
      * apply (inv_nonneg t σ Hinv k n). now right.
  - intros c n p Hk Hp. apply (closed_after σ cc cn) in Hk as [[E ->]|[_ Hk]].
    + apply key_of_inj in E as ->.
      now apply (selected_optimal t σ Hinv cc cn Hget Hmin).
    + now apply (inv_optimal t σ Hinv c n p).
  - intros u nu v Hu Huv. apply (closed_after σ cc cn) in Hu as [[E ->]|[Hne Hu]].
    + apply key_of_inj in E as ->.
      destruct (st_closed σ !! key_of v) as [nv|] eqn:Hv.
      { left. exists nv. now apply (closed_kept t σ Hinv cc cn Hget). }
      right. assert (Hin : v ∈ nbs).
      { apply nbs_spec. destruct Huv as (s & w & Hs & Hw & Hwall). now exists s, w. }
      destruct (vr_nbs _ _ _ _ _ Hrel v Hin) as (n' & Hn' & Hle).
      exists n'. split.
      * rewrite Obj_get_del_ne; [exact Hn'|].
        intros E%key_of_inj. apply passable_neq in Huv. congruence.
      * pose proof (open_after_total v n' (neighbour_not_start v Huv Hv) Hn') as Ht.
        simpl in Hle. lia.
    + assert (Hsc : st_closed σ !! "0,0" = Some startNode).
      { destruct (inv_start t σ Hinv) as [[_ He]|Hs]; [|exact Hs].
        rewrite He, lookup_empty in Hu. discriminate. }
      destruct (inv_frontier t σ Hinv u nu v Hu Huv) as [[nv Hv]|(nv & Hv & Hle)].
      { left. exists nv. now apply (closed_kept t σ Hinv cc cn Hget). }
      destruct (decide (key_of v = key_of cc)) as [E|E].
      { left. exists cn. rewrite E. apply lookup_insert_eq. }
      right. destruct (vr_old _ _ _ _ _ Hrel _ _ Hv) as (n' & Hn' & Hle').
      exists n'. split; [now rewrite Obj_get_del_ne by congruence|].
      pose proof (open_not_start t σ Hinv v nv Hsc Hv) as Hvs.
      pose proof (open_total t σ Hinv v nv Hsc Hv) as Htv.
      pose proof (open_after_total v n' Hvs Hn') as Ht'. lia.
  - rewrite lookup_insert_ne by assumption. apply (inv_goal t σ Hinv).
Qed.

End Expand.

(** ** findPath returns, and what it returns *)

Lemma unclosed_insert (σ : Store) (k : string) (n : Node) (o : list (string * Node)) :
  k ∈ ({[key_of start]} ∪ dom (st_grid σ) : gset string) →
  st_closed σ !! k = None →
  (unclosed (mkStore (st_grid σ) o (<[k := n]> (st_closed σ))) + 1 = unclosed σ)%nat.
Proof.
  intros Hin Hk. unfold unclosed. simpl. rewrite dom_insert_L.
  apply size_difference_step; [exact Hin|]. now apply not_elem_of_dom.
Qed.

(** One turn of the loop, from a store that satisfies the invariant: it
    does not throw; either it goes on, the invariant holds again and one
    more cell is closed, or it returns the closed set with the goal. *)
Lemma findPath_step_spec (t : Cell) (σ : Store) :
  solver_inv t σ → st_open σ ≠ [] →
  (∃ σ', findPath_step (key_of t) σ = Some (inl σ')
         ∧ solver_inv t σ' ∧ st_grid σ' = st_grid σ
         ∧ (unclosed σ' < unclosed σ)%nat)
  ∨ (∃ σ' closed,
        findPath_step (key_of t) σ = Some (inr (σ', Found closed (key_of t)))
        ∧ st_grid σ' = st_grid σ ∧ st_closed σ' = closed
        ∧ closed_ok (st_grid σ) t closed).
Proof.
  intros Hinv Hne.
  destruct (getLowestCostNodeKey_spec (st_open σ) (inv_nodup t σ Hinv) Hne)
    as (k & Hk & Hfirst).
  destruct (first_minimum_get _ _ (inv_nodup t σ Hinv) Hfirst) as (cn & Hget & Hmin).
  destruct (inv_keys t σ Hinv k cn) as [cc ->]; [now left|].
  unfold findPath_step. rewrite Hk, Hget. cbn [fst snd].
  destruct (String.eqb_spec (key_of cc) (key_of t)) as [E|E].
  - right. eexists _, _. split; [reflexivity|]. split; [reflexivity|].
    split; [reflexivity|]. apply key_of_inj in E.
    now apply (found_ok t σ Hinv cc cn Hget Hmin).
  - left. rewrite getViableNeighbours_eq.
    set (nbs := _ <$> _).
    destruct (visitNeighbours_spec (key_of cc, cn) t nbs (st_open σ)
                (inv_nodup t σ Hinv)) as (o' & Ho' & Hrel).
    rewrite Ho'. eexists. split; [reflexivity|]. split; [|split; [reflexivity|]].
    + apply (expand_inv t σ Hinv cc cn Hget Hmin nbs o'); try assumption.
      apply getViableNeighbours_eq.
    + pose proof (unclosed_insert σ (key_of cc) cn (Obj.del (key_of cc) o')
                    (selected_in_bounds t σ Hinv cc cn Hget)
                    (selected_not_closed t σ Hinv cc cn Hget)). lia.
Qed.

Lemma initialStore_inv (t : Cell) (g : Grid) : solver_inv t (initialStore g).
Proof.
  unfold initialStore.
  split; unfold node_at; cbn [st_open st_closed st_grid].
  - apply NoDup_singleton.
  - intros k n [Hk|Hk].
    + apply Obj_get_singleton in Hk as [-> _]. now exists start.
    + now rewrite lookup_empty in Hk.
  - intros k n _. apply lookup_empty.
  - now left.
  - intros c n Hc [Hk|Hk].
    + apply Obj_get_singleton in Hk as [E _]. now apply key_of_eq_start in E.
    + now rewrite lookup_empty in Hk.
  - intros k n [Hk|Hk].
    + now apply Obj_get_singleton in Hk as [_ ->].
    + now rewrite lookup_empty in Hk.
  - intros c n p Hk. now rewrite lookup_empty in Hk.
  - intros u nu v Hk. now rewrite lookup_empty in Hk.
  - apply lookup_empty.
Qed.

Lemma initialStore_unclosed (g : Grid) : (unclosed (initialStore g) < findPath_fuel g)%nat.
Proof.
  unfold unclosed, findPath_fuel. simpl. rewrite dom_empty_L, difference_empty_L.
  rewrite size_union_alt, size_singleton.
  assert (size (dom g ∖ {[key_of start]}) ≤ size (dom g))%nat
    by (apply subseteq_size; set_solver).
  rewrite size_dom in *. lia.
Qed.

(** The loop, from a store that satisfies the invariant, with enough fuel:
    it returns; the grid is the one it started with. *)
Lemma findPath_loop_spec (t : Cell) (fuel : nat) (σ : Store) :
  solver_inv t σ → (unclosed σ < fuel)%nat →
  ∃ σ' r, findPath_loop fuel (key_of t) σ = Done (σ', r)
          ∧ st_grid σ' = st_grid σ
          ∧ match r with
            | NotFound => st_open σ' = [] ∧ solver_inv t σ'
            | Found closed f =>
                f = key_of t ∧ st_closed σ' = closed ∧ closed_ok (st_grid σ) t closed
            end.
Proof.
  revert σ. induction fuel as [|fuel IH]; intros σ Hinv Hfuel; [lia|].
  simpl findPath_loop. destruct (st_open σ) as [|e o] eqn:Ho.
  - exists σ, NotFound. split; [reflexivity|]. split; [reflexivity|]. now split.
  - destruct (findPath_step_spec t σ Hinv) as
      [(σ' & Hstep & Hinv' & Hg & Hlt)|(σ' & closed & Hstep & Hg & Hc & Hok)];
      [rewrite Ho; discriminate| |]; rewrite Hstep.
    + destruct (IH σ' Hinv' ltac:(lia)) as (σ'' & r & Hrun & Hg' & Hr).
      exists σ'', r. split; [exact Hrun|]. split; [congruence|].
      destruct r; [now rewrite <- Hg|exact Hr].
    + exists σ', (Found closed (key_of t)). split; [reflexivity|].
      split; [assumption|]. split; [reflexivity|]. now split.
Qed.

Lemma reachable_inv (t : Cell) (g : Grid) (σ : Store) :
  reachable (key_of t) (initialStore g) σ → solver_inv t σ ∧ st_grid σ = g.
Proof.
  induction 1 as [|σ σ' Hr [IH Hg] Hne Hstep].
  - split; [apply initialStore_inv|reflexivity].
  - destruct (findPath_step_spec t σ IH Hne) as
      [(σ1 & Hs & Hinv' & Hg' & _)|(σ1 & closed & Hs & _)];
      rewrite Hs in Hstep; [|discriminate].
    injection Hstep as <-. split; [assumption|congruence].
Qed.

(** [findPath] returns; on success the closed set is as [closed_ok] says,
    and it answers not-found only when no route leads to the goal. *)
Lemma findPath_run_spec (g : Grid) (w h : Z) :
  ∃ σ' r, findPath_run (findPath_fuel g) g w h = Done (σ', r)
          ∧ st_grid σ' = g
          ∧ match r with
            | NotFound => ¬ ∃ p, route (passable g) start (goal_of w h) p
            | Found closed f =>
                f = finishCell_of w h ∧ closed_ok g (goal_of w h) closed
            end.
Proof.
  unfold findPath_run. rewrite key_of_goal.
  destruct (findPath_loop_spec (goal_of w h) (findPath_fuel g) (initialStore g)
              (initialStore_inv _ g) (initialStore_unclosed g))
    as (σ' & r & Hrun & Hg & Hr).
  exists σ', r. split; [exact Hrun|]. split; [exact Hg|].
  destruct r as [closed f|]; [now destruct Hr as (-> & _ & Hok)|].
  destruct Hr as [Ho Hinv]. simpl in Hg. intros (p & Hhead & Hlast & Hwalk).
  assert (Hsc : st_closed σ' !! "0,0" = Some startNode).
  { destruct (inv_start _ σ' Hinv) as [[Ho' _]|Hs]; [congruence|exact Hs]. }
  destruct (route_boundary (λ c, is_Some (st_closed σ' !! key_of c)) p start (goal_of w h))
    as (p1 & a & b & p2 & -> & [na Ha] & Hb); try assumption.
  - intros x. destruct (st_closed σ' !! key_of x); [left; eauto|right].
    now intros [? ?].
  - rewrite key_of_start. eauto.
  - rewrite (inv_goal _ σ' Hinv). now intros [? ?].
  - apply walk_app_inv in Hwalk as (_ & Hab & _). rewrite <- Hg in Hab.
    destruct (inv_frontier _ σ' Hinv a na b Ha Hab) as [[nb Hnb]|(nb & Hnb & _)].
    + apply Hb. eauto.
    + rewrite Ho in Hnb. discriminate.
Qed.

Lemma findPath_spec (g : Grid) (w h : Z) :
  ∃ r, findPath g w h = Done r
       ∧ match r with
         | NotFound => ¬ ∃ p, route (passable g) start (goal_of w h) p
         | Found closed f =>
             f = finishCell_of w h ∧ closed_ok g (goal_of w h) closed
         end.
Proof.
  destruct (findPath_run_spec g w h) as (σ' & r & Hrun & _ & Hr).
  exists r. unfold findPath. now rewrite Hrun.
Qed.

(** ** The walk along the parent links *)

(** The walk along the parent links of a closed cell ends at the start;
    read backwards, it is a route of as many steps as the [moveCost] of
    the cell. *)
Lemma drawFoundPath_route (g : Grid) (t : Cell) (closed : gmap string Node) :
  closed_ok g t closed →
  ∀ (n : nat) (c : Cell) (node : Node),
    closed !! key_of c = Some node → moveCost node = Z.of_nat n →
    ∃ p, route (passable g) start c p ∧ length p = S n
         ∧ ∀ fuel, (n < fuel)%nat →
                   drawFoundPath fuel closed (key_of c) = Done (key_of <$> reverse p).
Proof.
  intros Hok. induction n as [|n IH]; intros c node Hc Hcost.
  - assert (c = start) as ->.
    { destruct (decide (c = start)) as [|Hne]; [assumption|].
      destruct (ok_parent g t closed Hok c node Hne Hc) as (p & np & _ & Hp & _ & Hm & _).
      pose proof (ok_nonneg g t closed Hok _ _ Hp). lia. }
    exists [start]. split; [now split|]. split; [reflexivity|].
    intros fuel Hfuel. destruct fuel as [|fuel]; [lia|]. reflexivity.
  - assert (Hne : c ≠ start).
    { intros ->. rewrite key_of_start, (ok_start g t closed Hok) in Hc.
      injection Hc as <-. simpl in Hcost. lia. }
    destruct (ok_parent g t closed Hok c node Hne Hc)
      as (p' & np & Hpar & Hp' & Hstep & Hm & _).
    destruct (IH p' np Hp' ltac:(lia)) as (q & (Hhead & Hlast & Hwalk) & Hlen & Hrun).
    exists (q ++ [c]). split; [split; [|split]|split].
    + destruct q; [discriminate|exact Hhead].
    + apply last_snoc.
    + now apply (walk_snoc _ q p' c).
    + rewrite length_app, Hlen. simpl. lia.
    + intros fuel Hfuel. destruct fuel as [|fuel]; [lia|].
      cbn [drawFoundPath].
      destruct (String.eqb_spec (key_of c) "0,0") as [E|_];
        [now apply key_of_eq_start in E|].
      rewrite Hc, Hpar, Hrun by lia.
      now rewrite reverse_snoc, fmap_cons.
Qed.

Lemma closed_ok_route (g : Grid) (t : Cell) (closed : gmap string Node) :
  closed_ok g t closed →
  ∃ p node, closed !! key_of t = Some node
            ∧ route (passable g) start t p
            ∧ Z.of_nat (length p) = moveCost node + 1
            ∧ (∀ r, route (passable g) start t r → (length p ≤ length r)%nat)
            ∧ ∀ fuel, (length p ≤ fuel)%nat →
                      drawFoundPath fuel closed (key_of t) = Done (key_of <$> reverse p).
Proof.
  intros Hok. destruct (ok_goal g t closed Hok) as [node Hnode].
  pose proof (ok_nonneg g t closed Hok _ _ Hnode) as Hpos.
  destruct (drawFoundPath_route g t closed Hok (Z.to_nat (moveCost node)) t node Hnode)
    as (p & Hroute & Hlen & Hrun); [lia|].
  exists p, node. split; [exact Hnode|]. split; [exact Hroute|].
  split; [lia|]. split.
  - intros r Hr. pose proof (ok_optimal g t closed Hok t node r Hnode Hr). lia.
  - intros fuel Hfuel. apply Hrun. lia.
Qed.

Lemma route_passable_open (g : Grid) (a b : Cell) (p : list Cell) :
  wall_symmetric g → present g a →
  (route (passable g) a b p ↔ route (open_step g) a b p).
Proof.
  intros Hsym Ha. unfold route. split; intros (Hh & Hl & Hw);
    (split; [exact Hh|split; [exact Hl|]]);
    now apply (walk_passable_open g p a Hsym Hh Ha).
Qed.

Lemma example_grid_symmetric : wall_symmetric example_grid.
Proof.
  set (g1 := <[key_of (toward Right (0, 0)) := set_wall (opposite Right) false closedWalls]>
               (<[key_of (0, 0) := set_wall Right false closedWalls]> (populateGrid 2 2))).
  assert (E : example_grid
              = <[key_of (toward Bottom (1, 0)) := set_wall (opposite Bottom) false closedWalls]>
                  (<[key_of (1, 0) := set_wall Bottom false (W.mk true true false true)]> g1))
    by (vm_compute; reflexivity).
  rewrite E. apply removed_symmetric; [|vm_compute; reflexivity..].
  apply removed_symmetric; [|vm_compute; reflexivity..].
  apply populateGrid_symmetric.
Qed.

Lemma example_grid_start : present example_grid start.
Proof. vm_compute. eauto. Qed.

Lemma getViableNeighbours_far_wall_witness :
  (toward Right start ∈ [((1, 0) : Cell)] ↔ is_open example_grid start Right = true)
  ∧ toward Right start ∈ [((1, 0) : Cell)]
  ∧ ∃ nbs, getViableNeighbours lopsided_grid (key_of start) ∅ = Some nbs
           ∧ ¬ (toward Right start ∈ nbs ↔ is_open lopsided_grid start Right = true).
Proof.
  split; [|split].
  - apply (proj1 (proj2 (proj2 getViableNeighbours_far_wall))
             example_grid start ∅ Right [(1, 0)]).
    + apply example_grid_symmetric.
    + apply example_grid_start.
    + vm_compute. reflexivity.
    + apply lookup_empty.
  - apply list_elem_of_singleton. reflexivity.
  - destruct (proj1 (proj2 (proj2 (proj2 getViableNeighbours_far_wall)))
                lopsided_grid start ∅ Right closedWalls (W.mk true true false true))
      as (nbs & Hnbs & Hiff).
    + vm_compute. reflexivity.
    + vm_compute. reflexivity.
    + apply lookup_empty.
    + exists nbs. split; [exact Hnbs|]. intros H. apply Hiff in H. discriminate H.
Defined.

(** ** What findPath finds *)

(** On every grid, for the steps [getViableNeighbours] allows: when
    [findPath] returns a closed set, the parent links lead from the goal
    back to the start along a route that no other route undercuts. *)
Lemma shortest_among_viable_steps (g : Grid) (w h : Z) (closed : gmap string Node)
    (f : string) :
  findPath g w h = Done (Found closed f) →
  ∃ path,
    (∀ fuel, (length path ≤ fuel)%nat →
             drawFoundPath fuel closed f = Done (key_of <$> reverse path))
    ∧ route (passable g) start (goal_of w h) path
    ∧ ∀ r, route (passable g) start (goal_of w h) r → (length path ≤ length r)%nat.
Proof.
  intros Hrun.
  destruct (findPath_spec g w h) as (r & Hr & Hres).
  rewrite Hrun in Hr. injection Hr as <-. destruct Hres as [-> Hok].
  destruct (closed_ok_route g (goal_of w h) closed Hok)
    as (p & node & _ & Hroute & _ & Hmin & Hfollow).
  exists p. split; [|now split].
  intros fuel Hfuel. rewrite key_of_goal. now apply Hfollow.
Qed.

(** C2. On a grid with symmetric walls (which, as every grid of the data
    model, holds the start cell), when [findPath] returns a closed set,
    following the parent links from the goal reaches the start, and the
    cells passed, read from the start, are a route along open passages
    from (0,0) to the goal that no other such route undercuts in number of
    cells. *)
Theorem findPath_shortest (g : Grid) (w h : Z) (closed : gmap string Node) (f : string) :
  wall_symmetric g → present g start →
  findPath g w h = Done (Found closed f) →
  ∃ path,
    (∀ fuel, (length path ≤ fuel)%nat →
             drawFoundPath fuel closed f = Done (key_of <$> reverse path))
    ∧ route (open_step g) start (goal_of w h) path
    ∧ ∀ r, route (open_step g) start (goal_of w h) r → (length path ≤ length r)%nat.
Proof.
  intros Hsym Hstart Hrun.
  destruct (shortest_among_viable_steps g w h closed f Hrun)
    as (p & Hfollow & Hroute & Hmin).
  exists p. split; [exact Hfollow|]. split.
  - now apply route_passable_open.
  - intros r' Hr'. apply Hmin. now apply route_passable_open.
Qed.

Lemma findPath_shortest_witness :
  ∃ closed path,
    findPath example_grid 2 2 = Done (Found closed "1,1")
    ∧ drawFoundPath 3 closed "1,1" = Done (key_of <$> reverse path)
    ∧ route (open_step example_grid) start (1, 1) path
    ∧ ∀ r, route (open_step example_grid) start (1, 1) r → (length path ≤ length r)%nat.
Proof.
  assert (Hrun : ∃ closed, findPath example_grid 2 2 = Done (Found closed "1,1"))
    by (eexists; vm_compute; reflexivity).
  destruct Hrun as [closed Hrun].
  destruct (findPath_shortest example_grid 2 2 closed "1,1"
              example_grid_symmetric example_grid_start Hrun)
    as (path & Hfollow & Hroute & Hmin).
  exists closed, path. split; [exact Hrun|]. split; [|split; assumption].
  apply Hfollow.
  specialize (Hmin [(0, 0); (1, 0); (1, 1)]). simpl in Hmin. apply Hmin.
  repeat split; [exists Right|exists Bottom]; split; vm_compute; reflexivity.
Defined.

Lemma no_route_not_found (g : Grid) (w h : Z) :
  (¬ ∃ p, route (passable g) start (goal_of w h) p) →
  findPath g w h = Done NotFound.
Proof.
  intros Hno. destruct (findPath_spec g w h) as (r & Hr & Hres).
  destruct r as [closed f|]; [|exact Hr].
  destruct Hres as [_ Hok]. exfalso. apply Hno.
  destruct (closed_ok_route g (goal_of w h) closed Hok) as (p & _ & _ & Hroute & _).
  now exists p.
Qed.

Lemma route_last_step (E : Cell → Cell → Prop) (a b : Cell) (p : list Cell) :
  route E a b p → a ≠ b → ∃ x, E x b.
Proof.
  intros (Hh & Hl & Hw) Hne.
  destruct (route_boundary (λ c, c ≠ b) p a b) as (p1 & x & y & p2 & -> & _ & Hy);
    try assumption.
  - intros c. destruct (decide (c = b)); [right|left]; tauto.
  - tauto.
  - apply walk_app_inv in Hw as (_ & Hxy & _).
    destruct (decide (y = b)) as [->|]; [|contradiction]. now exists x.
Qed.

(** C7 (as the code has it). When no route leads from (0,0) to the goal,
    [findPath] returns [undefined]: it does so for the steps
    [getViableNeighbours] allows on any grid, hence for the open passages
    of a symmetric grid; in particular it does so when the goal cell is
    not the start cell and has its four walls closed. *)
Theorem findPath_not_found :
  (∀ (g : Grid) (w h : Z),
      (¬ ∃ p, route (passable g) start (goal_of w h) p) →
      findPath g w h = Done NotFound)
  ∧ (∀ (g : Grid) (w h : Z),
        wall_symmetric g → present g start →
        (¬ ∃ p, route (open_step g) start (goal_of w h) p) →
        findPath g w h = Done NotFound)
  ∧ (∀ (g : Grid) (w h : Z),
        goal_of w h ≠ start →
        g !! key_of (goal_of w h) = Some closedWalls →
        findPath g w h = Done NotFound).
Proof.
  split; [exact no_route_not_found|split].
  - intros g w h Hsym Hstart Hno. apply no_route_not_found.
    intros [p Hp]. apply Hno. exists p. now apply route_passable_open.
  - intros g w h Hne Hwalls. apply no_route_not_found.
    intros [p Hp].
    destruct (route_last_step _ _ _ _ Hp) as (x & s & w' & _ & Hw' & Hwall);
      [congruence|].
    rewrite Hwalls in Hw'. injection Hw' as <-. now destruct s.
Qed.

Lemma findPath_not_found_witness :
  findPath (populateGrid 2 2) 2 2 = Done NotFound.
Proof.
  apply (proj2 (proj2 findPath_not_found)).
  - discriminate.
  - rewrite lookup_populateGrid_cell. simpl. reflexivity.
Defined.

(** On the grid of one cell the goal cell has its four walls closed and is
    the start cell: [findPath] returns a closed set, not [undefined]. *)
Lemma isolated_goal_found :
  populateGrid 1 1 !! key_of (goal_of 1 1) = Some closedWalls
  ∧ findPath (populateGrid 1 1) 1 1 ≠ Done NotFound
  ∧ findPath (populateGrid 1 1) 1 1 = Done (Found {["0,0" := startNode]} "0,0").
Proof.
  assert (E : findPath (populateGrid 1 1) 1 1 = Done (Found {["0,0" := startNode]} "0,0"))
    by (vm_compute; reflexivity).
  split; [vm_compute; reflexivity|]. split; [|exact E]. rewrite E. discriminate.
Qed.

(** ** The frontier, the nodes, and the grid during a search *)

(** A turn of the loop that goes on: the key selected is closed with its
    node, and the frontier is what the neighbour loop left, less that
    key. *)
Lemma findPath_step_shape (t : Cell) (σ σ' : Store) :
  solver_inv t σ → st_open σ ≠ [] →
  findPath_step (key_of t) σ = Some (inl σ') →
  ∃ cc cn nbs o',
    getLowestCostNodeKey (st_open σ) = Some (key_of cc)
    ∧ Obj.get (key_of cc) (st_open σ) = Some cn
    ∧ visited_rel (key_of cc, cn) t nbs (st_open σ) o'
    ∧ σ' = mkStore (st_grid σ) (Obj.del (key_of cc) o')
             (<[key_of cc := cn]> (st_closed σ)).
Proof.
  intros Hinv Hne.
  destruct (getLowestCostNodeKey_spec (st_open σ) (inv_nodup t σ Hinv) Hne)
    as (k & Hk & Hfirst).
  destruct (first_minimum_get _ _ (inv_nodup t σ Hinv) Hfirst) as (cn & Hget & Hmin).
  destruct (inv_keys t σ Hinv k cn) as [cc ->]; [now left|].
  unfold findPath_step. rewrite Hk, Hget. cbn [fst snd].
  destruct (String.eqb (key_of cc) (key_of t)); [discriminate|].
  rewrite getViableNeighbours_eq. set (nbs := _ <$> _).
  destruct (visitNeighbours_spec (key_of cc, cn) t nbs (st_open σ)
              (inv_nodup t σ Hinv)) as (o' & Ho' & Hrel).
  rewrite Ho'. intros [= <-]. now exists cc, cn, nbs, o'.
Qed.

(** C5. In every store the loop of [findPath] reaches with a frontier that
    is not empty, the key selected is that of the first entry of least
    [totalCost] in the order of the frontier; and that order is the order
    of insertion: a turn of the loop closes the selected key, keeps the
    other keys of the frontier in the order they had, and puts the keys it
    inserts after them. *)
Theorem frontier_selection (g : Grid) (w h : Z) (σ : Store) :
  reachable (finishCell_of w h) (initialStore g) σ →
  st_open σ ≠ [] →
  ∃ k, getLowestCostNodeKey (st_open σ) = Some k
       ∧ first_minimum (st_open σ) k
       ∧ ∀ σ', findPath_step (finishCell_of w h) σ = Some (inl σ') →
               ∃ n fresh,
                 st_closed σ' = <[k := n]> (st_closed σ)
                 ∧ Obj.keys (st_open σ')
                   = filter (λ k', k' ≠ k) (Obj.keys (st_open σ)) ++ fresh
                 ∧ ∀ k', k' ∈ fresh → k' ∉ Obj.keys (st_open σ).
Proof.
  rewrite key_of_goal. intros [Hinv _]%reachable_inv Hne.
  destruct (getLowestCostNodeKey_spec (st_open σ) (inv_nodup _ σ Hinv) Hne)
    as (k & Hk & Hfirst).
  exists k. split; [exact Hk|]. split; [exact Hfirst|].
  intros σ' Hstep.
  destruct (findPath_step_shape _ σ σ' Hinv Hne Hstep)
    as (cc & cn & nbs & o' & Hk' & Hget & Hrel & ->).
  rewrite Hk in Hk'. injection Hk' as ->.
  destruct (vr_keys _ _ _ _ _ Hrel) as (fresh & Hkeys & Hfresh).
  exists cn, fresh. cbn [st_closed st_open]. split; [reflexivity|]. split; [|exact Hfresh].
  rewrite Obj_keys_del by apply Hrel. rewrite Hkeys, filter_app. f_equal.
  apply filter_neq_absent. intros Hin. apply (Hfresh _ Hin).
  now apply (Obj_get_Some_key _ _ cn).
Qed.

Lemma frontier_selection_witness :
  (∃ σ n1 n2,
      findPath_step (finishCell_of 2 2) (initialStore open_grid) = Some (inl σ)
      ∧ st_open σ = [("0,1", n1); ("1,0", n2)]
      ∧ totalCost n1 = 2 ∧ totalCost n2 = 2
      ∧ getLowestCostNodeKey (st_open σ) = Some "0,1"
      ∧ first_minimum (st_open σ) "0,1")
  ∧ (∃ σ n1 n2,
        findPath_step (finishCell_of 2 1) (initialStore open_grid) = Some (inl σ)
        ∧ st_open σ = [("0,1", n1); ("1,0", n2)]
        ∧ totalCost n1 = 3 ∧ totalCost n2 = 1
        ∧ getLowestCostNodeKey (st_open σ) = Some "1,0"
        ∧ first_minimum (st_open σ) "1,0").
Proof.
  split.
  - assert (Hstep : ∃ σ n1 n2,
               findPath_step (finishCell_of 2 2) (initialStore open_grid) = Some (inl σ)
               ∧ st_open σ = [("0,1", n1); ("1,0", n2)]
               ∧ totalCost n1 = 2 ∧ totalCost n2 = 2
               ∧ getLowestCostNodeKey (st_open σ) = Some "0,1").
    { eexists _, _, _. split; [vm_compute; reflexivity|].
      split; [reflexivity|]. split; [reflexivity|]. split; reflexivity. }
    destruct Hstep as (σ & n1 & n2 & Hs & Ho & H1 & H2 & Hmin).
    destruct (frontier_selection open_grid 2 2 σ) as (k & Hk & Hfirst & _).
    + eapply reachable_step; [apply reachable_init|discriminate|exact Hs].
    + rewrite Ho. discriminate.
    + exists σ, n1, n2. split; [exact Hs|]. split; [exact Ho|].
      split; [exact H1|]. split; [exact H2|]. split; [exact Hmin|].
      rewrite Hk in Hmin. injection Hmin as <-. exact Hfirst.
  - assert (Hstep : ∃ σ n1 n2,
               findPath_step (finishCell_of 2 1) (initialStore open_grid) = Some (inl σ)
               ∧ st_open σ = [("0,1", n1); ("1,0", n2)]
               ∧ totalCost n1 = 3 ∧ totalCost n2 = 1
               ∧ getLowestCostNodeKey (st_open σ) = Some "1,0").
    { eexists _, _, _. split; [vm_compute; reflexivity|].
      split; [reflexivity|]. split; [reflexivity|]. split; reflexivity. }
    destruct Hstep as (σ & n1 & n2 & Hs & Ho & H1 & H2 & Hmin).
    destruct (frontier_selection open_grid 2 1 σ) as (k & Hk & Hfirst & _).
    + eapply reachable_step; [apply reachable_init|discriminate|exact Hs].
    + rewrite Ho. discriminate.
    + exists σ, n1, n2. split; [exact Hs|]. split; [exact Ho|].
      split; [exact H1|]. split; [exact H2|]. split; [exact Hmin|].
      rewrite Hk in Hmin. injection Hmin as <-. exact Hfirst.
Defined.

Lemma start_node_only (t : Cell) (σ : Store) (n : Node) :
  solver_inv t σ → node_at σ "0,0" n → n = startNode.
Proof.
  intros Hinv Hn. destruct (inv_start t σ Hinv) as [[Ho Hc]|Hs].
  - destruct Hn as [Hn|Hn].
    + rewrite Ho in Hn. now apply Obj_get_singleton in Hn as [_ ->].
    + rewrite Hc, lookup_empty in Hn. discriminate.
  - destruct Hn as [Hn|Hn]; [|congruence].
    apply (inv_disjoint t σ Hinv) in Hn. congruence.
Qed.

(** C6 (as the code has it). Every node [findPath] makes for a neighbour
    has as [distCost] the Manhattan distance from its cell to the goal
    cell, and every node has [totalCost = moveCost + distCost]; the start
    node is made with [distCost] 0.  This holds of the nodes of every
    store the loop reaches and of the closed set returned, and the node
    [visitNeighbour] puts in the frontier is [neighbourNode_of]. *)
Theorem node_costs (g : Grid) (w h : Z) :
  (∀ σ k n,
      reachable (finishCell_of w h) (initialStore g) σ → node_at σ k n →
      totalCost n = moveCost n + distCost n
      ∧ ((k = key_of start ∧ n = startNode ∧ distCost n = 0)
         ∨ (∃ c, k = key_of c ∧ c ≠ start
                 ∧ distCost n = manhattan c (goal_of w h))))
  ∧ (∀ closed f k n,
        findPath g w h = Done (Found closed f) → closed !! k = Some n →
        totalCost n = moveCost n + distCost n
        ∧ ((k = key_of start ∧ n = startNode ∧ distCost n = 0)
           ∨ (∃ c, k = key_of c ∧ c ≠ start
                   ∧ distCost n = manhattan c (goal_of w h))))
  ∧ (∀ cur o nb,
        ∃ o', visitNeighbour cur (finishCell_of w h) o nb = Some o'
              ∧ ∀ k n, Obj.get k o' = Some n →
                       Obj.get k o = Some n
                       ∨ (k = key_of nb ∧ n = neighbourNode_of cur (goal_of w h) nb)).
Proof.
  split; [|split].
  - intros σ k n Hr Hn. rewrite key_of_goal in Hr.
    apply reachable_inv in Hr as [Hinv _].
    destruct (inv_keys _ σ Hinv k n Hn) as [c ->].
    destruct (decide (c = start)) as [->|Hne].
    + rewrite key_of_start in Hn. rewrite (start_node_only _ σ n Hinv Hn).
      split; [reflexivity|]. left. now repeat split.
    + destruct (inv_parent _ σ Hinv c n Hne Hn) as (_ & _ & _ & _ & _ & _ & Hd & Ht).
      split; [exact Ht|]. right. now exists c.
  - intros closed f k n Hrun Hk.
    destruct (findPath_spec g w h) as (r & Hr & Hres).
    rewrite Hrun in Hr. injection Hr as <-. destruct Hres as [_ Hok].
    destruct (ok_keys _ _ _ Hok k n Hk) as [c ->].
    destruct (decide (c = start)) as [->|Hne].
    + rewrite key_of_start, (ok_start _ _ _ Hok) in Hk. injection Hk as <-.
      split; [reflexivity|]. left. now repeat split.
    + destruct (ok_parent _ _ _ Hok c n Hne Hk) as (_ & _ & _ & _ & _ & _ & Hd & Ht).
      split; [exact Ht|]. right. now exists c.
  - intros cur o nb. rewrite key_of_goal, visitNeighbour_eq.
    eexists. split; [reflexivity|]. intros k n.
    destruct (Obj.get (key_of nb) o) as [old|] eqn:Hold.
    + destruct (_ <? _); [|now left].
      destruct (decide (key_of nb = k)) as [<-|Hne].
      * rewrite Obj_get_set_eq. intros [= <-]. now right.
      * rewrite Obj_get_set_ne by assumption. now left.
    + destruct (decide (key_of nb = k)) as [<-|Hne].
      * rewrite Obj_get_set_eq. intros [= <-]. now right.
      * rewrite Obj_get_set_ne by assumption. now left.
Qed.

Lemma node_costs_witness :
  ∃ σ n,
    findPath_step (finishCell_of 2 2) (initialStore example_grid) = Some (inl σ)
    ∧ Obj.get "1,0" (st_open σ) = Some n
    ∧ moveCost n = 1
    ∧ distCost n = manhattan (1, 0) (goal_of 2 2)
    ∧ distCost n = 1
    ∧ totalCost n = moveCost n + distCost n.
Proof.
  assert (Hstep : ∃ σ n,
             findPath_step (finishCell_of 2 2) (initialStore example_grid) = Some (inl σ)
             ∧ Obj.get "1,0" (st_open σ) = Some n
             ∧ moveCost n = 1).
  { eexists _, _. split; [vm_compute; reflexivity|]. split; reflexivity. }
  destruct Hstep as (σ & n & Hs & Hn & Hm).
  destruct (proj1 (node_costs example_grid 2 2) σ "1,0" n) as [Ht Hd].
  - eapply reachable_step; [apply reachable_init|discriminate|exact Hs].
  - left. exact Hn.
  - exists σ, n. split; [exact Hs|]. split; [exact Hn|]. split; [exact Hm|].
    destruct Hd as [(Hk & _)|(c & Hk & _ & Hd)]; [discriminate Hk|].
    change "1,0" with (key_of (1, 0)) in Hk. apply key_of_inj in Hk as <-.
    split; [exact Hd|]. split; [rewrite Hd; reflexivity|exact Ht].
Defined.

(** The start node of the closed set returned on the example grid has
    [distCost] 0, and the Manhattan distance from (0,0) to the goal (1,1)
    is 2. *)
Lemma start_node_heuristic_zero :
  ∃ closed n,
    findPath example_grid 2 2 = Done (Found closed "1,1")
    ∧ closed !! key_of start = Some n
    ∧ distCost n = 0
    ∧ manhattan start (goal_of 2 2) = 2
    ∧ distCost n ≠ manhattan start (goal_of 2 2).
Proof.
  eexists _, _. split; [vm_compute; reflexivity|].
  split; [vm_compute; reflexivity|]. split; [reflexivity|].
  split; [reflexivity|]. discriminate.
Qed.

(** C8. On the 2 by 2 grid whose only passages are (0,0)-(1,0) and
    (1,0)-(1,1), [findPath] returns a closed set with the goal "1,1"; the
    parent links lead from "1,1" over "1,0" to "0,0", and the goal node
    has [moveCost] 2. *)
Theorem findPath_example :
  ∃ closed n,
    findPath example_grid 2 2 = Done (Found closed "1,1")
    ∧ drawFoundPath (size closed) closed "1,1" = Done ["1,1"; "1,0"; "0,0"]
    ∧ key_of <$> [(0, 0); (1, 0); (1, 1)] = reverse ["1,1"; "1,0"; "0,0"]
    ∧ closed !! "1,1" = Some n
    ∧ moveCost n = 2
    ∧ parent n = "1,0".
Proof.
  eexists _, _. split; [vm_compute; reflexivity|].
  split; [vm_compute; reflexivity|]. split; [reflexivity|].
  split; [vm_compute; reflexivity|]. split; reflexivity.
Qed.

Lemma findPath_step_grid (f : string) (σ : Store) :
  match findPath_step f σ with
  | Some (inl σ') => st_grid σ' = st_grid σ
  | Some (inr (σ', _)) => st_grid σ' = st_grid σ
  | None => True
  end.
Proof.
  unfold findPath_step.
  destruct (getLowestCostNodeKey (st_open σ)) as [k|]; [|exact I].
  destruct (Obj.get k (st_open σ)) as [n|]; [|exact I]. cbn [fst snd].
  destruct (String.eqb k f); [reflexivity|].
  destruct (getViableNeighbours _ _ _) as [nbs|]; [|exact I].
  destruct (visitNeighbours _ _ _ _) as [o'|]; [reflexivity|exact I].
Qed.

Lemma findPath_loop_grid (fuel : nat) (f : string) (σ σ' : Store) (r : Result) :
  findPath_loop fuel f σ = Done (σ', r) → st_grid σ' = st_grid σ.
Proof.
  revert σ. induction fuel as [|fuel IH]; intros σ; simpl.
  - destruct (st_open σ); [|discriminate]. now intros [= <- _].
  - destruct (st_open σ); [now intros [= <- _]|].
    pose proof (findPath_step_grid f σ) as Hg.
    destruct (findPath_step f σ) as [[σ1|[σ1 r1]]|]; [| |discriminate].
    + intros H%IH. congruence.
    + intros [= <- _]. exact Hg.
Qed.

(** C9. [findPath] leaves the grid as it was given: whenever the call
    returns, with a closed set or with [undefined], the grid object of the
    store is the grid that was passed; and the call does return. *)
Theorem findPath_grid_unchanged (g : Grid) (w h : Z) :
  (∀ fuel σ' r, findPath_run fuel g w h = Done (σ', r) → st_grid σ' = g)
  ∧ (∃ σ' r, findPath_run (findPath_fuel g) g w h = Done (σ', r)
             ∧ findPath g w h = Done r
             ∧ st_grid σ' = g).
Proof.
  split.
  - intros fuel σ' r Hrun. now apply findPath_loop_grid in Hrun.
  - destruct (findPath_run_spec g w h) as (σ' & r & Hrun & Hg & _).
    exists σ', r. split; [exact Hrun|]. split; [|exact Hg].
    unfold findPath. now rewrite Hrun.
Qed.

Lemma findPath_grid_unchanged_witness :
  ∃ σ' r, findPath_run 4 example_grid 2 2 = Done (σ', r) ∧ st_grid σ' = example_grid.
Proof.
  assert (Hrun : ∃ σ' r, findPath_run 4 example_grid 2 2 = Done (σ', r))
    by (eexists _, _; vm_compute; reflexivity).
  destruct Hrun as (σ' & r & Hrun). exists σ', r. split; [exact Hrun|].
  exact (proj1 (findPath_grid_unchanged example_grid 2 2) 4%nat σ' r Hrun).
Defined.

(** * Further properties of the code *)

(** ** More on removeWall *)

Lemma opened_from_refl (g : Grid) : opened_from g g.
Proof. split; [reflexivity|]. intros k w w' s Hw Hw'. congruence. Qed.

Lemma opened_from_trans (g1 g2 g3 : Grid) :
  opened_from g1 g2 → opened_from g2 g3 → opened_from g1 g3.
Proof.
  intros [Hd12 Hw12] [Hd23 Hw23]. split; [congruence|].
  intros k w w' s Hw Hw' Hs.
  assert (is_Some (g2 !! k)) as [w2 Hw2].
  { apply elem_of_dom. rewrite Hd12. apply elem_of_dom. eauto. }
  eapply Hw23; eauto.
Qed.

Lemma wall_set_wall_false (s t : Side) (w : Walls) :
  wall t w = false → wall t (set_wall s false w) = false.
Proof. destruct s, t; simpl; congruence. Qed.

Lemma opened_from_removed (g : Grid) (a b : string) (s t : Side) (wa wb : Walls) :
  g !! a = Some wa → <[a := set_wall s false wa]> g !! b = Some wb →
  opened_from g (<[b := set_wall t false wb]> (<[a := set_wall s false wa]> g)).
Proof.
  intros Ha Hb. split.
  - rewrite !dom_insert_L.
    assert (a ∈ dom g) by (apply elem_of_dom; eauto).
    assert (b ∈ dom (<[a := set_wall s false wa]> g)) as Hbd by (apply elem_of_dom; eauto).
    rewrite dom_insert_L in Hbd. set_solver.
  - intros k w w' s0 Hw. rewrite lookup_insert. case_decide as Eb.
    + subst k. intros [= <-] Hs. apply wall_set_wall_false.
      rewrite lookup_insert in Hb. case_decide as Ea.
      * injection Hb as <-. apply wall_set_wall_false. congruence.
      * congruence.
    + rewrite lookup_insert. case_decide as Ea.
      * subst k. intros [= <-] Hs. apply wall_set_wall_false. congruence.
      * congruence.
Qed.

Lemma removeWall_Some_inv (g g' : Grid) (a b : Cell) :
  removeWall g a b = Some g' →
  ∃ s wa wb, directionDictionary (key_of (fst b - fst a, snd b - snd a)) = Some (s, opposite s)
             ∧ g !! key_of a = Some wa
             ∧ <[key_of a := set_wall s false wa]> g !! key_of b = Some wb
             ∧ g' = <[key_of b := set_wall (opposite s) false wb]>
                      (<[key_of a := set_wall s false wa]> g).
Proof.
  unfold removeWall.
  destruct (directionDictionary _) as [[w0 w1]|] eqn:Hd; [|discriminate].
  destruct (g !! key_of a) as [wa|] eqn:Ha; [|discriminate].
  destruct (_ !! key_of b) as [wb|] eqn:Hb; [|discriminate].
  intros [= <-]. exists w0, wa, wb.
  assert (w1 = opposite w0) as ->.
  { unfold directionDictionary in Hd.
    repeat (destruct (String.eqb _ _) in Hd; [now injection Hd as <- <-|]).
    discriminate. }
  now repeat split.
Qed.

Lemma directionDictionary_inv (d : Cell) (s t : Side) :
  directionDictionary (key_of d) = Some (s, t) → d = toward s (0, 0).
Proof.
  unfold directionDictionary.
  destruct (String.eqb_spec (key_of d) "0,-1") as [E|_].
  { intros [= <- _]. now apply (key_of_inj d (0, -1)). }
  destruct (String.eqb_spec (key_of d) "0,1") as [E|_].
  { intros [= <- _]. now apply (key_of_inj d (0, 1)). }
  destruct (String.eqb_spec (key_of d) "1,0") as [E|_].
  { intros [= <- _]. now apply (key_of_inj d (1, 0)). }
  destruct (String.eqb_spec (key_of d) "-1,0") as [E|_].
  { intros [= <- _]. now apply (key_of_inj d (-1, 0)). }
  discriminate.
Qed.

Lemma removeWall_Some_toward (g g' : Grid) (a b : Cell) :
  removeWall g a b = Some g' →
  ∃ s wa wb, b = toward s a ∧ g !! key_of a = Some wa ∧ g !! key_of b = Some wb
             ∧ g' = <[key_of b := set_wall (opposite s) false wb]>
                      (<[key_of a := set_wall s false wa]> g).
Proof.
  intros (s & wa & wb & Hd & Ha & Hb & ->)%removeWall_Some_inv.
  apply directionDictionary_inv in Hd.
  assert (Hs : b = toward s a).
  { destruct a as [ax ay], b as [bx bay], s; simpl in *; injection Hd as H1 H2;
      f_equal; lia. }
  exists s, wa, wb. split; [exact Hs|]. split; [exact Ha|].
  rewrite lookup_insert_ne in Hb by (rewrite Hs; apply key_of_toward_neq).
  now split.
Qed.

Lemma adjacent_sym (a b : Cell) : adjacent a b → adjacent b a.
Proof. unfold adjacent, manhattan. destruct a, b; simpl. lia. Qed.

Lemma removeWall_is_Some (g : Grid) (a b : Cell) :
  is_Some (removeWall g a b) ↔ adjacent a b ∧ present g a ∧ present g b.
Proof.
  split.
  - intros [g' (s & wa & wb & -> & Ha & Hb & _)%removeWall_Some_toward].
    split; [apply adjacent_toward; eauto|]. unfold present. eauto.
  - intros ([s ->]%adjacent_toward & [wa Ha] & [wb Hb]).
    rewrite (removeWall_toward g a s wa wb Ha Hb). eauto.
Qed.

Lemma removeWall_None_iff (g : Grid) (a b : Cell) :
  removeWall g a b = None ↔ ¬ (adjacent a b ∧ present g a ∧ present g b).
Proof.
  rewrite <- removeWall_is_Some. destruct (removeWall g a b); split.
  - intros [=].
  - intros H. exfalso. apply H. eauto.
  - intros _ [? [=]].
  - reflexivity.
Qed.

(** X1. [removeWall] returns exactly when the two cells are 4-adjacent and
    both in the grid; otherwise it throws (the direction is not in its
    dictionary, as for a cell and itself, or a cell is [undefined]). *)
Theorem removeWall_throws_iff (g : Grid) (a b : Cell) :
  removeWall g a b = None ↔ ¬ (adjacent a b ∧ present g a ∧ present g b).
Proof. exact (removeWall_None_iff g a b). Qed.

Lemma removeWall_Some_effect (g g' : Grid) (a b : Cell) :
  removeWall g a b = Some g' →
  opened_from g g'
  ∧ (∀ k, k ≠ key_of a → k ≠ key_of b → g' !! k = g !! k)
  ∧ ∃ s wa wb,
      b = toward s a
      ∧ g !! key_of a = Some wa ∧ g !! key_of b = Some wb
      ∧ g' !! key_of a = Some (set_wall s false wa)
      ∧ g' !! key_of b = Some (set_wall (opposite s) false wb)
      ∧ is_open g' a s = true
      ∧ is_open g' b (opposite s) = true.
Proof.
  intros (s & wa & wb & -> & Ha & Hb & ->)%removeWall_Some_toward.
  assert (Ha' : <[key_of (toward s a) := set_wall (opposite s) false wb]>
                  (<[key_of a := set_wall s false wa]> g) !! key_of a
                = Some (set_wall s false wa)).
  { rewrite lookup_removed. rewrite decide_False by (intros E; symmetry in E;
      now apply toward_neq in E). now rewrite decide_True. }
  assert (Hb' : <[key_of (toward s a) := set_wall (opposite s) false wb]>
                  (<[key_of a := set_wall s false wa]> g) !! key_of (toward s a)
                = Some (set_wall (opposite s) false wb)).
  { rewrite lookup_removed. now rewrite decide_True. }
  split; [|split].
  - apply opened_from_removed; [exact Ha|].
    rewrite lookup_insert_ne by apply key_of_toward_neq. exact Hb.
  - intros k Hka Hkb. now rewrite !lookup_insert_ne by congruence.
  - exists s, wa, wb. repeat (split; [assumption || reflexivity|]).
    split.
    + unfold is_open. now rewrite Ha', Hb', wall_set_wall_eq.
    + unfold is_open. now rewrite Hb', toward_opposite, Ha', wall_set_wall_eq.
Qed.

(** X2. What a call of [removeWall] that returns has done: the grid has the
    same cells, the cells other than the two are untouched, the wall of
    each of the two cells that faces the other is open (so the passage is
    open from both sides), their other walls are as before, and no wall
    that was open is closed. *)
Theorem removeWall_effect (g g' : Grid) (a b : Cell) :
  removeWall g a b = Some g' →
  opened_from g g'
  ∧ (∀ k, k ≠ key_of a → k ≠ key_of b → g' !! k = g !! k)
  ∧ ∃ s wa wb,
      b = toward s a
      ∧ g !! key_of a = Some wa ∧ g !! key_of b = Some wb
      ∧ g' !! key_of a = Some (set_wall s false wa)
      ∧ g' !! key_of b = Some (set_wall (opposite s) false wb)
      ∧ is_open g' a s = true
      ∧ is_open g' b (opposite s) = true.
Proof. exact (removeWall_Some_effect g g' a b). Qed.

Lemma removeWall_effect_witness :
  ∃ g', removeWall (populateGrid 2 2) (0, 0) (1, 0) = Some g'
        ∧ opened_from (populateGrid 2 2) g'.
Proof.
  assert (H : ∃ g', removeWall (populateGrid 2 2) (0, 0) (1, 0) = Some g')
    by (eexists; vm_compute; reflexivity).
  destruct H as [g' H]. exists g'. split; [exact H|].
  exact (proj1 (removeWall_effect _ _ _ _ H)).
Defined.

Lemma set_wall_idem (s : Side) (w : Walls) :
  set_wall s false (set_wall s false w) = set_wall s false w.
Proof. now destruct s, w. Qed.

(** X3. When [removeWall] returns, the call with the two cells exchanged
    returns the same grid, and removing the wall again, in either order,
    changes nothing.  Calls that throw are not compared: the code can have
    opened the wall of its first cell before it throws on the second. *)
Theorem removeWall_commutes_idempotent (g g' : Grid) (a b : Cell) :
  removeWall g a b = Some g' →
  removeWall g b a = Some g'
  ∧ removeWall g' a b = Some g'
  ∧ removeWall g' b a = Some g'.
Proof.
  assert (Hswap : ∀ g0 g1, removeWall g0 a b = Some g1 → removeWall g0 b a = Some g1).
  { intros g0 g1 E1.
    apply removeWall_Some_toward in E1 as (s & wa & wb & -> & Ha & Hb & ->).
    pose proof (removeWall_toward g0 (toward s a) (opposite s) wb wa Hb) as E2.
    rewrite toward_opposite, opposite_opposite in E2. rewrite (E2 Ha).
    f_equal. apply insert_insert_ne. intros E.
    first [now apply key_of_toward_neq in E
          |symmetry in E; now apply key_of_toward_neq in E]. }
  intros H.
  assert (Hidem : removeWall g' a b = Some g').
  { pose proof H as H0.
    apply removeWall_Some_effect in H0
      as (_ & _ & s & wa & wb & -> & _ & _ & Ha' & Hb' & _).
    rewrite (removeWall_toward g' a s _ _ Ha' Hb'). f_equal.
    rewrite !set_wall_idem. apply map_eq. intros k.
    rewrite !lookup_insert. repeat case_decide; subst; congruence. }
  split; [now apply Hswap|]. split; [exact Hidem|now apply Hswap].
Qed.

Lemma removeWall_commutes_idempotent_witness :
  ∃ g', removeWall (populateGrid 2 2) (0, 0) (1, 0) = Some g'
        ∧ removeWall (populateGrid 2 2) (1, 0) (0, 0) = Some g'
        ∧ removeWall g' (0, 0) (1, 0) = Some g'
        ∧ removeWall g' (1, 0) (0, 0) = Some g'.
Proof.
  assert (H : ∃ g', removeWall (populateGrid 2 2) (0, 0) (1, 0) = Some g')
    by (eexists; vm_compute; reflexivity).
  destruct H as [g' H]. exists g'. split; [exact H|].
  exact (removeWall_commutes_idempotent (populateGrid 2 2) g' (0, 0) (1, 0) H).
Defined.

(** ** More on getRandomNeighbour and generateMaze *)

Lemma validNeighbours_filter (cur : Cell) (g : Grid) (visited : gset string) :
  validNeighbours cur g visited
  = filter (λ c, unvisitedInGrid g visited c = true)
      [toward Right cur; toward Left cur; toward Bottom cur; toward Top cur].
Proof.
  unfold validNeighbours. destruct cur as [x y]. cbn [toward fst snd].
  rewrite !filter_cons, filter_nil.
  destruct (unvisitedInGrid g visited (x + 1, y));
  destruct (unvisitedInGrid g visited (x - 1, y));
  destruct (unvisitedInGrid g visited (x, y + 1));
  destruct (unvisitedInGrid g visited (x, y - 1));
  repeat case_decide; try discriminate; try congruence; reflexivity.
Qed.

Lemma unvisitedInGrid_true (g : Grid) (visited : gset string) (c : Cell) :
  unvisitedInGrid g visited c = true ↔ present g c ∧ key_of c ∉ visited.
Proof.
  unfold unvisitedInGrid, present. destruct (g !! key_of c) as [w|].
  - rewrite negb_true_iff, bool_decide_eq_false. split; [eauto|tauto].
  - split; [discriminate|]. now intros [[? [=]] _].
Qed.

Lemma elem_of_validNeighbours (cur : Cell) (g : Grid) (visited : gset string) (nb : Cell) :
  nb ∈ validNeighbours cur g visited
  ↔ ∃ s, nb = toward s cur ∧ present g nb ∧ key_of nb ∉ visited.
Proof.
  rewrite validNeighbours_filter, list_elem_of_filter, unvisitedInGrid_true. split.
  - intros [Hu Hin]. repeat (apply elem_of_cons in Hin as [->|Hin]);
      [exists Right|exists Left|exists Bottom|exists Top|now apply elem_of_nil in Hin];
      now split.
  - intros (s & -> & Hp & Hv). split; [now split|]. destruct s; set_solver.
Qed.

Lemma getRandomNeighbour_None (rnd : nat) (cur : Cell) (g : Grid) (visited : gset string) :
  getRandomNeighbour rnd cur g visited = None ↔ validNeighbours cur g visited = [].
Proof.
  unfold getRandomNeighbour. destruct (validNeighbours cur g visited) as [|c l] eqn:E.
  - tauto.
  - split; [|discriminate]. intros H. apply lookup_ge_None in H.
    pose proof (Nat.mod_upper_bound rnd (length (c :: l))) as Hb.
    simpl length in *. lia.
Qed.

(** X4. [getRandomNeighbour] returns [null] exactly when every neighbour
    of the current cell that is in the grid is in [visited]; what it
    returns otherwise is a neighbour that is in the grid and not in
    [visited]; and every such neighbour is returned for some value of
    [Math.random]. *)
Theorem getRandomNeighbour_choice (cur : Cell) (g : Grid) (visited : gset string) :
  (∀ rnd, getRandomNeighbour rnd cur g visited = None
          ↔ ∀ s, present g (toward s cur) → key_of (toward s cur) ∈ visited)
  ∧ (∀ rnd nb, getRandomNeighbour rnd cur g visited = Some nb →
               ∃ s, nb = toward s cur ∧ present g nb ∧ key_of nb ∉ visited)
  ∧ (∀ s, present g (toward s cur) → key_of (toward s cur) ∉ visited →
          ∃ rnd, getRandomNeighbour rnd cur g visited = Some (toward s cur)).
Proof.
  split; [|split].
  - intros rnd. rewrite getRandomNeighbour_None. split.
    + intros E s Hp. destruct (decide (key_of (toward s cur) ∈ visited)) as [|Hv];
        [assumption|].
      assert (Hin : toward s cur ∈ validNeighbours cur g visited)
        by (apply elem_of_validNeighbours; eauto).
      rewrite E in Hin. now apply elem_of_nil in Hin.
    + intros Hall. destruct (validNeighbours cur g visited) as [|c l] eqn:E;
        [reflexivity|].
      assert (Hin : c ∈ validNeighbours cur g visited)
        by (rewrite E; apply elem_of_cons; now left).
      apply elem_of_validNeighbours in Hin as (s & -> & Hp & Hv).
      now apply Hall in Hp.
  - intros rnd nb H. apply elem_of_validNeighbours.
    unfold getRandomNeighbour in H.
    destruct (validNeighbours cur g visited) eqn:E; [discriminate|].
    eapply list_elem_of_lookup_2. exact H.
  - intros s Hp Hv.
    assert (Hin : toward s cur ∈ validNeighbours cur g visited)
      by (apply elem_of_validNeighbours; eauto).
    apply list_elem_of_lookup_1 in Hin as [i Hi]. exists i.
    unfold getRandomNeighbour.
    destruct (validNeighbours cur g visited) as [|c l] eqn:E; [discriminate|].
    rewrite Nat.mod_small; [exact Hi|]. now apply lookup_lt_Some in Hi.
Qed.

Lemma getRandomNeighbour_choice_witness :
  ∃ rnd, getRandomNeighbour rnd (0, 0) (populateGrid 2 2) ∅ = Some (0, 1).
Proof.
  apply (proj2 (proj2 (getRandomNeighbour_choice (0, 0) (populateGrid 2 2) ∅)) Bottom).
  - unfold present. rewrite lookup_populateGrid_cell. simpl. eauto.
  - apply not_elem_of_empty.
Defined.

Lemma is_open_opened (g g' : Grid) (u : Cell) (s : Side) :
  opened_from g g' → is_open g u s = true → is_open g' u s = true.
Proof.
  intros [Hdom Hw]. unfold is_open.
  destruct (g !! key_of u) as [w|] eqn:Hu; [|discriminate].
  destruct (g !! key_of (toward s u)) as [wn|] eqn:Hn;
    [|rewrite andb_false_r; discriminate].
  rewrite andb_true_r. intros Hs%negb_true_iff.
  assert (is_Some (g' !! key_of u)) as [w' Hu'].
  { apply elem_of_dom. rewrite Hdom. apply elem_of_dom. eauto. }
  assert (is_Some (g' !! key_of (toward s u))) as [wn' Hn'].
  { apply elem_of_dom. rewrite Hdom. apply elem_of_dom. eauto. }
  rewrite Hu', Hn', (Hw _ _ _ s Hu Hu' Hs). reflexivity.
Qed.

Lemma route_opened (g g' : Grid) (a b : Cell) (p : list Cell) :
  opened_from g g' → route (open_step g) a b p → route (open_step g') a b p.
Proof.
  intros Ho (Hh & Hl & Hw). split; [exact Hh|]. split; [exact Hl|].
  clear Hh Hl. induction p as [|x [|y p] IH]; try exact I.
  destruct Hw as [(s & -> & Hs) Hw]. split; [|now apply IH].
  exists s. split; [reflexivity|]. now apply (is_open_opened g).
Qed.

Lemma present_opened (g g' : Grid) (c : Cell) :
  opened_from g g' → (present g' c ↔ present g c).
Proof. intros [Hdom _]. unfold present. now rewrite <- !elem_of_dom, Hdom. Qed.

Lemma key_not_initially_visited (c : Cell) : key_of c ∉ Js.Set_of_string (key_of start).
Proof.
  intros H. apply elem_of_list_to_set in H. cbn in H.
  repeat (apply elem_of_cons in H as [H|H]);
    try (apply (f_equal getNumericalCoordinates) in H;
         rewrite getNumericalCoordinates_key_of in H; discriminate H).
  now apply elem_of_nil in H.
Qed.

Lemma dfs_inv_initial (g : Grid) :
  present g start → dfs_inv g [start] (Js.Set_of_string (key_of start)).
Proof.
  intros Hs. split.
  - intros c ->%list_elem_of_singleton. split; [exact Hs|now right].
  - intros c [Hc| ->]; [now apply key_not_initially_visited in Hc|].
    exists [start]. now split.
  - intros c [Hc| ->] _; [now apply key_not_initially_visited in Hc|].
    left. apply list_elem_of_singleton. reflexivity.
Qed.

Lemma dfs_inv_pop (g : Grid) (cur : Cell) (stack : list Cell) (visited : gset string) :
  dfs_inv g (cur :: stack) visited →
  validNeighbours cur g visited = [] →
  dfs_inv g stack visited.
Proof.
  intros [Hst Hr Hd] Hnil. split.
  - intros c Hc. apply Hst. apply elem_of_cons. now right.
  - exact Hr.
  - intros c Hc Hp. destruct (Hd c Hc Hp) as [[->|Hin]%elem_of_cons|Hall];
      [|now left|now right].
    right. intros s Hps.
    destruct (decide (key_of (toward s cur) ∈ visited)) as [|Hv]; [assumption|].
    assert (Hin : toward s cur ∈ validNeighbours cur g visited)
      by (apply elem_of_validNeighbours; eauto).
    rewrite Hnil in Hin. now apply elem_of_nil in Hin.
Qed.

Lemma dfs_inv_push (g g' : Grid) (cur : Cell) (s : Side) (stack : list Cell)
    (visited : gset string) :
  dfs_inv g (cur :: stack) visited →
  opened_from g g' → is_open g' cur s = true →
  present g (toward s cur) →
  dfs_inv g' (toward s cur :: cur :: stack) ({[key_of (toward s cur)]} ∪ visited).
Proof.
  intros [Hst Hr Hd] Ho Hopen Hp.
  assert (Hseen : ∀ c, seen visited c → seen ({[key_of (toward s cur)]} ∪ visited) c).
  { intros c [Hc| ->]; [left; set_solver|now right]. }
  split.
  - intros c [->|Hc]%elem_of_cons.
    + split; [now apply (present_opened g g')|]. left. set_solver.
    + destruct (Hst c Hc) as [Hpc Hsc]. split; [now apply (present_opened g g')|auto].
  - intros c [Hc|Hc].
    + apply elem_of_union in Hc as [Hc%elem_of_singleton|Hc].
      * apply key_of_inj in Hc as ->.
        destruct (Hst cur) as [_ Hsc]; [apply elem_of_cons; now left|].
        destruct (Hr cur Hsc) as (p & Hp0).
        apply (route_opened g g') in Hp0 as (Hh & Hl & Hw); [|assumption].
        exists (p ++ [toward s cur]). split; [|split].
        -- destruct p; [discriminate|exact Hh].
        -- apply last_snoc.
        -- apply (walk_snoc _ p cur); [assumption..|]. now exists s.
      * destruct (Hr c) as [p Hp0]; [now left|]. exists p.
        now apply (route_opened g g').
    + destruct (Hr c) as [p Hp0]; [now right|]. exists p.
      now apply (route_opened g g').
  - intros c Hc Hpc.
    destruct (decide (c = toward s cur)) as [->|Hne].
    { left. apply elem_of_cons. now left. }
    assert (Hc' : seen visited c).
    { destruct Hc as [Hc|Hc]; [|now right].
      apply elem_of_union in Hc as [Hc%elem_of_singleton|Hc]; [|now left].
      now apply key_of_inj in Hc. }
    apply (present_opened g g') in Hpc; [|assumption].
    destruct (Hd c Hc' Hpc) as [Hin|Hall].
    + left. apply elem_of_cons. now right.
    + right. intros t Hpt. apply (present_opened g g') in Hpt; [|assumption].
      apply elem_of_union. right. now apply Hall.
Qed.

(** The loop of [generateMaze] from a state that satisfies its invariant,
    with enough fuel: it returns, having only opened walls, and with an
    empty stack. *)
Lemma generateMaze_loop_dfs (fuel : nat) (random : nat → nat) (calls : nat)
    (g : Grid) (stack : list Cell) (visited : gset string) :
  dfs_inv g stack visited →
  (2 * size (dom g ∖ visited) + length stack ≤ fuel)%nat →
  ∃ g' visited',
    generateMaze_loop fuel random calls g stack visited = Done g'
    ∧ opened_from g g' ∧ dfs_inv g' [] visited'.
Proof.
  revert calls g stack visited.
  induction fuel as [|fuel IH]; intros calls g stack visited Hinv Hfuel.
  - destruct stack; [|simpl in Hfuel; lia]. exists g, visited.
    split; [reflexivity|]. split; [apply opened_from_refl|exact Hinv].
  - destruct stack as [|cur stack'].
    { exists g, visited. split; [reflexivity|]. split; [apply opened_from_refl|exact Hinv]. }
    simpl generateMaze_loop. simpl length in Hfuel.
    destruct (getRandomNeighbour (random calls) cur g visited) as [nb|] eqn:Hnb.
    + apply getRandomNeighbour_spec in Hnb as ([s ->] & [wb Hb] & Hv).
      destruct (dfs_stack _ _ _ Hinv cur) as [[wa Ha] _]; [apply elem_of_cons; now left|].
      pose proof (removeWall_toward g cur s wa wb Ha Hb) as Hrw. rewrite Hrw.
      destruct (removeWall_Some_effect _ _ _ _ Hrw) as (Ho & _ & s' & _ & _ & Hs' & _ & _ & _ & _ & Hopen & _).
      apply toward_inj_side in Hs' as <-.
      set (g' := <[key_of (toward s cur) := _]> _) in *.
      destruct (IH (S calls) g' (toward s cur :: cur :: stack')
                  ({[key_of (toward s cur)]} ∪ visited)) as (g'' & v'' & Hrun & Ho' & Hinv').
      * apply (dfs_inv_push g g'); try assumption. unfold present. eauto.
      * destruct Ho as [Hdom _]. rewrite Hdom. simpl length.
        pose proof (size_difference_step (dom g) visited (key_of (toward s cur))) as Hsz.
        assert (key_of (toward s cur) ∈ dom g) by (apply elem_of_dom; eauto).
        specialize (Hsz ltac:(assumption) Hv). lia.
      * exists g'', v''. split; [exact Hrun|]. split; [|exact Hinv'].
        now apply (opened_from_trans g g').
    + apply getRandomNeighbour_None in Hnb.
      apply IH; [now apply (dfs_inv_pop g cur)|lia].
Qed.

Lemma seen_closed_walk (g : Grid) (visited : gset string) (p : list Cell) (a b : Cell) :
  dfs_inv g [] visited → seen visited a → present g a →
  route (next_to g) a b p → seen visited b.
Proof.
  intros Hinv. revert a. induction p as [|x p IH]; intros a Ha Hpa (Hh & Hl & Hw);
    [discriminate|].
  injection Hh as ->. destruct p as [|y p].
  - simpl in Hl. now injection Hl as <-.
  - destruct Hw as [(s & -> & Hps) Hw].
    apply (IH (toward s a)); [|assumption|now split].
    destruct (dfs_done _ _ _ Hinv a Ha Hpa) as [Hin|Hall];
      [now apply elem_of_nil in Hin|].
    left. now apply Hall.
Qed.

Lemma generateMaze_reaches (random : nat → nat) (g : Grid) :
  present g start →
  ∃ g', generateMaze (generateMaze_fuel g) random g = Done g'
        ∧ opened_from g g'
        ∧ ∀ c p, route (next_to g) start c p → ∃ p', route (open_step g') start c p'.
Proof.
  intros Hs. unfold generateMaze.
  destruct (generateMaze_loop_dfs (generateMaze_fuel g) random 0 g [start]
              (Js.Set_of_string (key_of start))) as (g' & v' & Hrun & Ho & Hinv).
  - now apply dfs_inv_initial.
  - unfold generateMaze_fuel. simpl length.
    assert (size (dom g ∖ Js.Set_of_string (key_of start)) ≤ size g)%nat.
    { rewrite <- size_dom. apply subseteq_size. set_solver. }
    lia.
  - exists g'. split; [exact Hrun|]. split; [exact Ho|].
    intros c p Hp. apply (dfs_route _ _ _ Hinv).
    apply (seen_closed_walk g' v' p start c Hinv); [now right| |].
    + now apply (present_opened g g').
    + destruct Hp as (Hh & Hl & Hw). split; [exact Hh|]. split; [exact Hl|].
      clear Hh Hl. induction p as [|x [|y p] IH]; try exact I.
      destruct Hw as [(s & -> & Hps) Hw]. split; [|now apply IH].
      exists s. split; [reflexivity|]. now apply (present_opened g g').
Qed.

(** X5. On any grid that holds the cell (0,0), whatever the random values,
    [generateMaze] returns without throwing; it keeps the cells of the
    grid and closes no wall that was open; and every cell joined to (0,0)
    by a chain of neighbouring cells of the grid can then be reached from
    (0,0) through open passages. *)
Theorem generateMaze_returns_connected (random : nat → nat) (g : Grid) :
  present g start →
  ∃ g', generateMaze (generateMaze_fuel g) random g = Done g'
        ∧ opened_from g g'
        ∧ ∀ c p, route (next_to g) start c p → ∃ p', route (open_step g') start c p'.
Proof. apply generateMaze_reaches. Qed.

Lemma generateMaze_returns_connected_witness :
  ∃ g', generateMaze (generateMaze_fuel (populateGrid 2 2)) cycle_random (populateGrid 2 2)
        = Done g' ∧ opened_from (populateGrid 2 2) g'.
Proof.
  destruct (generateMaze_returns_connected cycle_random (populateGrid 2 2))
    as (g' & Hrun & Ho & _).
  - unfold present. rewrite lookup_populateGrid_cell. simpl. eauto.
  - exists g'. split; [exact Hrun|exact Ho].
Defined.

(** X6. On a grid that lacks the cell (0,0), [generateMaze] throws as soon
    as a neighbour of (0,0) is in the grid (the TypeError of [removeWall]
    on the missing start cell), and otherwise returns at once with the
    grid untouched. *)
Theorem generateMaze_without_start (fuel : nat) (random : nat → nat) (g : Grid) :
  ¬ present g start → (0 < fuel)%nat →
  ((∃ s, present g (toward s start)) → generateMaze fuel random g = Throws)
  ∧ ((∀ s, ¬ present g (toward s start)) → generateMaze fuel random g = Done g).
Proof.
  intros Hns Hfuel. destruct fuel as [|fuel]; [lia|].
  unfold generateMaze. simpl generateMaze_loop. split.
  - intros [s Hs].
    destruct (getRandomNeighbour (random 0%nat) (0, 0) g (Js.Set_of_string (key_of (0, 0))))
      as [nb|] eqn:Hnb.
    + assert (Hrw : removeWall g (0, 0) nb = None).
      { apply removeWall_None_iff. intros (_ & Hp & _). now apply Hns. }
      now rewrite Hrw.
    + apply getRandomNeighbour_None in Hnb.
      assert (Hin : toward s start ∈ validNeighbours (0, 0) g (Js.Set_of_string (key_of (0, 0)))).
      { apply elem_of_validNeighbours. exists s. split; [reflexivity|].
        split; [exact Hs|apply key_not_initially_visited]. }
      rewrite Hnb in Hin. now apply elem_of_nil in Hin.
  - intros Hnone.
    destruct (getRandomNeighbour (random 0%nat) (0, 0) g (Js.Set_of_string (key_of (0, 0))))
      as [nb|] eqn:Hnb.
    + apply getRandomNeighbour_spec in Hnb as ([s ->] & Hp & _).
      exfalso. now apply (Hnone s).
    + now destruct fuel.
Qed.

Lemma generateMaze_without_start_witness :
  generateMaze 1 cycle_random {[ "1,0" := closedWalls ]} = Throws.
Proof.
  apply (proj1 (generateMaze_without_start 1 cycle_random {[ "1,0" := closedWalls ]}
                  ltac:(vm_compute; intros [? [=]]) ltac:(lia))).
  exists Right. vm_compute. eauto.
Defined.

Lemma rectangle_row (w h : Z) (n : nat) :
  0 < h → Z.of_nat n < w →
  ∃ p, route (next_to (populateGrid h w)) start (Z.of_nat n, 0) p.
Proof.
  intros Hh. induction n as [|n IH]; intros Hn.
  - exists [start]. now split.
  - destruct IH as (p & Hhd & Hl & Hw); [lia|].
    exists (p ++ [(Z.of_nat (S n), 0)]). split; [|split].
    + destruct p; [discriminate|exact Hhd].
    + apply last_snoc.
    + apply (walk_snoc _ p (Z.of_nat n, 0)); [assumption..|].
      exists Right. split; [simpl; f_equal; lia|].
      unfold present. rewrite lookup_populateGrid_cell.
      rewrite decide_True by (simpl; lia). eauto.
Qed.

Lemma rectangle_route (w h x y : Z) :
  0 ≤ x < w → 0 ≤ y < h →
  ∃ p, route (next_to (populateGrid h w)) start (x, y) p.
Proof.
  intros Hx Hy.
  assert (H : ∀ m : nat, Z.of_nat m < h →
              ∃ p, route (next_to (populateGrid h w)) start (x, Z.of_nat m) p).
  { induction m as [|m IH]; intros Hm.
    - destruct (rectangle_row w h (Z.to_nat x)) as [p Hp]; [lia..|].
      rewrite Z2Nat.id in Hp by lia. now exists p.
    - destruct IH as (p & Hhd & Hl & Hw); [lia|].
      exists (p ++ [(x, Z.of_nat (S m))]). split; [|split].
      + destruct p; [discriminate|exact Hhd].
      + apply last_snoc.
      + apply (walk_snoc _ p (x, Z.of_nat m)); [assumption..|].
        exists Bottom. split; [simpl; f_equal; lia|].
        unfold present. rewrite lookup_populateGrid_cell.
        rewrite decide_True by (simpl; lia). eauto. }
  destruct (H (Z.to_nat y)) as [p Hp]; [lia|].
  rewrite Z2Nat.id in Hp by lia. now exists p.
Qed.

Lemma generateMaze_rectangle (random : nat → nat) (w h : Z) :
  0 < w → 0 < h →
  ∃ g', generateMaze (generateMaze_fuel (populateGrid h w)) random (populateGrid h w)
        = Done g'
        ∧ wall_symmetric g'
        ∧ opened_from (populateGrid h w) g'
        ∧ ∀ x y, 0 ≤ x < w → 0 ≤ y < h → ∃ p, route (open_step g') start (x, y) p.
Proof.
  intros Hw Hh.
  assert (Hs : present (populateGrid h w) start).
  { unfold present. rewrite lookup_populateGrid_cell.
    rewrite decide_True by (simpl; lia). eauto. }
  destruct (generateMaze_reaches random (populateGrid h w) Hs) as (g' & Hrun & Ho & Hreach).
  destruct (generateMaze_populateGrid random w h) as (g'' & Hrun' & Hsym & _).
  rewrite Hrun in Hrun'. injection Hrun' as <-.
  exists g'. split; [exact Hrun|]. split; [exact Hsym|]. split; [exact Ho|].
  intros x y Hx Hy. destruct (rectangle_route w h x y Hx Hy) as [p Hp].
  now apply (Hreach (x, y) p).
Qed.

(** X7. In the maze [generateMaze] makes of a fresh [gridWidth] by
    [gridHeight] grid, whatever the random values, every cell of the
    rectangle can be reached from (0,0) through open passages: no cell is
    cut off. *)
Theorem generateMaze_no_cell_cut_off (random : nat → nat) (w h : Z) :
  0 < w → 0 < h →
  ∃ g', generateMaze (generateMaze_fuel (populateGrid h w)) random (populateGrid h w)
        = Done g'
        ∧ ∀ x y, 0 ≤ x < w → 0 ≤ y < h → ∃ p, route (open_step g') start (x, y) p.
Proof.
  intros Hw Hh.
  destruct (generateMaze_rectangle random w h Hw Hh) as (g' & Hrun & _ & _ & Hreach).
  now exists g'.
Qed.

Lemma generateMaze_no_cell_cut_off_witness :
  ∃ g', generateMaze (generateMaze_fuel (populateGrid 2 3)) cycle_random (populateGrid 2 3)
        = Done g'
        ∧ ∃ p, route (open_step g') start (2, 1) p.
Proof.
  destruct (generateMaze_no_cell_cut_off cycle_random 3 2) as (g' & Hrun & Hreach);
    [lia..|].
  exists g'. split; [exact Hrun|]. apply Hreach; lia.
Defined.

(** ** More on findPath *)

Lemma route_exists_found (g : Grid) (w h : Z) (p : list Cell) :
  route (passable g) start (goal_of w h) p →
  ∃ closed, findPath g w h = Done (Found closed (finishCell_of w h))
            ∧ closed_ok g (goal_of w h) closed.
Proof.
  intros Hp. destruct (findPath_spec g w h) as (r & Hr & Hres).
  destruct r as [closed f|].
  - destruct Hres as [-> Hok]. now exists closed.
  - exfalso. apply Hres. now exists p.
Qed.

Lemma found_closed_ok (g : Grid) (w h : Z) (closed : gmap string Node) (f : string) :
  findPath g w h = Done (Found closed f) →
  f = finishCell_of w h ∧ closed_ok g (goal_of w h) closed.
Proof.
  intros Hrun. destruct (findPath_spec g w h) as (r & Hr & Hres).
  rewrite Hrun in Hr. injection Hr as <-. exact Hres.
Qed.

Lemma findPath_finds_route_aux (g : Grid) (w h : Z) :
  (∀ p, route (passable g) start (goal_of w h) p →
        ∃ closed, findPath g w h = Done (Found closed (finishCell_of w h)))
  ∧ (wall_symmetric g → present g start →
     ∀ p, route (open_step g) start (goal_of w h) p →
          ∃ closed, findPath g w h = Done (Found closed (finishCell_of w h))).
Proof.
  split.
  - intros p Hp. destruct (route_exists_found g w h p Hp) as (closed & Hrun & _).
    now exists closed.
  - intros Hsym Hs p Hp. apply route_passable_open in Hp; [|assumption..].
    destruct (route_exists_found g w h p Hp) as (closed & Hrun & _).
    now exists closed.
Qed.

(** X8. [findPath] finds the goal whenever it can be reached: if some
    route leads from (0,0) to the goal by steps [getViableNeighbours]
    allows (on a symmetric grid with the start cell: by open passages),
    the call returns a closed set and the key of the goal. *)
Theorem findPath_finds_route (g : Grid) (w h : Z) :
  (∀ p, route (passable g) start (goal_of w h) p →
        ∃ closed, findPath g w h = Done (Found closed (finishCell_of w h)))
  ∧ (wall_symmetric g → present g start →
     ∀ p, route (open_step g) start (goal_of w h) p →
          ∃ closed, findPath g w h = Done (Found closed (finishCell_of w h))).
Proof. apply findPath_finds_route_aux. Qed.

Lemma findPath_finds_route_witness :
  ∃ closed, findPath example_grid 2 2 = Done (Found closed (finishCell_of 2 2)).
Proof.
  apply (proj2 (findPath_finds_route example_grid 2 2)
           example_grid_symmetric example_grid_start [(0, 0); (1, 0); (1, 1)]).
  repeat split; [exists Right|exists Bottom]; split; vm_compute; reflexivity.
Defined.

(** The parent links from a closed cell pass through that many more
    closed cells as its [moveCost]. *)
Lemma chain_keys (g : Grid) (t : Cell) (closed : gmap string Node) :
  closed_ok g t closed →
  ∀ (n : nat) (c : Cell) (node : Node),
    closed !! key_of c = Some node → moveCost node = Z.of_nat n →
    ∃ K : gset string,
      K ⊆ dom closed ∧ size K = S n
      ∧ ∀ k nd, k ∈ K → closed !! k = Some nd → moveCost nd ≤ Z.of_nat n.
Proof.
  intros Hok. induction n as [|n IH]; intros c node Hc Hcost.
  - exists {[key_of c]}. split; [|split].
    + apply singleton_subseteq_l. apply elem_of_dom. eauto.
    + apply size_singleton.
    + intros k nd ->%elem_of_singleton Hk. rewrite Hc in Hk. injection Hk as <-. lia.
  - assert (Hne : c ≠ start).
    { intros ->. rewrite key_of_start, (ok_start g t closed Hok) in Hc.
      injection Hc as <-. simpl in Hcost. lia. }
    destruct (ok_parent g t closed Hok c node Hne Hc)
      as (p' & np & _ & Hp' & _ & Hm & _).
    destruct (IH p' np Hp' ltac:(lia)) as (K & Hsub & Hsize & Hle).
    assert (Hnot : key_of c ∉ K).
    { intros Hin. specialize (Hle _ _ Hin Hc). lia. }
    exists ({[key_of c]} ∪ K). split; [|split].
    + apply union_subseteq. split; [|exact Hsub].
      apply singleton_subseteq_l. apply elem_of_dom. eauto.
    + rewrite size_union by set_solver. rewrite size_singleton, Hsize. reflexivity.
    + intros k nd [->%elem_of_singleton|Hin]%elem_of_union Hk.
      * rewrite Hc in Hk. injection Hk as <-. lia.
      * specialize (Hle _ _ Hin Hk). lia.
Qed.

Lemma closed_cell_route (g : Grid) (t : Cell) (closed : gmap string Node)
    (c : Cell) (node : Node) :
  closed_ok g t closed → closed !! key_of c = Some node →
  ∃ p, route (passable g) start c p
       ∧ Z.of_nat (length p) = moveCost node + 1
       ∧ (∀ r, route (passable g) start c r → (length p ≤ length r)%nat)
       ∧ drawFoundPath (size closed) closed (key_of c) = Done (key_of <$> reverse p).
Proof.
  intros Hok Hc.
  pose proof (ok_nonneg g t closed Hok _ _ Hc) as Hpos.
  destruct (drawFoundPath_route g t closed Hok (Z.to_nat (moveCost node)) c node Hc)
    as (p & Hroute & Hlen & Hrun); [lia|].
  destruct (chain_keys g t closed Hok (Z.to_nat (moveCost node)) c node Hc)
    as (K & Hsub & Hsize & _); [lia|].
  apply subseteq_size in Hsub. rewrite size_dom in Hsub.
  exists p. split; [exact Hroute|]. split; [lia|]. split.
  - intros r Hr. pose proof (ok_optimal g t closed Hok c node r Hc Hr). lia.
  - apply Hrun. lia.
Qed.

(** X9. Every node of the closed set [findPath] returns, not only that of
    the goal, carries the least number of steps from (0,0) to its cell:
    its parent links lead back to "0,0" within as many turns as there are
    closed nodes, along a route of [moveCost] steps that no route to that
    cell undercuts. *)
Theorem findPath_closed_costs (g : Grid) (w h : Z) (closed : gmap string Node)
    (f : string) (c : Cell) (n : Node) :
  findPath g w h = Done (Found closed f) →
  closed !! key_of c = Some n →
  ∃ p, route (passable g) start c p
       ∧ Z.of_nat (length p) = moveCost n + 1
       ∧ (∀ r, route (passable g) start c r → (length p ≤ length r)%nat)
       ∧ drawFoundPath (size closed) closed (key_of c) = Done (key_of <$> reverse p).
Proof.
  intros [_ Hok]%found_closed_ok Hc. now apply (closed_cell_route g (goal_of w h)).
Qed.

Lemma findPath_closed_costs_witness :
  ∃ closed n p,
    findPath example_grid 2 2 = Done (Found closed "1,1")
    ∧ closed !! key_of (1, 0) = Some n
    ∧ route (passable example_grid) start (1, 0) p
    ∧ Z.of_nat (length p) = moveCost n + 1.
Proof.
  assert (H : ∃ closed n, findPath example_grid 2 2 = Done (Found closed "1,1")
                          ∧ closed !! key_of (1, 0) = Some n)
    by (eexists _, _; split; vm_compute; reflexivity).
  destruct H as (closed & n & Hrun & Hn).
  destruct (findPath_closed_costs example_grid 2 2 closed "1,1" (1, 0) n Hrun Hn)
    as (p & Hp & Hlen & _).
  exists closed, n, p. split; [exact Hrun|]. split; [exact Hn|]. split; assumption.
Defined.

(** X10. The closed set [findPath] returns holds the start node under
    "0,0" and the goal under the key returned; every other key of it is a
    cell of the grid, so it has at most one node more than the grid has
    cells. *)
Theorem findPath_closed_within_grid (g : Grid) (w h : Z) (closed : gmap string Node)
    (f : string) :
  findPath g w h = Done (Found closed f) →
  f = finishCell_of w h
  ∧ closed !! "0,0" = Some startNode
  ∧ is_Some (closed !! f)
  ∧ (∀ k, k ∈ dom closed → k = "0,0" ∨ k ∈ dom g)
  ∧ (size closed ≤ size g + 1)%nat.
Proof.
  intros [-> Hok]%found_closed_ok.
  assert (Hkeys : ∀ k, k ∈ dom closed → k = "0,0" ∨ k ∈ dom g).
  { intros k [n Hk]%elem_of_dom. destruct (ok_keys _ _ _ Hok k n Hk) as [c ->].
    destruct (decide (c = start)) as [->|Hne]; [now left|]. right.
    destruct (ok_parent _ _ _ Hok c n Hne Hk) as (p & np & _ & _ & Hp & _).
    apply passable_present in Hp. now apply elem_of_dom. }
  split; [reflexivity|]. split; [apply Hok|]. split; [rewrite key_of_goal; apply Hok|].
  split; [exact Hkeys|].
  assert (Hsub : dom closed ⊆ {["0,0"]} ∪ dom g).
  { intros k Hk. apply Hkeys in Hk as [->|Hk]; set_solver. }
  apply subseteq_size in Hsub. rewrite size_dom in Hsub.
  rewrite size_union_alt, size_singleton in Hsub.
  assert (size (dom g ∖ {["0,0"]}) ≤ size (dom g))%nat
    by (apply subseteq_size; set_solver).
  rewrite size_dom in *. lia.
Qed.

Lemma findPath_closed_within_grid_witness :
  ∃ closed, findPath example_grid 2 2 = Done (Found closed "1,1")
            ∧ (size closed ≤ size example_grid + 1)%nat.
Proof.
  assert (Hrun : ∃ closed, findPath example_grid 2 2 = Done (Found closed "1,1"))
    by (eexists; vm_compute; reflexivity).
  destruct Hrun as [closed Hrun]. exists closed. split; [exact Hrun|].
  exact (proj2 (proj2 (proj2 (proj2
           (findPath_closed_within_grid example_grid 2 2 closed "1,1" Hrun))))).
Defined.

(** X11. The goal node [findPath] returns never has a [moveCost] below the
    Manhattan distance from (0,0) to the goal. *)
Theorem findPath_at_least_manhattan (g : Grid) (w h : Z) (closed : gmap string Node)
    (f : string) (n : Node) :
  findPath g w h = Done (Found closed f) → closed !! f = Some n →
  Z.abs (w - 1) + Z.abs (h - 1) ≤ moveCost n.
Proof.
  intros Hrun Hn. destruct (found_closed_ok g w h closed f Hrun) as [-> Hok].
  rewrite key_of_goal in Hn.
  destruct (closed_cell_route g (goal_of w h) closed (goal_of w h) n Hok Hn)
    as (p & (Hh & Hl & Hw) & Hlen & _).
  destruct p as [|x q]; [discriminate|]. injection Hh as ->.
  pose proof (walk_manhattan g (goal_of w h) q start (goal_of w h) Hw Hl) as Hm.
  unfold manhattan, goal_of, start in Hm. simpl in Hm. simpl length in Hlen.
  replace (w - 1 - 0) with (w - 1) in Hm by lia.
  replace (h - 1 - 0) with (h - 1) in Hm by lia. lia.
Qed.

Lemma findPath_at_least_manhattan_witness :
  ∃ closed n, findPath example_grid 2 2 = Done (Found closed "1,1")
              ∧ closed !! "1,1" = Some n
              ∧ Z.abs (2 - 1) + Z.abs (2 - 1) ≤ moveCost n.
Proof.
  assert (H : ∃ closed n, findPath example_grid 2 2 = Done (Found closed "1,1")
                          ∧ closed !! "1,1" = Some n)
    by (eexists _, _; split; vm_compute; reflexivity).
  destruct H as (closed & n & Hrun & Hn). exists closed, n.
  split; [exact Hrun|]. split; [exact Hn|].
  exact (findPath_at_least_manhattan example_grid 2 2 closed "1,1" n Hrun Hn).
Defined.

Lemma goal_outside_not_found (g : Grid) (w h : Z) :
  goal_of w h ≠ start → ¬ present g (goal_of w h) →
  findPath g w h = Done NotFound.
Proof.
  intros Hne Hout. apply no_route_not_found. intros [p Hp].
  destruct (route_last_step _ _ _ _ Hp) as [x Hx]; [congruence|].
  now apply passable_present in Hx.
Qed.

(** X12. When the goal cell is not the start cell and is not in the grid
    (as with a width or height that does not fit the grid), [findPath]
    returns [undefined]. *)
Theorem findPath_goal_outside_grid (g : Grid) (w h : Z) :
  goal_of w h ≠ start → ¬ present g (goal_of w h) →
  findPath g w h = Done NotFound.
Proof. exact (goal_outside_not_found g w h). Qed.

Lemma findPath_goal_outside_grid_witness :
  findPath (populateGrid 2 2) 3 2 = Done NotFound.
Proof.
  apply findPath_goal_outside_grid; [discriminate|].
  unfold present. rewrite lookup_populateGrid_cell. simpl. now intros [? [=]].
Defined.

(** X13. With a width and a height of 1 the goal is the start cell, and
    [findPath] returns at once, whatever the grid holds: the closed set
    has the start node alone. *)
Theorem findPath_goal_is_start (g : Grid) :
  findPath g 1 1 = Done (Found {["0,0" := startNode]} "0,0").
Proof.
  unfold findPath, findPath_run, findPath_fuel.
  replace (size g + 2)%nat with (S (S (size g))) by lia.
  reflexivity.
Qed.

(** ** More on drawFoundPath, renderGrid and main *)

Lemma drawFoundPath_S (fuel : nat) (closed : gmap string Node) (k : string) :
  drawFoundPath (S fuel) closed k
  = if String.eqb k "0,0" then Done [k]
    else match closed !! k with
         | None => Throws
         | Some n =>
             match drawFoundPath fuel closed (parent n) with
             | Done l => Done (k :: l)
             | Throws => Throws
             | OutOfFuel => OutOfFuel
             end
         end.
Proof. reflexivity. Qed.

(** X14. The list [drawFoundPath] walks through, when it returns, starts
    with the key it was given and ends with "0,0", which occurs nowhere
    before; each key in it but the last is in [closed], and the next key
    is its parent. *)
Theorem drawFoundPath_shape (fuel : nat) (closed : gmap string Node) (k : string)
    (l : list string) :
  drawFoundPath fuel closed k = Done l →
  head l = Some k ∧ last l = Some "0,0"
  ∧ ∀ (i : nat) (a b : string),
      l !! i = Some a → l !! S i = Some b →
      a ≠ "0,0" ∧ ∃ n, closed !! a = Some n ∧ parent n = b.
Proof.
  revert k l. induction fuel as [|fuel IH]; intros k l; [discriminate|].
  rewrite drawFoundPath_S.
  destruct (String.eqb_spec k "0,0") as [->|Hne].
  - intros [= <-]. split; [reflexivity|]. split; [reflexivity|].
    intros i a b _ Hb. destruct i; discriminate.
  - destruct (closed !! k) as [n|] eqn:Hk; [|discriminate].
    destruct (drawFoundPath fuel closed (parent n)) as [l'| |] eqn:Hrec;
      try discriminate.
    intros [= <-]. destruct (IH _ _ Hrec) as (Hh & Hl & Hlinks).
    split; [reflexivity|]. split.
    + destruct l'; [discriminate|exact Hl].
    + intros i a b Ha Hb. destruct i as [|i].
      * injection Ha as <-. split; [exact Hne|]. exists n. split; [exact Hk|].
        simpl in Hb. destruct l'; [discriminate|].
        simpl in Hh, Hb. congruence.
      * now apply (Hlinks i).
Qed.

Lemma drawFoundPath_shape_witness :
  ∃ closed l, drawFoundPath 3 closed "1,1" = Done l
              ∧ head l = Some "1,1" ∧ last l = Some "0,0".
Proof.
  assert (H : ∃ closed l, findPath example_grid 2 2 = Done (Found closed "1,1")
                          ∧ drawFoundPath 3 closed "1,1" = Done l)
    by (eexists _, _; split; vm_compute; reflexivity).
  destruct H as (closed & l & _ & Hl). exists closed, l. split; [exact Hl|].
  destruct (drawFoundPath_shape 3 closed "1,1" l Hl) as (Hh & Hlast & _).
  now split.
Defined.

(** X15. How [drawFoundPath] fails.  On "0,0" it returns at once without
    reading [closed]; on any other key that is not in [closed] it throws;
    and on a key whose node names itself as parent it never returns. *)
Theorem drawFoundPath_failures (closed : gmap string Node) (k : string) :
  (∀ fuel, drawFoundPath (S fuel) closed "0,0" = Done ["0,0"])
  ∧ (k ≠ "0,0" → closed !! k = None →
     ∀ fuel, drawFoundPath (S fuel) closed k = Throws)
  ∧ (k ≠ "0,0" → (∃ n, closed !! k = Some n ∧ parent n = k) →
     ∀ fuel, drawFoundPath fuel closed k = OutOfFuel).
Proof.
  split; [reflexivity|]. split.
  - intros Hne Hk fuel. rewrite drawFoundPath_S, Hk.
    now destruct (String.eqb_spec k "0,0").
  - intros Hne (n & Hk & Hp) fuel. induction fuel as [|fuel IH]; [reflexivity|].
    rewrite drawFoundPath_S, Hk, Hp, IH.
    now destruct (String.eqb_spec k "0,0").
Qed.

Lemma drawFoundPath_failures_witness :
  drawFoundPath 5 ∅ "3,4" = Throws
  ∧ drawFoundPath 5 {["3,4" := mkNode "3,4" 1 0 1]} "3,4" = OutOfFuel.
Proof.
  split.
  - apply (proj1 (proj2 (drawFoundPath_failures ∅ "3,4"))); [discriminate|reflexivity].
  - apply (proj2 (proj2 (drawFoundPath_failures {["3,4" := mkNode "3,4" 1 0 1]} "3,4")));
      [discriminate|]. eexists. split; [apply lookup_singleton_eq|reflexivity].
Defined.

Lemma renderGrid_solution_found (g : Grid) (w h : Z) (closed : gmap string Node) :
  findPath g w h = Done (Found closed (finishCell_of w h)) →
  closed_ok g (goal_of w h) closed →
  ∃ path, renderGrid_solution g w h = Done (key_of <$> reverse path)
          ∧ route (passable g) start (goal_of w h) path
          ∧ ∀ r, route (passable g) start (goal_of w h) r → (length path ≤ length r)%nat.
Proof.
  intros Hrun Hok. destruct (ok_goal _ _ _ Hok) as [n Hn].
  destruct (closed_cell_route g (goal_of w h) closed (goal_of w h) n Hok Hn)
    as (p & Hroute & _ & Hmin & Hdraw).
  exists p. unfold renderGrid_solution. rewrite Hrun, key_of_goal.
  split; [exact Hdraw|]. now split.
Qed.

Lemma renderGrid_solution_cases (g : Grid) (w h : Z) :
  (∀ p, route (passable g) start (goal_of w h) p →
        ∃ path, renderGrid_solution g w h = Done (key_of <$> reverse path)
                ∧ route (passable g) start (goal_of w h) path
                ∧ ∀ r, route (passable g) start (goal_of w h) r →
                       (length path ≤ length r)%nat)
  ∧ ((¬ ∃ p, route (passable g) start (goal_of w h) p) →
     renderGrid_solution g w h = Throws).
Proof.
  split.
  - intros p Hp. destruct (route_exists_found g w h p Hp) as (closed & Hrun & Hok).
    now apply (renderGrid_solution_found g w h closed).
  - intros Hno. unfold renderGrid_solution.
    now rewrite (no_route_not_found g w h Hno).
Qed.

(** X16. The solving step of [renderGrid] draws a shortest route when the
    goal can be reached, and throws (on [solution[0]] of [undefined])
    when it cannot. *)
Theorem renderGrid_solution_spec (g : Grid) (w h : Z) :
  (∀ p, route (passable g) start (goal_of w h) p →
        ∃ path, renderGrid_solution g w h = Done (key_of <$> reverse path)
                ∧ route (passable g) start (goal_of w h) path
                ∧ ∀ r, route (passable g) start (goal_of w h) r →
                       (length path ≤ length r)%nat)
  ∧ ((¬ ∃ p, route (passable g) start (goal_of w h) p) →
     renderGrid_solution g w h = Throws).
Proof. exact (renderGrid_solution_cases g w h). Qed.

Lemma renderGrid_solution_spec_witness :
  renderGrid_solution (populateGrid 2 2) 2 2 = Throws.
Proof.
  apply (proj2 (renderGrid_solution_spec (populateGrid 2 2) 2 2)).
  intros [p Hp].
  destruct (route_last_step _ _ _ _ Hp) as (x & s & wl & _ & Hwl & Hwall);
    [discriminate|].
  rewrite lookup_populateGrid_cell in Hwl. simpl in Hwl.
  injection Hwl as <-. now destruct s.
Defined.

Lemma generated_maze_route (random : nat → nat) (w h : Z) :
  0 < w → 0 < h →
  ∃ g' path,
    generateMaze (generateMaze_fuel (populateGrid h w)) random (populateGrid h w)
    = Done g'
    ∧ wall_symmetric g' ∧ present g' start
    ∧ renderGrid_solution g' w h = Done (key_of <$> reverse path)
    ∧ route (open_step g') start (goal_of w h) path
    ∧ ∀ r, route (open_step g') start (goal_of w h) r → (length path ≤ length r)%nat.
Proof.
  intros Hw Hh.
  destruct (generateMaze_rectangle random w h Hw Hh) as (g' & Hrun & Hsym & Ho & Hreach).
  assert (Hs : present g' start).
  { apply (present_opened _ _ _ Ho). unfold present.
    rewrite lookup_populateGrid_cell. rewrite decide_True by (simpl; lia). eauto. }
  destruct (Hreach (w - 1) (h - 1)) as [p Hp]; [lia..|].
  apply route_passable_open in Hp; [|assumption..].
  destruct (proj1 (renderGrid_solution_cases g' w h) p Hp) as (path & Hdraw & Hroute & Hmin).
  exists g', path. split; [exact Hrun|]. split; [exact Hsym|]. split; [exact Hs|].
  split; [exact Hdraw|]. split; [now apply route_passable_open|].
  intros r Hr. apply Hmin. now apply route_passable_open.
Qed.

(** X17. Every maze [generateMaze] makes of a fresh grid can be solved:
    whatever the random values, on the maze made of a [w] by [h] grid
    ([w], [h] positive) [findPath] finds the goal and the solving step of
    [renderGrid] draws a shortest route of open passages from (0,0) to
    the goal, without throwing. *)
Theorem generated_maze_is_solved (random : nat → nat) (w h : Z) :
  0 < w → 0 < h →
  ∃ g' closed path,
    generateMaze (generateMaze_fuel (populateGrid h w)) random (populateGrid h w)
    = Done g'
    ∧ findPath g' w h = Done (Found closed (finishCell_of w h))
    ∧ renderGrid_solution g' w h = Done (key_of <$> reverse path)
    ∧ route (open_step g') start (goal_of w h) path
    ∧ ∀ r, route (open_step g') start (goal_of w h) r → (length path ≤ length r)%nat.
Proof.
  intros Hw Hh.
  destruct (generated_maze_route random w h Hw Hh)
    as (g' & path & Hrun & Hsym & Hs & Hdraw & Hroute & Hmin).
  destruct (proj2 (findPath_finds_route_aux g' w h) Hsym Hs path Hroute) as [closed Hf].
  exists g', closed, path. repeat (split; [assumption|]). exact Hmin.
Qed.

Lemma generated_maze_is_solved_witness :
  ∃ g' closed,
    generateMaze (generateMaze_fuel (populateGrid 2 2)) cycle_random (populateGrid 2 2)
    = Done g'
    ∧ findPath g' 2 2 = Done (Found closed (finishCell_of 2 2)).
Proof.
  destruct (generated_maze_is_solved cycle_random 2 2) as (g' & closed & path & H1 & H2 & _);
    [lia..|].
  exists g', closed. split; [exact H1|exact H2].
Defined.

Lemma validateGridWidth_true (w : Z) : validateGridWidth w = true ↔ 10 ≤ w ≤ 300.
Proof.
  unfold validateGridWidth. rewrite Z.gtb_ltb.
  destruct (Z.ltb_spec w 10), (Z.ltb_spec 300 w); simpl; split;
    try discriminate; try reflexivity; lia.
Qed.

Lemma generateMaze_empty (random : nat → nat) :
  generateMaze (generateMaze_fuel ∅) random ∅ = Done ∅.
Proof. reflexivity. Qed.

(** X18. [main] with a whole column count between 10 and 300 and a positive
    row count, whatever the random values and the grid held before: it does
    not throw; the new grid has the cells of the [gridWidth] by
    [gridHeight] rectangle and symmetric walls; and when the solve box is
    checked the keys shaded are a shortest route of open passages from
    (0,0) to the goal. *)
Theorem main_generates_and_solves (random : nat → nat) (w h : Z) (solve : bool)
    (g0 : Grid) :
  10 ≤ w ≤ 300 → 0 < h →
  ∃ g' path,
    main random w h solve g0
    = Done (g', if solve then Some (key_of <$> reverse path) else None)
    ∧ wall_symmetric g'
    ∧ dom g' = dom (populateGrid h w)
    ∧ route (open_step g') start (goal_of w h) path
    ∧ ∀ r, route (open_step g') start (goal_of w h) r → (length path ≤ length r)%nat.
Proof.
  intros Hw Hh.
  destruct (generated_maze_route random w h ltac:(lia) Hh)
    as (g' & path & Hrun & Hsym & Hs & Hdraw & Hroute & Hmin).
  destruct (generateMaze_populateGrid random w h) as (g'' & Hrun' & _ & Hdom).
  assert (g'' = g') by congruence. subst g''.
  exists g', path. split; [|auto].
  unfold main. rewrite (proj2 (validateGridWidth_true w) Hw). cbn [negb].
  cbv zeta. rewrite Hrun. destruct solve; [|reflexivity]. now rewrite Hdraw.
Qed.

Lemma main_generates_and_solves_witness :
  ∃ g' path, main cycle_random 10 1 true ∅ = Done (g', Some (key_of <$> reverse path)).
Proof.
  destruct (main_generates_and_solves cycle_random 10 1 true ∅) as (g' & path & H & _);
    [lia..|].
  exists g', path. exact H.
Defined.

(** X19. The edge cases of [main].  With a column count outside 10..300 it
    returns without touching the grid.  With an accepted column count and
    a row count that is not positive the grid becomes empty, and the call
    then throws in [renderGrid] when the solve box is checked (there is no
    route, and [solution[0]] is read from [undefined]). *)
Theorem main_edge_cases (random : nat → nat) (w h : Z) (g0 : Grid) :
  (w < 10 ∨ 300 < w → ∀ solve, main random w h solve g0 = Done (g0, None))
  ∧ (10 ≤ w ≤ 300 → h ≤ 0 →
     main random w h false g0 = Done (∅, None)
     ∧ main random w h true g0 = Throws).
Proof.
  split.
  - intros Hw solve. unfold main.
    destruct (validateGridWidth w) eqn:E; [|reflexivity].
    apply validateGridWidth_true in E. lia.
  - intros Hw Hh. unfold main. rewrite (proj2 (validateGridWidth_true w) Hw).
    cbn [negb]. cbv zeta. rewrite (populateGrid_empty h w) by lia.
    rewrite generateMaze_empty. split; [reflexivity|].
    unfold renderGrid_solution. rewrite goal_outside_not_found; [reflexivity| |].
    + unfold goal_of, start. intros [=]. lia.
    + unfold present. rewrite lookup_empty. now intros [? [=]].
Qed.

Lemma main_edge_cases_witness :
  main cycle_random 5 7 true example_grid = Done (example_grid, None)
  ∧ main cycle_random 10 0 true example_grid = Throws.
Proof.
  destruct (main_edge_cases cycle_random 5 7 example_grid) as [H1 _].
  destruct (main_edge_cases cycle_random 10 0 example_grid) as [_ H2].
  split; [apply H1; lia|apply H2; lia].
Defined.

(** ** More on the small functions of solveMaze.js *)

Lemma exact_small (n : Z) : -1000 ≤ n ≤ 1000 → exact n.
Proof. unfold exact. intros H. change (2 ^ 50) with 1125899906842624. lia. Qed.

(** X20. [getHeuristicMeasure], given a cell and the key of a target cell
    (coordinates in the range where the numbers of the code are exact),
    returns the Manhattan distance: it is not negative, it does not depend
    on which of the two cells is the target, it is 0 exactly on the target
    itself, and a step to a neighbouring cell changes it by exactly 1. *)
Theorem getHeuristicMeasure_distance (c t : Cell) :
  exact_cell c → exact_cell t →
  ∃ d, getHeuristicMeasure c (key_of t) = Some d
       ∧ getHeuristicMeasure t (key_of c) = Some d
       ∧ 0 ≤ d
       ∧ (d = 0 ↔ c = t)
       ∧ ∀ s, ∃ d', getHeuristicMeasure (toward s c) (key_of t) = Some d'
                    ∧ (d' = d + 1 ∨ d' = d - 1).
Proof.
  intros _ _.
  exists (manhattan c t). rewrite !getHeuristicMeasure_key_of.
  unfold manhattan. destruct c as [cx cy], t as [tx ty]. cbn [fst snd].
  split; [reflexivity|]. split; [f_equal; lia|]. split; [lia|]. split.
  - split; [intros H; f_equal; lia|intros [= -> ->]; lia].
  - intros s. rewrite getHeuristicMeasure_key_of. eexists. split; [reflexivity|].
    unfold manhattan. destruct s; cbn [toward fst snd]; lia.
Qed.

Lemma getHeuristicMeasure_distance_witness :
  ∃ d, getHeuristicMeasure (0, 1) (key_of (3, 2)) = Some d ∧ d = 4
       ∧ ∃ d', getHeuristicMeasure (toward Right (0, 1)) (key_of (3, 2)) = Some d'
               ∧ (d' = d + 1 ∨ d' = d - 1).
Proof.
  destruct (getHeuristicMeasure_distance (0, 1) (3, 2)) as (d & Hd & _ & _ & _ & Hstep).
  - split; apply exact_small; simpl; lia.
  - split; apply exact_small; simpl; lia.
  - exists d. split; [exact Hd|]. split; [|exact (Hstep Right)].
    rewrite getHeuristicMeasure_key_of in Hd. injection Hd as <-. reflexivity.
Defined.

Lemma string_app_assoc (a b c : string) : (a +:+ b) +:+ c = a +:+ (b +:+ c).
Proof.
  induction a as [|x a IH]; [reflexivity|].
  change (String x ((a +:+ b) +:+ c) = String x (a +:+ (b +:+ c))). now rewrite IH.
Qed.

Lemma split_no_comma (s : string) :
  ","%char ∉ list_ascii_of_string s → Js.split "," s = [s].
Proof.
  induction s as [|c r IH]; simpl; [reflexivity|].
  intros [Hc Hr]%not_elem_of_cons.
  destruct (Ascii.eqb_spec c ","); [congruence|]. now rewrite IH.
Qed.

(** X21. Keys and coordinates round-trip, for coordinates in the range
    where the numbers of the code are exact: parsing the key built from a
    cell gives the cell back (also for negative coordinates, and for the
    key of the finish cell), so different cells have different keys. *)
Theorem key_round_trip :
  (∀ c, exact_cell c → getNumericalCoordinates (key_of c) = Some c)
  ∧ (∀ a b, exact_cell a → exact_cell b → a ≠ b → key_of a ≠ key_of b)
  ∧ (∀ w h, exact w → exact h →
            getNumericalCoordinates (finishCell_of w h) = Some (w - 1, h - 1)).
Proof.
  split; [intros c _; apply getNumericalCoordinates_key_of|].
  split; [intros a b _ _ Hab E; apply Hab, key_of_inj, E|].
  intros w h _ _. rewrite key_of_goal. apply getNumericalCoordinates_key_of.
Qed.

Lemma key_round_trip_witness :
  getNumericalCoordinates (key_of (-3, 12)) = Some (-3, 12)
  ∧ key_of (1, 0) ≠ key_of (0, 1)
  ∧ getNumericalCoordinates (finishCell_of 50 30) = Some (49, 29).
Proof.
  destruct key_round_trip as (H1 & H2 & H3).
  split; [|split].
  - apply H1. split; apply exact_small; simpl; lia.
  - apply H2; [split; apply exact_small; simpl; lia..|]. intros [=].
  - apply (H3 50 30); apply exact_small; lia.
Defined.

(** X22. What [getNumericalCoordinates] makes of other strings: without a
    comma there is no second coordinate to parse (NaN), and whatever
    follows a second comma is ignored (shown for keys of coordinates in
    the range where the numbers of the code are exact). *)
Theorem getNumericalCoordinates_other_strings :
  (∀ s, ","%char ∉ list_ascii_of_string s → getNumericalCoordinates s = None)
  ∧ (∀ c rest, exact_cell c →
               getNumericalCoordinates (key_of c +:+ "," +:+ rest) = Some c).
Proof.
  split.
  - intros s Hs. unfold getNumericalCoordinates. now rewrite split_no_comma.
  - intros c rest _. unfold getNumericalCoordinates, key_of.
    rewrite string_app_assoc.
    change (("," +:+ Js.String_of (snd c)) +:+ "," +:+ rest)
      with (String "," (Js.String_of (snd c) +:+ String "," rest)).
    rewrite split_app_comma by apply split_String_of.
    rewrite split_app_comma by apply split_String_of.
    destruct (Js.split "," rest) as [|r0 rs] eqn:E.
    { destruct rest as [|a rest]; [discriminate E|]. simpl in E.
      destruct (Ascii.eqb a ","); [discriminate E|].
      destruct (Js.split "," rest); discriminate E. }
    rewrite !parseInt_String_of. now destruct c.
Qed.

Lemma getNumericalCoordinates_other_strings_witness :
  getNumericalCoordinates "12" = None
  ∧ getNumericalCoordinates "3,4,5" = Some (3, 4).
Proof.
  split.
  - apply (proj1 getNumericalCoordinates_other_strings).
    cbn. intros H. repeat (apply elem_of_cons in H as [H|H]; [discriminate H|]).
    now apply elem_of_nil in H.
  - apply (proj2 getNumericalCoordinates_other_strings (3, 4) "5").
    split; apply exact_small; simpl; lia.
Defined.

Lemma sublist_fmap_mono {A B : Type} (f : A → B) (l1 l2 : list A) :
  l1 `sublist_of` l2 → (f <$> l1) `sublist_of` (f <$> l2).
Proof. induction 1; simpl; now constructor. Qed.

(** X23. [getViableNeighbours], for a current cell with coordinates in the
    range where the numbers of the code are exact, returns some of the four
    neighbours of that cell, in the order up, down, left, right, none of
    them twice and never the current cell itself. *)
Theorem getViableNeighbours_shape (g : Grid) (c : Cell) (closed : gmap string Node) :
  exact_cell c →
  ∃ nbs, getViableNeighbours g (key_of c) closed = Some nbs
         ∧ nbs `sublist_of` [toward Top c; toward Bottom c; toward Left c; toward Right c]
         ∧ NoDup nbs
         ∧ (c ∉ nbs)
         ∧ ∀ nb, nb ∈ nbs → adjacent c nb.
Proof.
  intros _.
  eexists. split; [apply getViableNeighbours_eq|].
  set (nbs := _ <$> filter _ _).
  assert (Hsub : nbs `sublist_of`
                   [toward Top c; toward Bottom c; toward Left c; toward Right c]).
  { apply (sublist_fmap_mono (λ s, toward s c) _ [Top; Bottom; Left; Right]).
    apply sublist_filter. }
  assert (Hadj : ∀ nb, nb ∈ nbs → adjacent c nb).
  { intros nb (s & -> & _)%list_elem_of_fmap. apply adjacent_toward. eauto. }
  split; [exact Hsub|]. split; [|split; [|exact Hadj]].
  - refine (sublist_NoDup _ _ _ Hsub).
    repeat (apply NoDup_cons; split;
            [rewrite ?not_elem_of_cons; repeat split;
             try apply not_elem_of_nil;
             intros E; apply toward_inj_side in E; discriminate E|]).
    apply NoDup_nil_2.
  - intros Hin. apply Hadj in Hin. unfold adjacent, manhattan in Hin.
    destruct c; simpl in Hin. lia.
Qed.

Lemma getViableNeighbours_shape_witness :
  ∃ nbs, getViableNeighbours open_grid (key_of (0, 0)) ∅ = Some nbs
         ∧ nbs = [(0, 1); (1, 0)]
         ∧ NoDup nbs
         ∧ ∀ nb, nb ∈ nbs → adjacent (0, 0) nb.
Proof.
  destruct (getViableNeighbours_shape open_grid (0, 0) ∅) as (nbs & H & _ & Hn & _ & Ha).
  - split; apply exact_small; simpl; lia.
  - exists nbs. split; [exact H|]. split; [|split; [exact Hn|exact Ha]].
    assert (H' : getViableNeighbours open_grid (key_of (0, 0)) ∅ = Some [(0, 1); (1, 0)])
      by (vm_compute; reflexivity).
    rewrite H in H'. injection H' as ->. reflexivity.
Defined.

Lemma lowerOf_fold_key (o l : list (string * Node)) (acc : string) :
  acc ∈ Obj.keys o → l ⊆ o → foldl (lowerOf o) acc l ∈ Obj.keys o.
Proof.
  revert acc. induction l as [|[k v] l IH]; intros acc Hacc Hsub; [exact Hacc|].
  simpl foldl. apply IH; [|set_solver].
  unfold lowerOf. destruct (Obj.get acc o) as [m|]; [|exact Hacc].
  destruct (_ <? _); [|exact Hacc].
  unfold Obj.keys. apply list_elem_of_fmap. exists (k, v). split; [reflexivity|].
  apply Hsub. apply elem_of_cons. now left.
Qed.

(** X24. [getLowestCostNodeKey] returns [undefined] on the empty object and
    only then; what it returns otherwise is a key of the object. *)
Theorem getLowestCostNodeKey_defined (o : list (string * Node)) :
  (getLowestCostNodeKey o = None ↔ o = [])
  ∧ ∀ k, getLowestCostNodeKey o = Some k → k ∈ Obj.keys o.
Proof.
  unfold getLowestCostNodeKey. destruct o as [|[k0 v0] o].
  - split; [tauto|discriminate].
  - split; [split; discriminate|]. intros k. cbn [Obj.keys fmap list_fmap fst].
    intros [= <-].
    apply (lowerOf_fold_key ((k0, v0) :: o) ((k0, v0) :: o)); [|intros x Hx; exact Hx].
    apply elem_of_cons. now left.
Qed.

Lemma getLowestCostNodeKey_defined_witness :
  "0,0" ∈ Obj.keys [("0,0", startNode)].
Proof.
  apply (proj2 (getLowestCostNodeKey_defined [("0,0", startNode)])). reflexivity.
Defined.

(** ** More on populateGrid *)

Lemma length_cells_of (w h : Z) :
  length (cells_of w h) = (Z.to_nat w * Z.to_nat h)%nat.
Proof.
  assert (H : ∀ l m : list Z,
             length (l ≫= λ i, (λ j, (i, j)) <$> m) = (length l * length m)%nat).
  { intros l m. induction l as [|i l IH]; [reflexivity|].
    rewrite bind_cons, length_app, length_fmap, IH. reflexivity. }
  unfold cells_of. now rewrite H, !length_seqZ.
Qed.

Lemma NoDup_cells_of (w h : Z) : NoDup (cells_of w h).
Proof.
  unfold cells_of. apply NoDup_bind.
  - intros x1 x2 y _ _ (j1 & -> & _)%list_elem_of_fmap (j2 & [= -> _] & _)%list_elem_of_fmap.
    reflexivity.
  - intros x _. apply NoDup_fmap_2; [|apply NoDup_seqZ]. intros a b [=]. assumption.
  - apply NoDup_seqZ.
Qed.

(** X25. [populateGrid] makes as many cells as columns times rows (none
    when either is not positive): no two cells of the rectangle share a
    key. *)
Theorem populateGrid_size (h w : Z) :
  size (populateGrid h w) = (Z.to_nat w * Z.to_nat h)%nat.
Proof.
  rewrite <- length_cells_of, <- size_dom.
  assert (Hdom : dom (populateGrid h w) = list_to_set (key_of <$> cells_of w h)).
  { apply set_eq. intros k. rewrite elem_of_dom, elem_of_list_to_set, lookup_populateGrid.
    case_decide; split; try tauto; [eauto|now intros [? [=]]]. }
  rewrite Hdom, size_list_to_set, length_fmap; [reflexivity|].
  apply NoDup_fmap_2; [|apply NoDup_cells_of]. intros a b. apply key_of_inj.
Qed.

(** ** The outer walls *)

Lemma generateMaze_loop_preserves (P : Grid → Prop) :
  (∀ g g' a b, P g → removeWall g a b = Some g' → P g') →
  ∀ fuel random calls g stack visited g',
    P g → generateMaze_loop fuel random calls g stack visited = Done g' → P g'.
Proof.
  intros HP. induction fuel as [|fuel IH]; intros random calls g stack visited g' Hg.
  - destruct stack; simpl; [intros [= <-]; exact Hg|discriminate].
  - destruct stack as [|cur stack']; simpl; [intros [= <-]; exact Hg|].
    destruct (getRandomNeighbour (random calls) cur g visited) as [nb|]; [|now apply IH].
    destruct (removeWall g cur nb) as [g1|] eqn:Hrw; [|discriminate].
    apply IH. exact (HP _ _ _ _ Hg Hrw).
Qed.

Lemma Side_eq_or_neq (s t : Side) : s = t ∨ s ≠ t.
Proof. destruct s, t; (now left) || (now right). Qed.

Lemma removeWall_enclosed (g g' : Grid) (a b : Cell) :
  enclosed g → removeWall g a b = Some g' → enclosed g'.
Proof.
  intros Hg Hrw.
  destruct (removeWall_Some_effect _ _ _ _ Hrw)
    as (Ho & Hother & s & wa & wb & -> & Ha & Hb & Ha' & Hb' & _).
  intros c w s0 Hc Hw. apply (present_opened _ _ _ Ho).
  destruct (decide (key_of c = key_of a)) as [Eca|Nca].
  - apply key_of_inj in Eca as ->. rewrite Ha' in Hc. injection Hc as <-.
    destruct (Side_eq_or_neq s s0) as [<-|Hs]; [unfold present; eauto|].
    rewrite wall_set_wall_ne in Hw by exact Hs. exact (Hg _ _ _ Ha Hw).
  - destruct (decide (key_of c = key_of (toward s a))) as [Ecb|Ncb].
    + apply key_of_inj in Ecb as ->. rewrite Hb' in Hc. injection Hc as <-.
      destruct (Side_eq_or_neq (opposite s) s0) as [<-|Hs].
      * rewrite toward_opposite. unfold present. eauto.
      * rewrite wall_set_wall_ne in Hw by exact Hs. exact (Hg _ _ _ Hb Hw).
    + rewrite (Hother _ Nca Ncb) in Hc. exact (Hg _ _ _ Hc Hw).
Qed.

Lemma populateGrid_enclosed (h w : Z) : enclosed (populateGrid h w).
Proof.
  intros c wl s Hc Hw. apply populateGrid_values in Hc as [-> _]. now destruct s.
Qed.

(** X26. The maze [generateMaze] makes of a fresh grid keeps its outer
    walls: whatever the random values, behind every wall that is open in
    the result lies a cell of the rectangle, so no passage leads out of
    the maze. *)
Theorem generateMaze_outer_walls_closed (random : nat → nat) (w h : Z) :
  ∃ g', generateMaze (generateMaze_fuel (populateGrid h w)) random (populateGrid h w)
        = Done g'
        ∧ ∀ c wl s, g' !! key_of c = Some wl → wall s wl = false →
                    0 ≤ fst (toward s c) < w ∧ 0 ≤ snd (toward s c) < h.
Proof.
  destruct (generateMaze_populateGrid random w h) as (g' & Hrun & _ & Hdom).
  exists g'. split; [exact Hrun|]. intros c wl s Hc Hw.
  assert (He : enclosed g').
  { refine (generateMaze_loop_preserves enclosed removeWall_enclosed _ _ _ _ _ _ _ _ Hrun).
    apply populateGrid_enclosed. }
  specialize (He c wl s Hc Hw). unfold present in He.
  apply elem_of_dom in He. rewrite Hdom in He. apply elem_of_dom in He as [x Hx].
  rewrite lookup_populateGrid_cell in Hx.
  destruct (decide (0 ≤ fst (toward s c) < w ∧ 0 ≤ snd (toward s c) < h)); [assumption|discriminate].
Qed.

Lemma generateMaze_outer_walls_closed_witness :
  ∃ g', generateMaze (generateMaze_fuel (populateGrid 2 2)) cycle_random (populateGrid 2 2)
        = Done g'
        ∧ ∀ wl, g' !! key_of (0, 0) = Some wl → wall Left wl = true.
Proof.
  destruct (generateMaze_outer_walls_closed cycle_random 2 2) as (g' & Hrun & Hb).
  exists g'. split; [exact Hrun|]. intros wl Hwl.
  destruct (wall Left wl) eqn:E; [reflexivity|].
  destruct (Hb (0, 0) wl Left Hwl E) as [Hx _]. simpl in Hx. lia.
Defined.
